(** * A shallow embedding of the parallel fixer (claude_code_fixer.py) and of
    the auto-fixer (auto_fix.py), with the properties of the fix-resolution
    engine stated over it.

    Conventions of the embedding.
    - A Python [str] is a [list ascii]: one element per code point, for text
      whose code points are below 256.  Paths and identifiers that the code
      only passes around are Rocq [string]s.
    - A Python [int] is a [Z].
    - An issue is a [Dict[str, Any]] read only through [.get(key, default)]
      on the keys 'rule', 'message' and 'line'; a missing key is [None].
    - A [dict] whose iteration order matters is an association list in
      insertion order; a [dict] used only as a map is a [gmap].
    - External programs (git, the fixing agent, the fix command of a linter)
      are oracles: the functions take their outcome as an argument. *)

From Stdlib Require Import ZArith List Ascii String Bool Lia.
From Stdlib Require Import DecimalString.
From stdpp Require Import base list gmap strings.

Local Open Scope Z_scope.

Abbreviation str := (list ascii).

(** ** Python string primitives *)
Module PyStr.

Definition lit (s : string) : str := list_ascii_of_string s.
#[global] Arguments lit _ : simpl never.

Definition code (c : ascii) : Z := Z.of_nat (nat_of_ascii c).

(** [str.isspace] on one code point below 256. *)
Definition is_space (c : ascii) : bool :=
  let n := code c in
  ((9 <=? n) && (n <=? 13)) || ((28 <=? n) && (n <=? 32))
  || (n =? 133) || (n =? 160).

(** [str.lower] on one code point below 256. *)
Definition lower_char (c : ascii) : ascii :=
  let n := code c in
  if ((65 <=? n) && (n <=? 90))
     || ((192 <=? n) && (n <=? 222) && negb (n =? 215))
  then ascii_of_nat (Z.to_nat (n + 32)) else c.

Definition lower (s : str) : str := map lower_char s.

Fixpoint lstrip (s : str) : str :=
  match s with
  | c :: s' => if is_space c then lstrip s' else s
  | [] => []
  end.

Definition rstrip (s : str) : str := rev (lstrip (rev s)).

Definition strip (s : str) : str := rstrip (lstrip s).

Fixpoint startswith (s p : str) {struct p} : bool :=
  match p, s with
  | [], _ => true
  | _ :: _, [] => false
  | a :: p', b :: s' => if ascii_dec a b then startswith s' p' else false
  end.

Definition endswith (s p : str) : bool := startswith (rev s) (rev p).

(** [sub in s]. *)
Fixpoint contains (sub s : str) : bool :=
  startswith s sub ||
  match s with
  | [] => false
  | _ :: s' => contains sub s'
  end.

(** [s.split(sep)] for a separator of one character: the pieces between
    the occurrences of [sep], always at least one piece. *)
Fixpoint split (sep : ascii) (s : str) : list str :=
  match s with
  | [] => [[]]
  | c :: s' =>
      if ascii_dec c sep then [] :: split sep s'
      else match split sep s' with
           | piece :: rest => (c :: piece) :: rest
           | [] => [[c]]
           end
  end.

(** [s.split(sep)[0]]. *)
Definition first_piece (sep : ascii) (s : str) : str :=
  default [] (head (split sep s)).

(** [sep.join(pieces)]. *)
Fixpoint join (sep : str) (pieces : list str) : str :=
  match pieces with
  | [] => []
  | [p] => p
  | p :: rest => p ++ sep ++ join sep rest
  end.

(** [s.replace(old, new, 1)]: the leftmost occurrence only; an empty [old]
    matches at position 0. *)
Fixpoint replace_first (old new s : str) : str :=
  if startswith s old then new ++ drop (length old) s
  else match s with
       | [] => []
       | c :: s' => c :: replace_first old new s'
       end.

(** [str(n)] for an int: decimal digits, with a minus sign below zero. *)
Definition str_of_int (n : Z) : str :=
  lit (NilZero.string_of_int (Z.to_int n)).

(** [l.insert(i, x)] for [0 <= i]: positions past the end append. *)
Definition list_insert_at {A} (i : nat) (x : A) (l : list A) : list A :=
  take i l ++ x :: drop i l.

End PyStr.

(** ** hashlib.md5 (RFC 1321), on 32-bit words held in [Z] *)
Module MD5.

Definition w32 (x : Z) : Z := x mod 2 ^ 32.

Definition rotl (x n : Z) : Z :=
  w32 (Z.lor (Z.shiftl x n) (Z.shiftr x (32 - n))).

Definition not32 (x : Z) : Z := Z.lxor x 0xffffffff.

Definition K : list Z :=
  [ 0xd76aa478; 0xe8c7b756; 0x242070db; 0xc1bdceee;
    0xf57c0faf; 0x4787c62a; 0xa8304613; 0xfd469501;
    0x698098d8; 0x8b44f7af; 0xffff5bb1; 0x895cd7be;
    0x6b901122; 0xfd987193; 0xa679438e; 0x49b40821;
    0xf61e2562; 0xc040b340; 0x265e5a51; 0xe9b6c7aa;
    0xd62f105d; 0x02441453; 0xd8a1e681; 0xe7d3fbc8;
    0x21e1cde6; 0xc33707d6; 0xf4d50d87; 0x455a14ed;
    0xa9e3e905; 0xfcefa3f8; 0x676f02d9; 0x8d2a4c8a;
    0xfffa3942; 0x8771f681; 0x6d9d6122; 0xfde5380c;
    0xa4beea44; 0x4bdecfa9; 0xf6bb4b60; 0xbebfbc70;
    0x289b7ec6; 0xeaa127fa; 0xd4ef3085; 0x04881d05;
    0xd9d4d039; 0xe6db99e5; 0x1fa27cf8; 0xc4ac5665;
    0xf4292244; 0x432aff97; 0xab9423a7; 0xfc93a039;
    0x655b59c3; 0x8f0ccc92; 0xffeff47d; 0x85845dd1;
    0x6fa87e4f; 0xfe2ce6e0; 0xa3014314; 0x4e0811a1;
    0xf7537e82; 0xbd3af235; 0x2ad7d2bb; 0xeb86d391 ].

Definition shifts : list Z :=
  [ 7; 12; 17; 22; 7; 12; 17; 22; 7; 12; 17; 22; 7; 12; 17; 22;
    5; 9; 14; 20; 5; 9; 14; 20; 5; 9; 14; 20; 5; 9; 14; 20;
    4; 11; 16; 23; 4; 11; 16; 23; 4; 11; 16; 23; 4; 11; 16; 23;
    6; 10; 15; 21; 6; 10; 15; 21; 6; 10; 15; 21; 6; 10; 15; 21 ].

(** The message with its padding: a 1 bit, zeros up to 56 modulo 64, then
    the bit length as eight little-endian bytes. *)
Definition le_bytes (n : nat) (x : Z) : list Z :=
  map (fun i => Z.shiftr x (8 * Z.of_nat i) mod 256) (seq 0 n).

Definition padded (msg : list Z) : list Z :=
  let len := Z.of_nat (length msg) in
  let zeros := Z.to_nat ((55 - len) mod 64) in
  msg ++ 128 :: repeat 0 zeros ++ le_bytes 8 ((8 * len) mod 2 ^ 64).

Definition le_word (bs : list Z) : Z :=
  fold_right (fun b acc => b + 256 * acc) 0 bs.

Fixpoint chunks {A} (fuel size : nat) (l : list A) : list (list A) :=
  match fuel, l with
  | O, _ | _, [] => []
  | S fuel', _ => take size l :: chunks fuel' size (drop size l)
  end.

Definition words_of (block : list Z) : list Z :=
  map le_word (chunks 16 4 block).

Definition round (M : list Z) (st : Z * Z * Z * Z) (i : nat) : Z * Z * Z * Z :=
  let '(A, B, C, D) := st in
  let zi := Z.of_nat i in
  let '(F, g) :=
    if zi <? 16 then (Z.lor (Z.land B C) (Z.land (not32 B) D), zi)
    else if zi <? 32 then (Z.lor (Z.land D B) (Z.land (not32 D) C), (5 * zi + 1) mod 16)
    else if zi <? 48 then (Z.lxor (Z.lxor B C) D, (3 * zi + 5) mod 16)
    else (Z.lxor C (Z.lor B (not32 D)), (7 * zi) mod 16) in
  let F' := w32 (F + A + nth i K 0 + nth (Z.to_nat g) M 0) in
  (D, w32 (B + rotl F' (nth i shifts 0)), B, C).

Definition block_step (h : Z * Z * Z * Z) (block : list Z) : Z * Z * Z * Z :=
  let '(a0, b0, c0, d0) := h in
  let '(A, B, C, D) := fold_left (round (words_of block)) (seq 0 64) h in
  (w32 (a0 + A), w32 (b0 + B), w32 (c0 + C), w32 (d0 + D)).

Definition digest (msg : list Z) : list Z :=
  let p := padded msg in
  let '(a, b, c, d) :=
    fold_left block_step (chunks (length p) 64 p)
              (0x67452301, 0xefcdab89, 0x98badcfe, 0x10325476) in
  le_bytes 4 a ++ le_bytes 4 b ++ le_bytes 4 c ++ le_bytes 4 d.

Definition hex_digit (n : Z) : ascii :=
  ascii_of_nat (Z.to_nat (if n <? 10 then 48 + n else 87 + n)).

Definition hex (bs : list Z) : str :=
  flat_map (fun b => [hex_digit (b / 16); hex_digit (b mod 16)]) bs.

(** [s.encode()]: UTF-8, for code points below 256. *)
Definition encode (s : str) : list Z :=
  flat_map (fun c => let n := PyStr.code c in
                     if n <? 128 then [n]
                     else [192 + n / 64; 128 + n mod 64]) s.

(** [hashlib.md5(s.encode()).hexdigest()]. *)
Definition hexdigest (s : str) : str := hex (digest (encode s)).

End MD5.


(** ** claude_code_fixer.py: data, clustering and prediction *)
Module Fixer.
Import PyStr.

(** An issue as the linters report it: a dict read with [.get]. *)
Record Issue := {
  rule : option str;
  message : option str;
  line : option Z
}.

#[global] Instance Issue_eq_dec : EqDecision Issue.
Proof. solve_decision. Defined.

(** [issue.get('rule', '')], [issue.get('message', '')],
    [issue.get('line', 0)]. *)
Definition get_rule (i : Issue) : str := default [] (rule i).
Definition get_message (i : Issue) : str := default [] (message i).
Definition get_line (i : Issue) : Z := default 0 (line i).

Record IssueCluster := {
  issues : list Issue;
  start_line : Z;
  end_line : Z;
  fingerprint : str
}.

(** The fields [__init__] reads from the configuration, and the two the
    object mutates afterwards ([_fix_attempts], [_active_worktrees]). *)
Record ClaudeCodeFixer := {
  enabled : bool;
  max_workers : Z;
  timeout : Z;
  max_fix_attempts : Z;
  _fix_attempts : gmap string Z;
  cluster_distance : Z;
  max_issues_per_cluster : Z;
  batch_similar : bool;
  predict_simple_fixes : bool;
  custom_categories : list (str * list str);
  clustering_strategy : str;
  use_git_worktrees : bool;
  worktree_merge_strategy : str;
  cleanup_worktrees : bool;
  max_worktrees : Z;
  _active_worktrees : list string
}.

(** The defaults of [__init__] (an empty configuration). *)
Definition default_fixer : ClaudeCodeFixer := {|
  enabled := true;
  max_workers := 10;
  timeout := 600;
  max_fix_attempts := 3;
  _fix_attempts := ∅;
  cluster_distance := 5;
  max_issues_per_cluster := 5;
  batch_similar := true;
  predict_simple_fixes := true;
  custom_categories := [];
  clustering_strategy := lit "proximity";
  use_git_worktrees := false;
  worktree_merge_strategy := lit "claude";
  cleanup_worktrees := true;
  max_worktrees := 10;
  _active_worktrees := []
|}.

(** [simple_fix_patterns['F821']]. *)
Definition simple_fix_patterns_F821 : list (str * str) :=
  [ (lit "json", lit "import json");
    (lit "datetime", lit "from datetime import datetime");
    (lit "logging", lit "import logging");
    (lit "os", lit "import os");
    (lit "sys", lit "import sys");
    (lit "Path", lit "from pathlib import Path");
    (lit "List", lit "from typing import List");
    (lit "Dict", lit "from typing import Dict");
    (lit "Optional", lit "from typing import Optional") ].

Fixpoint assoc {V} (k : str) (table : list (str * V)) : option V :=
  match table with
  | [] => None
  | (k', v) :: rest => if decide (k' = k) then Some v else assoc k rest
  end.

(** *** Sorting: [sorted(l, key=...)] is stable *)

Section Sorted.
Context {A : Type} (key : A -> Z).

Fixpoint insert_sorted (x : A) (l : list A) : list A :=
  match l with
  | [] => [x]
  | y :: l' => if key x <=? key y then x :: l else y :: insert_sorted x l'
  end.

Definition sorted (l : list A) : list A := fold_right insert_sorted [] l.

End Sorted.

(** [min(lines)] and [max(lines)]; both raise on an empty list, which
    [_create_cluster] never receives (the value 0 stands for the raise). *)
Definition py_min (l : list Z) : Z :=
  match l with [] => 0 | x :: l' => fold_left Z.min l' x end.
Definition py_max (l : list Z) : Z :=
  match l with [] => 0 | x :: l' => fold_left Z.max l' x end.

(** *** Fingerprints *)

Definition _get_issue_fingerprint (issue : Issue) : str :=
  get_rule issue ++ lit ":" ++ str_of_int (get_line issue).

Definition _get_cluster_fingerprint (issues : list Issue) : str :=
  let fingerprints := map _get_issue_fingerprint issues in
  take 8 (MD5.hexdigest (join (lit "|") fingerprints)).

Definition _create_cluster (issues : list Issue) : IssueCluster :=
  let lines := map get_line issues in
  {| issues := issues;
     start_line := py_min lines;
     end_line := py_max lines;
     fingerprint := _get_cluster_fingerprint issues |}.

(** *** Categories *)

Definition any_keyword (rule message : str) (keywords : list string) : bool :=
  existsb (fun k => contains (lit k) rule || contains (lit k) message) keywords.

Fixpoint custom_category (rule message : str)
    (cats : list (str * list str)) : option str :=
  match cats with
  | [] => None
  | (category_name, patterns) :: rest =>
      if existsb (fun p => contains (lower p) rule || contains (lower p) message)
                 patterns
      then Some category_name
      else custom_category rule message rest
  end.

Local Open Scope string_scope.

Definition _get_issue_category (self : ClaudeCodeFixer) (issue : Issue) : str :=
  let rule := lower (get_rule issue) in
  let message := lower (get_message issue) in
  match custom_category rule message (custom_categories self) with
  | Some category_name => category_name
  | None =>
    if any_keyword rule message ["import"; "f401"; "e402"; "isort"]
    then lit "imports"
    else if any_keyword rule message
              ["type"; "reportargumenttype"; "reportassignmenttype";
               "reportreturntype"; "reportmissingtypeargument";
               "annotation"; "typing"]
    then lit "types"
    else if any_keyword rule message ["f821"; "undefined"; "nameerror"; "unbound"]
    then lit "undefined"
    else if any_keyword rule message ["f841"; "unused"; "assigned but never used"]
    then lit "unused"
    else if any_keyword rule message
              ["d"; "docstring"; "missing docstring"; "d100"; "d101"; "d102"]
    then lit "docstrings"
    else if any_keyword rule message
              ["syntax"; "indent"; "whitespace"; "format"; "e1"; "e2"; "e3"; "w"]
    then lit "formatting"
    else if any_keyword rule message ["s"; "security"; "bandit"; "unsafe"]
    then lit "security"
    else if any_keyword rule message ["c901"; "complex"; "cyclomatic"; "mccabe"]
    then lit "complexity"
    else match rule with
         | c :: _ => lit "rule_" ++ [lower_char c]
         | [] => lit "other"
         end
  end.

Local Close Scope string_scope.

(** *** The clustering loops *)

(** [issue_groups]: a dict from category to the issues of that category,
    in insertion order. *)
Fixpoint group_add (category : str) (issue : Issue)
    (groups : list (str * list Issue)) : list (str * list Issue) :=
  match groups with
  | [] => [(category, [issue])]
  | (c, l) :: rest =>
      if decide (c = category) then (c, l ++ [issue]) :: rest
      else (c, l) :: group_add category issue rest
  end.

Definition issue_groups (self : ClaudeCodeFixer) (issues : list Issue)
    : list (str * list Issue) :=
  fold_left (fun groups issue =>
               group_add (_get_issue_category self issue) issue groups)
            issues [].

(** [current_cluster[-1].get('line', 0)] *)
Definition last_line (current_cluster : list Issue) : Z :=
  match last current_cluster with
  | Some i => get_line i
  | None => 0
  end.

(** The test that lets an issue join a cluster that is not empty. *)
Definition fits_proximity (self : ClaudeCodeFixer)
    (current_cluster : list Issue) (issue : Issue) : bool :=
  (get_line issue - last_line current_cluster <=? cluster_distance self)
  && (Z.of_nat (length current_cluster) <? max_issues_per_cluster self).

Definition fits_similarity (self : ClaudeCodeFixer)
    (current_cluster : list Issue) (issue : Issue) : bool :=
  Z.of_nat (length current_cluster) <? max_issues_per_cluster self.

(** One turn of [for issue in sorted_issues], on the pair
    ([clusters], [current_cluster]). *)
Definition cluster_step (fits : list Issue -> Issue -> bool)
    (st : list IssueCluster * list Issue) (issue : Issue)
    : list IssueCluster * list Issue :=
  let '(clusters, current_cluster) := st in
  match current_cluster with
  | [] => (clusters, [issue])
  | _ :: _ =>
      if fits current_cluster issue
      then (clusters, current_cluster ++ [issue])
      else (clusters ++ [_create_cluster current_cluster], [issue])
  end.

(** The loop and the flush [if current_cluster: clusters.append(...)]. *)
Definition cluster_loop (fits : list Issue -> Issue -> bool)
    (clusters : list IssueCluster) (sorted_issues : list Issue)
    : list IssueCluster :=
  let '(clusters', current_cluster) :=
    fold_left (cluster_step fits) sorted_issues (clusters, []) in
  match current_cluster with
  | [] => clusters'
  | _ :: _ => clusters' ++ [_create_cluster current_cluster]
  end.

Definition _cluster_by_proximity (self : ClaudeCodeFixer)
    (issues : list Issue) : list IssueCluster :=
  let sorted_issues := sorted get_line issues in
  cluster_loop (fits_proximity self) [] sorted_issues.

Definition _cluster_by_similarity (self : ClaudeCodeFixer)
    (issues : list Issue) : list IssueCluster :=
  fold_left (fun clusters '(category, category_issues) =>
               cluster_loop (fits_similarity self) clusters
                            (sorted get_line category_issues))
            (issue_groups self issues) [].

Definition _cluster_hybrid (self : ClaudeCodeFixer)
    (issues : list Issue) : list IssueCluster :=
  fold_left (fun clusters '(category, category_issues) =>
               cluster_loop (fits_proximity self) clusters
                            (sorted get_line category_issues))
            (issue_groups self issues) [].

Definition cluster_issues (self : ClaudeCodeFixer) (issues : list Issue)
    : list IssueCluster :=
  if negb (batch_similar self) then
    map (fun issue =>
           {| issues := [issue];
              start_line := get_line issue;
              end_line := get_line issue;
              fingerprint := _get_issue_fingerprint issue |})
        issues
  else if decide (clustering_strategy self = lit "similarity")
  then _cluster_by_similarity self issues
  else if decide (clustering_strategy self = lit "hybrid")
  then _cluster_hybrid self issues
  else _cluster_by_proximity self issues.

(** *** The predictor *)

Definition newline : ascii := "010"%char.

(** The scan of [_apply_import_fix] for the insertion point.  The state is
    ([insert_pos], [in_docstring], [docstring_char]); [None] is the
    [break]. *)
Definition is_import_line (l : str) : bool :=
  startswith (strip l) (lit "import ") || startswith (strip l) (lit "from ").

Fixpoint skip_imports (fuel : nat) (lines : list str) (insert_pos : nat) : nat :=
  match fuel with
  | O => insert_pos
  | S fuel' =>
      match lines !! insert_pos with
      | Some l =>
          if is_import_line l || bool_decide (strip l = [])
          then skip_imports fuel' lines (S insert_pos)
          else insert_pos
      | None => insert_pos
      end
  end.

Definition triple_double : str := repeat (ascii_of_nat 34) 3.
Definition triple_single : str := lit "'''".

Fixpoint find_insert_pos (all_lines : list str) (rest : list str) (i : nat)
    (insert_pos : nat) (in_docstring : bool) (docstring_char : option str)
    : nat :=
  match rest with
  | [] => insert_pos
  | l :: rest' =>
      let stripped := strip l in
      if negb in_docstring
         && (startswith stripped triple_double || startswith stripped triple_single)
      then
        let dc := if startswith stripped triple_double
                  then triple_double else triple_single in
        let in_docstring' :=
          negb (endswith stripped dc && (3 <? Z.of_nat (length stripped))) in
        find_insert_pos all_lines rest' (S i) insert_pos in_docstring' (Some dc)
      else if in_docstring
              && match docstring_char with
                 | Some dc => bool_decide (dc <> []) && endswith stripped dc
                 | None => false
                 end
      then find_insert_pos all_lines rest' (S i) (S i) false docstring_char
      else if negb in_docstring && bool_decide (stripped <> [])
              && negb (startswith stripped (lit "#"))
      then
        if startswith stripped (lit "import ") || startswith stripped (lit "from ")
        then skip_imports (length all_lines) all_lines (S i)
        else i
      else find_insert_pos all_lines rest' (S i) insert_pos in_docstring docstring_char
  end.

Definition _apply_import_fix (content import_stmt : str) : str :=
  let lines := split newline content in
  let insert_pos := find_insert_pos lines lines 0 0 false None in
  join [newline] (list_insert_at insert_pos import_stmt lines).

(** [predict_simple_fix]: [None] is "no prediction". *)
Definition predict_simple_fix (self : ClaudeCodeFixer) (issue : Issue)
    (file_content : str) : option str :=
  if negb (predict_simple_fixes self) then None
  else
    let rule := get_rule issue in
    let message := get_message issue in
    if decide (rule = lit "F821") then
      if contains (lit "Undefined name `") message then
        let name := default [] (split "`"%char message !! 1%nat) in
        match assoc name simple_fix_patterns_F821 with
        | Some import_stmt =>
            if negb (contains import_stmt file_content)
            then Some (_apply_import_fix file_content import_stmt)
            else None
        | None => None
        end
      else None
    else if decide (rule = lit "F841") then
      let line_num := get_line issue - 1 in
      let lines := split newline file_content in
      if (0 <=? line_num) && (line_num <? Z.of_nat (length lines)) then
        match lines !! Z.to_nat line_num with
        | Some line =>
            if contains (lit " = ") line then
              let var_name := strip (first_piece "="%char line) in
              if negb (startswith var_name (lit "_")) then
                Some (join [newline]
                        (<[Z.to_nat line_num := replace_first var_name (lit "_" ++ var_name) line]> lines))
              else None
            else None
        | None => None
        end
      else None
    else None.

End Fixer.

(** ** claude_code_fixer.py: workspaces, the executor, the merge engine and
    the session *)
Module Session.
Import PyStr Fixer.

(** *** Exceptions, the world and the monad of effects *)

(** The exceptions that [except Exception] catches. *)
Inductive exn :=
| TimeoutExpired
| Error (msg : str).

(** [str(e)] *)
Definition exn_str (e : exn) : str :=
  match e with
  | TimeoutExpired => lit "Command timed out"
  | Error msg => msg
  end.

(** Where a fix attempt works: on the real file or on a worktree's copy. *)
Inductive Location :=
| RealFile (path : string)
| WorktreeFile (worktree_path : string).

(** The external commands the engine issues.  [AgentFix] is the agent
    asked to fix a cluster in the file at the given place; [GitBranch]
    stands for the commands [git checkout -b], [git add] and [git commit]
    by which the 'octopus' strategy puts the changes of a worktree on a
    branch. *)
Inductive Event :=
| WorktreeAdd (path : string)
| WorktreeRemove (path : string)
| PoolCreate (workers : Z)
| Submit (c : IssueCluster)
| AgentFix (loc : Location) (c : IssueCluster)
| GitApply (flags : list string) (patch : str)
| AgentMerge (versions : list IssueCluster)
| GitBranch (worktree_path : string) (branch : str)
| GitMerge (branches : list str).

(** The fixer object, the files the session reads and writes (the real
    file by its path, a worktree's copy of it by the worktree's path) and
    the commands issued so far. *)
Record World := {
  self : ClaudeCodeFixer;
  disk : gmap string str;
  worktree_files : gmap string str;
  trace : list Event
}.

(** How a call ends: with a value, with an exception, or with one of the
    exceptions that [except Exception] lets through (KeyboardInterrupt,
    SystemExit). *)
Inductive outcome (A : Type) :=
| Return (a : A)
| Raise (e : exn)
| Interrupt.
Arguments Return {A} a.
Arguments Raise {A} e.
Arguments Interrupt {A}.

Definition M (A : Type) : Type := World -> outcome A * World.

Definition ret {A} (a : A) : M A := fun w => (Return a, w).

Definition bind {A B} (m : M A) (k : A -> M B) : M B :=
  fun w => match m w with
           | (Return a, w') => k a w'
           | (Raise e, w') => (Raise e, w')
           | (Interrupt, w') => (Interrupt, w')
           end.

Definition raise {A} (e : exn) : M A := fun w => (Raise e, w).

Definition interrupt {A} : M A := fun w => (Interrupt, w).

(** [try: m  except Exception as e: handler e] *)
Definition try_except {A} (m : M A) (handler : exn -> M A) : M A :=
  fun w => match m w with
           | (Raise e, w') => handler e w'
           | r => r
           end.

(** [try: m  finally: final] *)
Definition try_finally {A} (m : M A) (final : M unit) : M A :=
  fun w => match m w with
           | (r, w') =>
               match final w' with
               | (Return _, w'') => (r, w'')
               | (Raise e, w'') => (Raise e, w'')
               | (Interrupt, w'') => (Interrupt, w'')
               end
           end.

Notation "x <- m ;; k" := (bind m (fun x => k))
  (at level 100, m at next level, right associativity).
Notation "m ;;; k" := (bind m (fun _ => k))
  (at level 100, right associativity).

Fixpoint for_each {A} (l : list A) (body : A -> M unit) : M unit :=
  match l with
  | [] => ret tt
  | x :: l' => body x ;;; for_each l' body
  end.

(** A list comprehension whose body has effects, with the position of the
    element. *)
Fixpoint map_M {A B} (i : nat) (l : list A) (body : nat -> A -> M B)
    : M (list B) :=
  match l with
  | [] => ret []
  | x :: l' =>
      y <- body i x ;; ys <- map_M (S i) l' body ;; ret (y :: ys)
  end.

Definition get {A} (f : World -> A) : M A := fun w => (Return (f w), w).

Definition emit (e : Event) : M unit :=
  fun w => (Return tt, {| self := self w; disk := disk w;
                          worktree_files := worktree_files w;
                          trace := trace w ++ [e] |}).

Definition set_active (active : list string) (s : ClaudeCodeFixer)
    : ClaudeCodeFixer := {|
  enabled := enabled s; max_workers := max_workers s; timeout := timeout s;
  max_fix_attempts := max_fix_attempts s; _fix_attempts := _fix_attempts s;
  cluster_distance := cluster_distance s;
  max_issues_per_cluster := max_issues_per_cluster s;
  batch_similar := batch_similar s;
  predict_simple_fixes := predict_simple_fixes s;
  custom_categories := custom_categories s;
  clustering_strategy := clustering_strategy s;
  use_git_worktrees := use_git_worktrees s;
  worktree_merge_strategy := worktree_merge_strategy s;
  cleanup_worktrees := cleanup_worktrees s; max_worktrees := max_worktrees s;
  _active_worktrees := active |}.

Definition set_attempts (attempts : gmap string Z) (s : ClaudeCodeFixer)
    : ClaudeCodeFixer := {|
  enabled := enabled s; max_workers := max_workers s; timeout := timeout s;
  max_fix_attempts := max_fix_attempts s; _fix_attempts := attempts;
  cluster_distance := cluster_distance s;
  max_issues_per_cluster := max_issues_per_cluster s;
  batch_similar := batch_similar s;
  predict_simple_fixes := predict_simple_fixes s;
  custom_categories := custom_categories s;
  clustering_strategy := clustering_strategy s;
  use_git_worktrees := use_git_worktrees s;
  worktree_merge_strategy := worktree_merge_strategy s;
  cleanup_worktrees := cleanup_worktrees s; max_worktrees := max_worktrees s;
  _active_worktrees := _active_worktrees s |}.

Definition update_self (f : ClaudeCodeFixer -> ClaudeCodeFixer) : M unit :=
  fun w => (Return tt, {| self := f (self w); disk := disk w;
                          worktree_files := worktree_files w;
                          trace := trace w |}).

Definition update_disk (f : gmap string str -> gmap string str) : M unit :=
  fun w => (Return tt, {| self := self w; disk := f (disk w);
                          worktree_files := worktree_files w;
                          trace := trace w |}).

Definition update_worktree_files (f : gmap string str -> gmap string str)
    : M unit :=
  fun w => (Return tt, {| self := self w; disk := disk w;
                          worktree_files := f (worktree_files w);
                          trace := trace w |}).

(** [Path(...).exists()], [read_text()] and [write_text()]. *)
Definition exists_at (loc : Location) : M bool :=
  match loc with
  | RealFile p => get (fun w => bool_decide (is_Some (disk w !! p)))
  | WorktreeFile p => get (fun w => bool_decide (is_Some (worktree_files w !! p)))
  end.

Definition read_text (loc : Location) : M str :=
  content <- match loc with
             | RealFile p => get (fun w => disk w !! p)
             | WorktreeFile p => get (fun w => worktree_files w !! p)
             end ;;
  match content with
  | Some c => ret c
  | None => raise (Error (lit "No such file or directory"))
  end.

Definition write_text (loc : Location) (content : str) : M unit :=
  match loc with
  | RealFile p => update_disk (insert p content)
  | WorktreeFile p => update_worktree_files (insert p content)
  end.

(** *** What the external programs do: the oracles *)

(** Each external program is a field of the run: what it answers, and what
    it leaves in the files.  The calls [git add] and [git add -N], whose
    outcome the code never reads, change the index only, which the world
    does not hold; they are taken to return. *)

Inductive AddOutcome :=
| Created (path : string)
| AddFailed
| AddRaised (e : exn).

(** The agent leaves its effect in the file; [after] is the content it
    leaves, from the content it found. *)
Inductive AgentOutcome :=
| AgentExit (returncode : Z) (stderr stdout : str) (after : str -> str)
| AgentRaised (e : exn) (after : str -> str).

Inductive DiffOutcome :=
| DiffExit (returncode : Z) (stdout : str)
| DiffRaised (e : exn).

(** [git apply --3way] leaves the file of the repository with [after],
    also when it fails (conflict markers). *)
Inductive ApplyOutcome :=
| ApplyExit (returncode : Z) (after : str)
| ApplyRaised (e : exn).

(** A merge, by the agent or by [git merge], leaves the file of the
    repository with [after]. *)
Inductive MergeOutcome :=
| MergeExit (returncode : Z) (after : str)
| MergeRaised (e : exn).

(** [git rev-parse --show-toplevel], run with [check=True]: the stripped
    output, a non-zero exit status ([CalledProcessError]), or another
    exception (git is not installed, say). *)
Inductive RootOutcome :=
| Root (path : string)
| NotARepository
| RootRaised (e : exn).

(** The run of one cluster's fix attempt. *)
Record ClusterRun := {
  worktree_add : AddOutcome;
  head_content : option str;
  agent : AgentOutcome;
  git_diff : DiffOutcome
}.

(** The run of one file's session.  [git_branch p b] is the exception
    that the commands behind [GitBranch p b] raise, if any (their exit
    statuses are not read); [interrupted] says that a KeyboardInterrupt
    reaches the session while it waits for its agents. *)
Record FileRun := {
  git_root : RootOutcome;
  cluster_run : nat -> ClusterRun;
  git_apply : str -> str -> ApplyOutcome;
  agent_merge : list (IssueCluster * str) -> str -> MergeOutcome;
  git_branch : string -> str -> option exn;
  git_merge : list str -> str -> MergeOutcome;
  interrupted : bool
}.

(** *** The results, which the code keeps in dicts *)

Record FixResult := {
  success : bool;
  cluster : IssueCluster;
  error : option str;
  fixed_content : option str;
  patch : option str;
  worktree_path : option string;
  rel_path : option string
}.

Definition failure (c : IssueCluster) (err : str) : FixResult :=
  {| success := false; cluster := c; error := Some err;
     fixed_content := None; patch := None; worktree_path := None;
     rel_path := None |}.

Record FileResult := {
  file_success : bool;
  file_error : option str;
  file_message : option str;
  predicted : option nat;
  worktrees_used : option nat;
  claude_calls : option nat
}.

Definition file_failure (err message : option str) : FileResult :=
  {| file_success := false; file_error := err; file_message := message;
     predicted := None; worktrees_used := None; claude_calls := None |}.

(** *** The workspace manager *)

(** [_create_worktree_for_cluster].  The path of the new worktree, which
    the code makes of the fingerprint of the cluster and of a fresh
    [uuid4], is given by the run.  [git worktree add --detach] checks out
    [HEAD]: the new worktree holds the file as [HEAD] has it, if [HEAD]
    has it. *)
Definition _create_worktree_for_cluster (run : ClusterRun) : M (option string) :=
  try_except
    (match worktree_add run with
     | AddRaised e => raise e
     | AddFailed => ret None
     | Created worktree_path =>
         emit (WorktreeAdd worktree_path) ;;;
         update_worktree_files
           (match head_content run with
            | Some c => insert worktree_path c
            | None => delete worktree_path
            end) ;;;
         update_self (fun s => set_active (_active_worktrees s ++ [worktree_path]) s) ;;;
         ret (Some worktree_path)
     end)
    (fun _ => ret None).

(** [list.remove(x)]: the first occurrence. *)
Fixpoint list_remove (x : string) (l : list string) : list string :=
  match l with
  | [] => []
  | y :: l' => if decide (y = x) then l' else y :: list_remove x l'
  end.

(** [_cleanup_worktree].  The call [git worktree remove --force], whose
    exit status the code does not read, is taken to return, and the
    directory of the worktree to be gone afterwards (what git leaves of it
    the code removes with [shutil.rmtree]). *)
Definition _cleanup_worktree (worktree_path : string) : M unit :=
  update_self (fun s => set_active (list_remove worktree_path (_active_worktrees s)) s) ;;;
  emit (WorktreeRemove worktree_path) ;;;
  update_worktree_files (delete worktree_path).

(** [_get_git_root] *)
Definition _get_git_root (run : FileRun) : M (option string) :=
  match git_root run with
  | Root path => ret (Some path)
  | NotARepository => ret None
  | RootRaised e => raise e
  end.

(** [cleanup_all_worktrees] *)
Definition cleanup_all_worktrees : M unit :=
  active <- get (fun w => _active_worktrees (self w)) ;;
  for_each active _cleanup_worktree ;;;
  update_self (set_active []).

(** [Path(file_path).relative_to(base_path)], on paths written with
    slashes. *)
Fixpoint strip_prefix (p s : str) : option str :=
  match p, s with
  | [], _ => Some s
  | a :: p', b :: s' => if decide (a = b) then strip_prefix p' s' else None
  | _ :: _, [] => None
  end.

Definition relative_to (file_path base_path : string) : M string :=
  match strip_prefix (lit base_path ++ lit "/") (lit file_path) with
  | Some rest => ret (string_of_list_ascii rest)
  | None => raise (Error (lit "path is not in the subpath of the base"))
  end.

(** *** The executor *)

(** [fix_cluster_with_claude] *)
Definition fix_cluster_with_claude (loc : Location) (c : IssueCluster)
    (run : ClusterRun) : M FixResult :=
  try_except
    (emit (AgentFix loc c) ;;;
     let edit after :=
       present <- exists_at loc ;;
       if present then (old <- read_text loc ;; write_text loc (after old))
       else ret tt in
     match agent run with
     | AgentRaised e after => edit after ;;; raise e
     | AgentExit returncode stderr stdout after =>
         edit after ;;;
         if decide (returncode = 0) then
           fixed <- read_text loc ;;
           ret {| success := true; cluster := c; error := None;
                  fixed_content := Some fixed; patch := None;
                  worktree_path := None; rel_path := None |}
         else
           ret (failure c (if bool_decide (stderr = []) then stdout else stderr))
     end)
    (fun e => ret (failure c (exn_str e))).

(** [fix_cluster_with_worktree] *)
Definition fix_cluster_with_worktree (file_path : string) (c : IssueCluster)
    (base_path : string) (predicted_fixes : list (Issue * str))
    (run : ClusterRun) : M FixResult :=
  created <- _create_worktree_for_cluster run ;;
  match created with
  | None => ret (failure c (lit "Failed to create worktree"))
  | Some worktree_path =>
      try_except
        (rel <- relative_to file_path base_path ;;
         let worktree_file := WorktreeFile worktree_path in
         present <- exists_at worktree_file ;;
         if negb present then
           _cleanup_worktree worktree_path ;;;
           ret (failure c (lit "File not found in worktree: " ++ lit rel))
         else
           worktree_content <- read_text worktree_file ;;
           match last predicted_fixes with
           | Some (_, fixed) => write_text worktree_file fixed
           | None => ret tt
           end ;;;
           result <- fix_cluster_with_claude worktree_file c run ;;
           if success result then
             match git_diff run with
             | DiffRaised e => raise e
             | DiffExit returncode stdout =>
                 ret {| success := success result; cluster := cluster result;
                        error := error result;
                        fixed_content := fixed_content result;
                        patch := Some stdout;
                        worktree_path := Some worktree_path;
                        rel_path := Some rel |}
             end
           else ret result)
        (fun e =>
           _cleanup_worktree worktree_path ;;;
           ret (failure c (exn_str e)))
  end.

(** *** The merge engine *)

(** [_merge_with_claude] *)
Definition _merge_with_claude (run : FileRun) (file_path : string)
    (cluster_results : list FixResult) : M bool :=
  try_except
    (current_content <- read_text (RealFile file_path) ;;
     files <- get worktree_files ;;
     let fixed_versions :=
       omap (fun r =>
               if success r then
                 match worktree_path r with
                 | Some p => match files !! p with
                             | Some content => Some (cluster r, content)
                             | None => None
                             end
                 | None => None
                 end
               else None)
            cluster_results in
     match fixed_versions with
     | [] => ret false
     | _ :: _ =>
         emit (AgentMerge (map fst fixed_versions)) ;;;
         match agent_merge run fixed_versions current_content with
         | MergeRaised e => raise e
         | MergeExit returncode after =>
             write_text (RealFile file_path) after ;;;
             ret (bool_decide (returncode = 0))
         end
     end)
    (fun _ => ret false).

(** The loop of the 'sequential' strategy; [None] is the loop running to
    its end, [Some b] the [return] out of it. *)
Fixpoint apply_patches (run : FileRun) (file_path : string)
    (sorted_results : list FixResult) (todo : list FixResult) : M (option bool) :=
  match todo with
  | [] => ret None
  | result :: todo' =>
      match patch result with
      | Some ((_ :: _) as p) =>
          emit (GitApply ["--3way"; "--whitespace=fix"]%string p) ;;;
          current <- get (fun w => default [] (disk w !! file_path)) ;;
          match git_apply run p current with
          | ApplyRaised e => raise e
          | ApplyExit returncode after =>
              write_text (RealFile file_path) after ;;;
              if decide (returncode = 0) then
                apply_patches run file_path sorted_results todo'
              else
                merged <- _merge_with_claude run file_path sorted_results ;;
                ret (Some merged)
          end
      | _ => apply_patches run file_path sorted_results todo'
      end
  end.

(** The loop of the 'octopus' strategy: the branches made, in order.  A
    result with a patch that lacks the key ['worktree_path'] or the key
    ['rel_path'] raises a [KeyError]. *)
Fixpoint commit_branches (run : FileRun) (todo : list FixResult)
    : M (list str) :=
  match todo with
  | [] => ret []
  | result :: todo' =>
      match patch result with
      | Some (_ :: _) =>
          let branch_name := lit "linter-fix-" ++ fingerprint (cluster result) in
          match worktree_path result with
          | None => raise (Error (lit "'worktree_path'"))
          | Some p =>
              emit (GitBranch p branch_name) ;;;
              match rel_path result with
              | None => raise (Error (lit "'rel_path'"))
              | Some _ =>
                  match git_branch run p branch_name with
                  | Some e => raise e
                  | None =>
                      branches <- commit_branches run todo' ;;
                      ret (branch_name :: branches)
                  end
              end
          end
      | _ => commit_branches run todo'
      end
  end.

(** [_merge_worktree_fixes] *)
Definition _merge_worktree_fixes (run : FileRun) (file_path : string)
    (cluster_results : list FixResult) : M bool :=
  match cluster_results with
  | [] => ret true
  | _ :: _ =>
      let sorted_results :=
        sorted (fun r => start_line (cluster r)) cluster_results in
      strategy <- get (fun w => worktree_merge_strategy (self w)) ;;
      if decide (strategy = lit "claude") then
        _merge_with_claude run file_path sorted_results
      else if decide (strategy = lit "sequential") then
        returned <- apply_patches run file_path sorted_results sorted_results ;;
        match returned with
        | Some b => ret b
        | None => ret true
        end
      else if decide (strategy = lit "octopus") then
        branches_to_merge <- commit_branches run sorted_results ;;
        match branches_to_merge with
        | [] => ret true
        | _ :: _ =>
            emit (GitMerge branches_to_merge) ;;;
            current <- get (fun w => default [] (disk w !! file_path)) ;;
            match git_merge run branches_to_merge current with
            | MergeRaised e => raise e
            | MergeExit returncode after =>
                write_text (RealFile file_path) after ;;;
                ret (bool_decide (returncode = 0))
            end
        end
      else ret true
  end.

(** [_merge_cluster_fixes] *)
Definition _merge_cluster_fixes (original current : str)
    (cluster_fixes : list FixResult) : str :=
  match last cluster_fixes with
  | Some r => default [] (fixed_content r)
  | None => current
  end.

(** *** The session *)

(** [l[:n]] *)
Definition slice_to {A} (n : Z) (l : list A) : list A :=
  if 0 <=? n then take (Z.to_nat n) l
  else take (length l - Z.to_nat (- n)) l.

(** The prediction pass of [_fix_single_file]:
    ([predicted_fixes], [remaining_issues], [file_content]). *)
Definition predict_pass (s : ClaudeCodeFixer) (issues : list Issue)
    (file_content : str) : list (Issue * str) * list Issue * str :=
  fold_left
    (fun '(predicted_fixes, remaining_issues, file_content) issue =>
       match predict_simple_fix s issue file_content with
       | Some ((_ :: _) as fixed) =>
           (predicted_fixes ++ [(issue, fixed)], remaining_issues, fixed)
       | _ => (predicted_fixes, remaining_issues ++ [issue], file_content)
       end)
    issues ([], [], file_content).

(** [with ThreadPoolExecutor(max_workers=n)]: the constructor refuses
    [n <= 0]. *)
Definition thread_pool (n : Z) : M unit :=
  if n <=? 0 then raise (Error (lit "max_workers must be greater than 0"))
  else emit (PoolCreate n).

(** The tasks of a pool, in one schedule: run one after the other in the
    order of their submission.  The code collects the results with
    [as_completed], in the order in which the tasks end; here this is the
    order of submission.  A KeyboardInterrupt that reaches the main thread
    while it waits leaves the block after the tasks have run. *)
Definition run_pool {B} (run : FileRun) (clusters : list IssueCluster)
    (task : IssueCluster -> ClusterRun -> M B) : M (list B) :=
  results <- map_M 0 clusters
               (fun i c => emit (Submit c) ;;; task c (cluster_run run i)) ;;
  if interrupted run then interrupt else ret results.

(** [cleanup_all()], the local function of [_fix_single_file]. *)
Definition cleanup_all (all_worktree_results : list FixResult) : M unit :=
  for_each all_worktree_results
    (fun r => match worktree_path r with
              | Some p => _cleanup_worktree p
              | None => ret tt
              end).

Definition when (b : bool) (m : M unit) : M unit := if b then m else ret tt.

(** The branch of [_fix_single_file] that works in git worktrees, inside
    the pool.  [None] is the early return "Failed to merge worktree
    fixes"; otherwise the content to write and the number of successful
    worktree fixes. *)
Definition worktree_branch (run : FileRun) (s : ClaudeCodeFixer)
    (file_path base : string) (predicted_fixes : list (Issue * str))
    (clusters : list IssueCluster) (file_content : str)
    : M (option (str * nat)) :=
  relative_to file_path base ;;;
  all_worktree_results <-
    run_pool run (slice_to (max_worktrees s) clusters)
      (fun c => fix_cluster_with_worktree file_path c base predicted_fixes) ;;
  let cluster_results := filter success all_worktree_results in
  match cluster_results with
  | _ :: _ =>
      merge_success <- _merge_worktree_fixes run file_path cluster_results ;;
      when (cleanup_worktrees s) (cleanup_all all_worktree_results) ;;;
      if merge_success then
        content <- read_text (RealFile file_path) ;;
        ret (Some (content, length cluster_results))
      else
        when (cleanup_worktrees s) (cleanup_all all_worktree_results) ;;;
        ret None
  | [] =>
      when (cleanup_worktrees s) (cleanup_all all_worktree_results) ;;;
      ret (Some (file_content, 0%nat))
  end.

(** The branch that lets every agent work on the real file ("original
    in-memory approach"), inside the pool. *)
Definition in_memory_branch (run : FileRun) (file_path : string)
    (clusters : list IssueCluster) (original_content file_content : str)
    : M (option (str * nat)) :=
  results <-
    run_pool run clusters
      (fun c => fix_cluster_with_claude (RealFile file_path) c) ;;
  let cluster_fixes := filter success results in
  match cluster_fixes with
  | _ :: _ =>
      ret (Some (_merge_cluster_fixes original_content file_content
                   cluster_fixes, 0%nat))
  | [] => ret (Some (file_content, 0%nat))
  end.

(** [self.use_git_worktrees and git_root]: the root under which the
    session works in worktrees, if it does. *)
Definition worktree_base (s : ClaudeCodeFixer) (git_root : option string)
    : option string :=
  if use_git_worktrees s then
    match git_root with
    | Some base => if bool_decide (base <> ""%string) then Some base else None
    | None => None
    end
  else None.

(** "Write final result": the end of [_fix_single_file]. *)
Definition write_result (file_path : string) (issues : list Issue)
    (predicted_fixes : list (Issue * str)) (clusters : list IssueCluster)
    (in_worktrees : bool) (original_content : str)
    (merged : option (str * nat)) : M FileResult :=
  match merged with
  | None =>
      ret (file_failure (Some (lit "Failed to merge worktree fixes")) None)
  | Some (file_content, worktree_fixes) =>
      if bool_decide (file_content <> original_content) then
        write_text (RealFile file_path) file_content ;;;
        ret {| file_success := true; file_error := None;
               file_message :=
                 Some (lit "Fixed " ++ str_of_int (Z.of_nat (length issues))
                       ++ lit " issues with "
                       ++ str_of_int (Z.of_nat (length predicted_fixes))
                       ++ lit " predictions and "
                       ++ if in_worktrees
                          then str_of_int (Z.of_nat worktree_fixes)
                               ++ lit " worktree fixes"
                          else str_of_int (Z.of_nat (length clusters))
                               ++ lit " Claude calls");
               predicted := Some (length predicted_fixes);
               worktrees_used :=
                 if in_worktrees then Some worktree_fixes else None;
               claude_calls :=
                 Some (if in_worktrees then worktree_fixes
                       else length clusters) |}
      else ret (file_failure None (Some (lit "No changes made")))
  end.

(** The [try] block of [_fix_single_file]. *)
Definition fix_single_file_body (run : FileRun) (s : ClaudeCodeFixer)
    (file_path : string) (issues : list Issue) : M FileResult :=
  original_content <- read_text (RealFile file_path) ;;
  let '(predicted_fixes, remaining_issues, file_content) :=
    predict_pass s issues original_content in
  match remaining_issues with
  | [] =>
      write_result file_path issues predicted_fixes [] false
        original_content (Some (file_content, 0%nat))
  | _ :: _ =>
      let clusters := cluster_issues s remaining_issues in
      git_root <- (if use_git_worktrees s then _get_git_root run
                   else ret None) ;;
      merged <-
        (thread_pool (Z.min (max_workers s) (Z.of_nat (length clusters))) ;;;
         match worktree_base s git_root with
         | Some base =>
             worktree_branch run s file_path base predicted_fixes clusters
               file_content
         | None =>
             in_memory_branch run file_path clusters original_content
               file_content
         end) ;;
      write_result file_path issues predicted_fixes clusters
        (bool_decide (is_Some (worktree_base s git_root))) original_content
        merged
  end.

(** [_fix_single_file] *)
Definition _fix_single_file (run : FileRun) (file_path : string)
    (issues : list Issue) : M FileResult :=
  s <- get self ;;
  let attempts := default 0 (_fix_attempts s !! file_path) + 1 in
  update_self (set_attempts (<[file_path := attempts]> (_fix_attempts s))) ;;;
  if max_fix_attempts s <? attempts then
    ret (file_failure
           (Some (lit "Max fix attempts (" ++ str_of_int (max_fix_attempts s)
                  ++ lit ") exceeded"))
           (Some (lit "Unable to fix all issues after multiple attempts")))
  else
    try_except (fix_single_file_body run s file_path issues)
               (fun e => ret (file_failure (Some (exn_str e)) None)).

(** [batch_fix_files]: one run per file, in the order of the files. *)
Definition batch_fix_files (runs : nat -> FileRun)
    (file_issues : list (string * list Issue)) : M (list (string * FileResult)) :=
  try_finally
    (map_M 0 file_issues
       (fun i '(file_path, issues) =>
          result <- _fix_single_file (runs i) file_path issues ;;
          ret (file_path, result)))
    (s <- get self ;;
     when (cleanup_worktrees s) cleanup_all_worktrees).

(** A world in which nothing has happened yet. *)
Definition initial_world (s : ClaudeCodeFixer) (files : gmap string str) : World :=
  {| self := s; disk := files; worktree_files := ∅; trace := [] |}.

End Session.

(** ** auto_fix.py: the auto-fixer and its backups *)
Module AutoFix.
Import PyStr.
Local Open Scope string_scope.

(** How [subprocess.run(fix_cmd + [file_path], timeout=30)] ends: it
    returns, it raises [TimeoutExpired], or it raises another exception
    (the program is missing, for one). *)
Inductive CmdOutcome :=
| Completed (returncode : Z)
| TimedOut
| Failed (msg : str).

(** The fix command is any program: it may change any file. *)
Definition Command : Type := gmap string str -> CmdOutcome * gmap string str.

Record AutoFixer := {
  backup_dir : string
}.

(** The dict that [run_auto_fix] returns; a key that a return leaves out
    is [None]. *)
Record Result := {
  fixed : bool;
  message : str;
  diff : option str;
  backup : option (option string);
  returncode : option Z;
  error : option str
}.

(** [Path(p).name]: the last component of the path. *)
Definition path_name (p : string) : string :=
  string_of_list_ascii (default [] (last (split "/"%char (lit p)))).

(** [shutil.copy2(src, dst)], once [src] is known to exist. *)
Definition copy2 (src dst : string) (files : gmap string str) : gmap string str :=
  match files !! src with
  | Some content => <[dst := content]> files
  | None => files
  end.

(** [create_backup].  [timestamp] is [int(time.time() * 1000)];
    [copy_fails] says that the copy raises, in which case no backup is
    made. *)
Definition create_backup (self : AutoFixer) (file_path : string)
    (timestamp : Z) (copy_fails : bool) (files : gmap string str)
    : option string * gmap string str :=
  match files !! file_path with
  | None => (None, files)
  | Some _ =>
      let backup_name :=
        path_name file_path ++ "."
        ++ string_of_list_ascii (str_of_int timestamp) ++ ".bak" in
      let backup_path := backup_dir self ++ "/" ++ backup_name in
      if copy_fails then (None, files)
      else (Some backup_path, copy2 file_path backup_path files)
  end.

(** How a call of [run_auto_fix] ends: it returns its dict, or it lets an
    exception out. *)
Inductive RunOutcome :=
| Returns (r : Result)
| Raises.

(** [if backup_path and backup_path.exists(): shutil.copy2(backup_path,
    file_path)], in the two [except] blocks.  [restore_fails] says that
    this copy raises; the files are then taken to be left as they are.
    [None] is the exception. *)
Definition restore_from (backup_path : option string) (file_path : string)
    (restore_fails : bool) (files : gmap string str)
    : option (gmap string str) :=
  match backup_path with
  | Some b =>
      match files !! b with
      | Some _ =>
          if restore_fails then None else Some (copy2 b file_path files)
      | None => Some files
      end
  | None => Some files
  end.

Section RunAutoFix.
(** [difflib.unified_diff], joined into one text. *)
Context (unified_diff : string -> str -> str -> str).

(** [run_auto_fix].  An exception raised inside an [except] block leaves
    the function. *)
Definition run_auto_fix (self : AutoFixer) (file_path linter : string)
    (fix_cmd : Command) (timestamp : Z) (copy_fails restore_fails : bool)
    (files : gmap string str) : RunOutcome * gmap string str :=
  let '(backup_path, files) :=
    create_backup self file_path timestamp copy_fails files in
  let handler result files :=
    match restore_from backup_path file_path restore_fails files with
    | Some restored => (Returns result, restored)
    | None => (Raises, files)
    end in
  let on_timeout :=
    handler {| fixed := false; message := lit "Auto-fix timed out";
               diff := None; backup := None; returncode := None;
               error := Some (lit "Timeout after 30 seconds") |} in
  let on_exception msg :=
    handler {| fixed := false; message := lit "Auto-fix failed"; diff := None;
               backup := None; returncode := None; error := Some msg |} in
  match files !! file_path with
  | None => on_exception (lit "No such file or directory") files
  | Some original_content =>
      match fix_cmd files with
      | (TimedOut, files) => on_timeout files
      | (Failed msg, files) => on_exception msg files
      | (Completed rc, files) =>
          match files !! file_path with
          | None => on_exception (lit "No such file or directory") files
          | Some fixed_content =>
              if decide (original_content = fixed_content) then
                (Returns
                   {| fixed := false; message := lit "No fixes applied";
                      diff := None; backup := Some backup_path;
                      returncode := None; error := None |}, files)
              else
                (Returns
                   {| fixed := true;
                      message := lit "Auto-fixed " ++ lit file_path
                                 ++ lit " with " ++ lit linter;
                      diff := Some (unified_diff file_path original_content
                                      fixed_content);
                      backup := Some backup_path;
                      returncode := Some rc; error := None |}, files)
          end
      end
  end%list.

End RunAutoFix.

End AutoFix.

(** ** The values that [json.load] gives, and what Python does with them *)
Module Json.
Import PyStr.

(** A decoded JSON text.  Numbers are the integers; a dict is read by key
    only, so the order of its keys is not kept. *)
#[warnings="-register-all"]
Inductive json :=
| JNull
| JBool (b : bool)
| JInt (n : Z)
| JStr (s : str)
| JList (l : list json)
| JDict (d : gmap string json).

(** The exceptions that the operations below raise. *)
Inductive py_error :=
| AttributeError
| IndexError
| KeyError
| OSError
| TypeError.

Inductive result (A : Type) :=
| Ok (a : A)
| Err (e : py_error).
Arguments Ok {A} a.
Arguments Err {A} e.

(** [bool(v)] *)
Definition truthy (v : json) : bool :=
  match v with
  | JNull => false
  | JBool b => b
  | JInt n => negb (n =? 0)
  | JStr s => match s with [] => false | _ :: _ => true end
  | JList l => match l with [] => false | _ :: _ => true end
  | JDict d => negb (bool_decide (dom d = (∅ : gset string)))
  end.

(** [v.get(key, default)]: only a dict has [get]. *)
Definition py_get (v : json) (key : string) (dflt : json) : result json :=
  match v with
  | JDict d => Ok (default dflt (d !! key))
  | _ => Err AttributeError
  end.

(** [key in v] for a string [key]: a key of a dict, an element of a list,
    a substring of a string; the other values are not containers. *)
Definition py_in (key : string) (v : json) : result bool :=
  match v with
  | JDict d => Ok (bool_decide (is_Some (d !! key)))
  | JList l =>
      Ok (existsb (fun x => match x with
                            | JStr s => bool_decide (s = lit key)
                            | _ => false
                            end) l)
  | JStr s => Ok (contains (lit key) s)
  | _ => Err TypeError
  end.

(** [v[key]] for a string [key]: a list and a string take integer
    indices only. *)
Definition py_item (v : json) (key : string) : result json :=
  match v with
  | JDict d => match d !! key with
               | Some x => Ok x
               | None => Err KeyError
               end
  | _ => Err TypeError
  end.

(** [n > v] for an int [n]: [v] must be a number ([True] is 1). *)
Definition py_int_gt (n : Z) (v : json) : result bool :=
  match v with
  | JInt m => Ok (m <? n)
  | JBool b => Ok ((if b then 1 else 0) <? n)
  | _ => Err TypeError
  end.

End Json.

(** ** auto_fix.py: the policy, the restore and the fix commands *)
Module AutoFixPolicy.
Import PyStr Json AutoFix.
Local Open Scope string_scope.

(** [restore_backup]: [copy_fails] says that the copy raises, in which
    case the answer is [False]. *)
Definition restore_backup (backup_path original_path : string)
    (copy_fails : bool) (files : gmap string str) : bool * gmap string str :=
  match files !! backup_path with
  | Some _ =>
      if copy_fails then (false, files)
      else (true, copy2 backup_path original_path files)
  | None => (false, files)
  end.

(** [sum(1 for issue in issues if issue.get('fixable', True))] *)
Definition fixable (issue : gmap string json) : bool :=
  truthy (default (JBool true) (issue !! "fixable")).

Definition fixable_count (issues : list (gmap string json)) : nat :=
  length (filter (fun issue => fixable issue = true) issues).

(** [should_auto_fix] *)
Definition should_auto_fix (config : gmap string json) (linter : string)
    (issues : list (gmap string json)) : result bool :=
  let auto_fix := default (JDict ∅) (config !! "auto_fix") in
  match py_get auto_fix "enabled" (JBool true) with
  | Err e => Err e
  | Ok enabled =>
      if negb (truthy enabled) then Ok false
      else
        match py_get auto_fix "linters" (JDict ∅) with
        | Err e => Err e
        | Ok linter_config =>
            match py_in linter linter_config with
            | Err e => Err e
            | Ok known =>
                match (if known then py_item linter_config linter
                       else Ok (JBool true)) with
                | Err e => Err e
                | Ok setting =>
                    if known && negb (truthy setting) then Ok false
                    else if bool_decide (fixable_count issues = 0%nat)
                    then Ok false
                    else
                      match py_get auto_fix "threshold" (JInt 10) with
                      | Err e => Err e
                      | Ok threshold =>
                          match py_int_gt (Z.of_nat (length issues)) threshold with
                          | Err e => Err e
                          | Ok true => Ok false
                          | Ok false => Ok true
                          end
                      end
                end
            end
        end
  end.

(** An entry of the table [LINTERS] of quality-hook.py; [fix_commands] is
    [None] where the entry has no such key. *)
Record LinterConfig := {
  primary : string;
  fallback : list string;
  auto_fix : bool;
  commands : list (string * list string);
  fix_commands : option (list (string * list string))
}.

(** [d.get(key)] on a dict written as a literal. *)
Fixpoint lookup_literal {V} (key : string) (d : list (string * V)) : option V :=
  match d with
  | [] => None
  | (k, v) :: rest =>
      match lookup_literal key rest with
      | Some v' => Some v'
      | None => if decide (k = key) then Some v else None
      end
  end.

(** [get_fix_command] *)
Definition get_fix_command (linter : string) (linter_config : LinterConfig)
    : option (list string) :=
  lookup_literal linter (default [] (fix_commands linter_config)).

End AutoFixPolicy.

(** ** claude_code_fixer.py: the gate and the context of an issue *)
Module FixerGate.
Import PyStr Fixer.
Local Open Scope string_scope.

(** How [claude --version] ends: with an exit status, or with one of the
    exceptions that [_is_claude_code_available] catches (a timeout, a
    missing program, another [OSError]). *)
Inductive VersionOutcome :=
| VersionExit (returncode : Z)
| VersionFailed.

(** [_is_claude_code_available] *)
Definition _is_claude_code_available (version : VersionOutcome) : bool :=
  match version with
  | VersionExit returncode => bool_decide (returncode = 0)
  | VersionFailed => false
  end.

Definition complex_patterns : list string :=
  [ "undefined"; "importerror"; "modulenotfounderror";
    "typeerror"; "nameerror"; "syntax"; "type-error";
    "reportgeneraltypeissues"; "reportargumenttype"; "reportassignmenttype";
    "reportreturntype"; "reportindexissue"; "reportoptionalmemberaccess";
    "reportmissingtypeargument"; "reportpossiblyunboundvariable";
    "reportconstantredefinition"; "reportcallissue";
    "reportattributeaccessissue";
    "reportunknownparametertype"; "reportunknownmembertype" ].

(** The body of the loop over the issues: some pattern is in the message
    or in the rule. *)
Definition is_complex (issue : Issue) : bool :=
  let message := lower (get_message issue) in
  let rule := lower (get_rule issue) in
  existsb (fun pattern => contains (lit pattern) message
                          || contains (lit pattern) rule)
          complex_patterns.

(** [should_use_claude] *)
Definition should_use_claude (self : ClaudeCodeFixer) (version : VersionOutcome)
    (issues : list Issue) (auto_fix_failed : bool) : bool :=
  if negb (enabled self) then false
  else if negb (_is_claude_code_available version) then false
  else if auto_fix_failed then true
  else existsb is_complex issues.

(** [l[start:stop]] *)
Definition py_slice {A} (l : list A) (start stop : Z) : list A :=
  let len := Z.of_nat (length l) in
  let clamp (i : Z) : Z :=
    if (i <? 0)%Z then Z.max 0 (i + len) else Z.min i len in
  take (Z.to_nat (clamp stop - clamp start)) (drop (Z.to_nat (clamp start)) l).

(** [_extract_context] *)
Definition _extract_context (content : str) (start_line end_line : Z)
    (context_lines : Z) : str :=
  let lines := split newline content in
  let start := Z.max 0 (start_line - context_lines - 1) in
  let end_ := Z.min (Z.of_nat (length lines)) (end_line + context_lines) in
  join [newline] (py_slice lines start end_).

(** [create_minimal_patch]: what [git diff --no-index --minimal] prints for
    the two texts. *)
Definition create_minimal_patch (git_diff : str -> str -> str)
    (original fixed : str) : str :=
  git_diff original fixed.

(** [apply_patch_in_memory] *)
Definition apply_patch_in_memory (content patch : str) : str := patch.

End FixerGate.

(** ** quality-hook.py: the linters, their output and the verdict *)
Module Hook.
Import PyStr Json AutoFixPolicy.
Local Open Scope string_scope.

(** *** The tables *)

(** [LINTERS] *)
Definition LINTERS : list (string * LinterConfig) :=
  [ (".py",
     {| primary := "ruff";
        fallback := ["pyright"; "flake8"; "pylint"; "pycodestyle"];
        auto_fix := true;
        commands :=
          [ ("ruff", ["ruff"; "check"; "--output-format=json"]);
            ("pyright", ["pyright"; "--outputjson"]);
            ("flake8", ["flake8"; "--format=json"]);
            ("pylint", ["pylint"; "--output-format=json"]);
            ("pycodestyle",
             ["pycodestyle";
              "--format=%(path)s:%(row)d:%(col)d: %(code)s %(text)s"]) ];
        fix_commands :=
          Some [ ("ruff", ["ruff"; "check"; "--fix"; "--output-format=json"]) ] |});
    (".js",
     {| primary := "eslint";
        fallback := ["jshint"; "standard"];
        auto_fix := true;
        commands :=
          [ ("eslint", ["eslint"; "--format=json"]);
            ("jshint", ["jshint"; "--reporter=unix"]);
            ("standard", ["standard"; "--verbose"]) ];
        fix_commands := Some [ ("eslint", ["eslint"; "--fix"; "--format=json"]) ] |});
    (".jsx",
     {| primary := "eslint";
        fallback := ["jshint"];
        auto_fix := true;
        commands :=
          [ ("eslint", ["eslint"; "--format=json"]);
            ("jshint", ["jshint"; "--reporter=unix"]) ];
        fix_commands := Some [ ("eslint", ["eslint"; "--fix"; "--format=json"]) ] |});
    (".ts",
     {| primary := "eslint";
        fallback := ["tslint"];
        auto_fix := true;
        commands :=
          [ ("eslint", ["eslint"; "--format=json"]);
            ("tslint", ["tslint"; "--format=json"]) ];
        fix_commands := Some [ ("eslint", ["eslint"; "--fix"; "--format=json"]) ] |});
    (".tsx",
     {| primary := "eslint";
        fallback := ["tslint"];
        auto_fix := true;
        commands :=
          [ ("eslint", ["eslint"; "--format=json"]);
            ("tslint", ["tslint"; "--format=json"]) ];
        fix_commands := Some [ ("eslint", ["eslint"; "--fix"; "--format=json"]) ] |});
    (".go",
     {| primary := "golangci-lint";
        fallback := ["go vet"; "gofmt"];
        auto_fix := false;
        commands :=
          [ ("golangci-lint", ["golangci-lint"; "run"; "--out-format=json"]);
            ("go vet", ["go"; "vet"]);
            ("gofmt", ["gofmt"; "-l"]) ];
        fix_commands := None |});
    (".rs",
     {| primary := "cargo clippy";
        fallback := ["rustfmt"];
        auto_fix := true;
        commands :=
          [ ("cargo clippy", ["cargo"; "clippy"; "--message-format=json"]);
            ("rustfmt", ["rustfmt"; "--check"]) ];
        fix_commands := Some [ ("rustfmt", ["rustfmt"]) ] |}) ].

(** [BLOCKING_PATTERNS], a set: the order plays no part. *)
Definition BLOCKING_PATTERNS : list string :=
  [ "syntax_error"; "SyntaxError"; "ParseError"; "CompileError";
    "ImportError"; "ModuleNotFoundError"; "undefined"; "ReferenceError";
    "TypeError"; "NameError"; "security"; "sql-injection"; "xss";
    "reportGeneralTypeIssues"; "reportArgumentType"; "reportAssignmentType";
    "reportReturnType"; "reportIndexIssue"; "reportOptionalMemberAccess";
    "reportMissingTypeArgument"; "reportPossiblyUnboundVariable";
    "reportConstantRedefinition"; "reportCallIssue";
    "reportAttributeAccessIssue";
    "reportUnknownParameterType"; "reportUnknownMemberType" ].

(** The linters whose output is read as JSON. *)
Definition json_linters : list string :=
  ["ruff"; "eslint"; "tslint"; "pylint"; "pyright"].

Local Close Scope string_scope.

(** *** Issues and results *)

(** The dict that [parse_linter_output] makes for an issue: the five keys
    are always there, their values are what the linter printed.  The key
    ['file'], which [format_output] sets, is kept beside the issue there. *)
Record HookIssue := {
  line : json;
  column : json;
  severity : json;
  message : json;
  rule : json
}.

(** The dict that [lint_file] returns; the result for a file without a
    linter has no key ['file']. *)
Record LintResult := {
  success : bool;
  issues : list HookIssue;
  linter : option string;
  file : option string
}.

(** [v.lower()] for a value read from an issue: only a string has it. *)
Definition py_lower (v : json) : result str :=
  match v with
  | JStr s => Ok (lower s)
  | _ => Err AttributeError
  end.

(** [is_blocking_issue] *)
Definition is_blocking_issue (issue : HookIssue) : result bool :=
  match py_lower (message issue) with
  | Err e => Err e
  | Ok message =>
      match py_lower (rule issue) with
      | Err e => Err e
      | Ok rule =>
          if existsb (fun pattern => contains (lower (lit pattern)) message
                                     || contains (lower (lit pattern)) rule)
                     BLOCKING_PATTERNS
          then Ok true
          else Ok (match severity issue with
                   | JStr s => bool_decide (s = lit "error")
                   | _ => false
                   end)
      end
  end.

(** *** Reading the output of a linter *)

(** A loop that appends issues and that an exception may leave: the
    issues appended so far, and the exception if there was one. *)
Fixpoint for_issues {A} (l : list A)
    (body : A -> list HookIssue * option py_error)
    : list HookIssue * option py_error :=
  match l with
  | [] => ([], None)
  | x :: l' =>
      match body x with
      | (found, Some e) => (found, Some e)
      | (found, None) =>
          let '(more, err) := for_issues l' body in (found ++ more, err)
      end
  end.

(** [for x in v]: the elements of a list, the characters of a string, the
    keys of a dict (strings, in an order that plays no part here); the
    other values cannot be iterated. *)
Definition py_iter (v : json) : result (list json) :=
  match v with
  | JList l => Ok l
  | JStr s => Ok (map (fun c => JStr [c]) s)
  | JDict d => Ok (map (fun kv => JStr (lit kv.1)) (map_to_list d))
  | _ => Err TypeError
  end.

(** [v + 1] *)
Definition py_add_one (v : json) : result json :=
  match v with
  | JInt n => Ok (JInt (n + 1))
  | JBool b => Ok (JInt ((if b then 1 else 0) + 1))
  | _ => Err TypeError
  end.

(** [severity_map.get(v, 'error')]: a list and a dict cannot be keys. *)
Definition severity_of (v : json) : result json :=
  match v with
  | JList _ | JDict _ => Err TypeError
  | JStr s =>
      if bool_decide (s = lit "error") then Ok (JStr (lit "error"))
      else if bool_decide (s = lit "warning") then Ok (JStr (lit "warning"))
      else if bool_decide (s = lit "information") then Ok (JStr (lit "warning"))
      else if bool_decide (s = lit "hint") then Ok (JStr (lit "warning"))
      else Ok (JStr (lit "error"))
  | _ => Ok (JStr (lit "error"))
  end.

(** One step of a body that ends the loop with the exception, if any. *)
Definition raising (r : result (list HookIssue)) : list HookIssue * option py_error :=
  match r with
  | Ok found => (found, None)
  | Err e => ([], Some e)
  end.

Definition and_then {A B} (r : result A) (k : A -> result B) : result B :=
  match r with
  | Ok a => k a
  | Err e => Err e
  end.

(** The body of the loop over the issues in the format of Ruff. *)
Definition ruff_issue (issue : json) : result (list HookIssue) :=
  and_then (py_get issue "code" (JStr [])) (fun code =>
  and_then (py_get issue "location" (JDict ∅)) (fun location =>
  and_then (py_get location "row" (JInt 0)) (fun row =>
  and_then (py_get location "column" (JInt 0)) (fun col =>
  and_then (py_get issue "message" (JStr [])) (fun msg =>
  Ok [ {| line := row; column := col; severity := JStr (lit "error");
          message := msg; rule := code |} ]))))).

(** The body of the inner loop in the format of ESLint. *)
Definition eslint_message (msg : json) : result (list HookIssue) :=
  and_then (py_get msg "line" (JInt 0)) (fun row =>
  and_then (py_get msg "column" (JInt 0)) (fun col =>
  and_then (py_get msg "severity" (JStr (lit "error"))) (fun sev =>
  and_then (py_get msg "message" (JStr [])) (fun text =>
  and_then (py_get msg "ruleId" (JStr [])) (fun rule_id =>
  Ok [ {| line := row; column := col; severity := sev;
          message := text; rule := rule_id |} ]))))).

Definition eslint_file (file_data : json) : list HookIssue * option py_error :=
  match py_get file_data "messages" (JList []) with
  | Err e => ([], Some e)
  | Ok messages =>
      match py_iter messages with
      | Err e => ([], Some e)
      | Ok l => for_issues l (fun msg => raising (eslint_message msg))
      end
  end.

(** The body of the loop in the format of Pyright. *)
Definition pyright_diagnostic (diag : json) : result (list HookIssue) :=
  and_then (py_get diag "range" (JDict ∅)) (fun range_data =>
  if truthy range_data then
    and_then (py_get range_data "start" (JDict ∅)) (fun start_data =>
    if truthy start_data then
      and_then (py_get start_data "line" (JInt 0)) (fun row =>
      and_then (py_add_one row) (fun row1 =>
      and_then (py_get start_data "character" (JInt 0)) (fun col =>
      and_then (py_add_one col) (fun col1 =>
      and_then (py_get diag "severity" (JStr (lit "error"))) (fun sev =>
      and_then (severity_of sev) (fun sev' =>
      and_then (py_get diag "message" (JStr [])) (fun text =>
      and_then (py_get diag "rule" (JStr [])) (fun rule_name =>
      Ok [ {| line := row1; column := col1; severity := sev';
              message := text; rule := rule_name |} ]))))))))
    else Ok [])
  else Ok []).

(** The body of the loop in the old format of Ruff. *)
Definition old_ruff_issue (issue : json) : result (list HookIssue) :=
  and_then (py_get issue "location" (JDict ∅)) (fun location =>
  if truthy location then
    and_then (py_get issue "code" (JStr [])) (fun code =>
    if truthy code then
      and_then (py_get location "row" (JInt 0)) (fun row =>
      and_then (py_get location "column" (JInt 0)) (fun col =>
      and_then (match code with
                | JStr s =>
                    Ok (JStr (if startswith s (lit "E")
                              then lit "error" else lit "warning"))
                | _ => Err AttributeError
                end) (fun sev =>
      and_then (py_get issue "message" (JStr [])) (fun text =>
      Ok [ {| line := row; column := col; severity := sev;
              message := text; rule := code |} ]))))
    else Ok [])
  else Ok []).

(** What the [try] block does with decoded data. *)
Definition issues_of_data (data : json) : list HookIssue * option py_error :=
  match data with
  | JNull | JBool _ | JInt _ => ([], Some TypeError)
  | JList l =>
      match l with
      | first :: _ =>
          match py_in "location" first with
          | Err e => ([], Some e)
          | Ok true => for_issues l (fun issue => raising (ruff_issue issue))
          | Ok false => for_issues l eslint_file
          end
      | [] => for_issues l eslint_file
      end
  | JStr _ | JDict _ =>
      match py_in "generalDiagnostics" data with
      | Err e => ([], Some e)
      | Ok true =>
          match and_then (py_get data "generalDiagnostics" (JList [])) py_iter with
          | Err e => ([], Some e)
          | Ok l => for_issues l (fun diag => raising (pyright_diagnostic diag))
          end
      | Ok false =>
          match and_then (py_get data "issues" (JList [])) py_iter with
          | Err e => ([], Some e)
          | Ok l => for_issues l (fun issue => raising (old_ruff_issue issue))
          end
      end
  end.

Section Parse.
(** [json.loads]: [None] stands for the exception it raises on a text that
    is not JSON.  [int]: [None] stands for [ValueError]. *)
Context (json_loads : str -> option json).
Context (py_int : str -> option Z).

(** One line of a linter that prints text. *)
Definition text_issue (l : str) : list HookIssue :=
  let parts := split ":"%char l in
  if contains (lit ":") l && (4 <=? Z.of_nat (length parts))%Z then
    match py_int (default [] (parts !! 1%nat)) with
    | None => []
    | Some row =>
        match py_int (default [] (parts !! 2%nat)) with
        | None => []
        | Some col =>
            [ {| line := JInt row; column := JInt col;
                 severity := JStr (lit "error");
                 message := JStr (strip (join (lit ":") (drop 3 parts)));
                 rule := JStr [] |} ]
        end
    end
  else [].

(** The issue that stands for output that could not be read. *)
Definition fallback_issue (output stderr : str) : list HookIssue :=
  if bool_decide (strip output <> []) || bool_decide (strip stderr <> []) then
    [ {| line := JInt 0; column := JInt 0; severity := JStr (lit "error");
         message := JStr (if bool_decide (strip output <> [])
                          then strip output else strip stderr);
         rule := JStr [] |} ]
  else [].

(** [parse_linter_output] *)
Definition parse_linter_output (linter : string) (output stderr : str)
    : list HookIssue :=
  if bool_decide (linter ∈ json_linters) then
    if bool_decide (strip output <> []) then
      match json_loads output with
      | None => fallback_issue output stderr
      | Some data =>
          match issues_of_data data with
          | (found, None) => found
          | (found, Some _) => found ++ fallback_issue output stderr
          end
      end
    else []
  else flat_map text_issue (split Fixer.newline output).

End Parse.

(** *** The paths named by a tool call *)

(** [a == b] for two values that can be members of a set; [True] is 1
    and [False] is 0. *)
Definition py_eq_scalar (a b : json) : bool :=
  match a, b with
  | JNull, JNull => true
  | JStr s, JStr t => bool_decide (s = t)
  | (JInt _ | JBool _), (JInt _ | JBool _) =>
      let num v := match v with
                   | JInt n => n
                   | JBool true => 1
                   | _ => 0
                   end in
      num a =? num b
  | _, _ => false
  end.

(** [list(set(paths))]: one of each, in an order that Python does not
    fix (here that of the first occurrences); a list or a dict cannot be
    a member of a set. *)
Fixpoint py_unique (paths : list json) : result (list json) :=
  match paths with
  | [] => Ok []
  | p :: rest =>
      match p with
      | JList _ | JDict _ => Err TypeError
      | _ =>
          and_then (py_unique rest) (fun others =>
          Ok (p :: filter (fun q => py_eq_scalar p q = false) others))
      end
  end.

(** [extract_file_paths] *)
Definition extract_file_paths (tool_input : gmap string json)
    : result (list json) :=
  let standard :=
    match tool_input !! "file_path"%string with
    | Some p => [p]
    | None => match tool_input !! "filePath"%string with
              | Some p => [p]
              | None => []
              end
    end in
  let edits :=
    match tool_input !! "edits"%string with
    | Some (JList l) =>
        omap (fun edit => match edit with
                          | JDict d => d !! "file_path"%string
                          | _ => None
                          end) l
    | _ => []
    end in
  let notebook :=
    match tool_input !! "notebook_path"%string with
    | Some p => [p]
    | None => []
    end in
  py_unique (standard ++ edits ++ notebook).

(** *** Running the linters on a file *)

(** How [which cmd] ends: with status 0, with another status (the
    [CalledProcessError] that [get_linter_availability] catches), or with
    an exception that it does not catch. *)
Inductive WhichOutcome :=
| WhichFound
| WhichMissing
| WhichRaised.

(** [linter_name.split()[0]]: the first word; [None] is the [IndexError]
    of a name without a word. *)
Fixpoint word (s : str) : str :=
  match s with
  | c :: s' => if is_space c then [] else c :: word s'
  | [] => []
  end.

Definition first_word (name : string) : option string :=
  match word (lstrip (lit name)) with
  | [] => None
  | (_ :: _) as w => Some (string_of_list_ascii w)
  end.

(** How a linter process ends. *)
Inductive ProcOutcome :=
| ProcExit (returncode : Z) (stdout stderr : str)
| ProcTimeout
| ProcRaised (msg : str).

Section Lint.
Context (json_loads : str -> option json).
Context (py_int : str -> option Z).
(** [Path(file_path).suffix] *)
Context (suffix : string -> string).
Context (which : string -> WhichOutcome).
(** The process started for a command line. *)
Context (process : list string -> ProcOutcome).

(** [get_linter_availability] *)
Definition get_linter_availability (linter_name : string) : result bool :=
  match first_word linter_name with
  | None => Err IndexError
  | Some cmd =>
      match which cmd with
      | WhichFound => Ok true
      | WhichMissing => Ok false
      | WhichRaised => Err OSError
      end
  end.

(** [run_linter_with_timeout] *)
Definition run_linter_with_timeout (cmd : list string) (file_path : string)
    : Z * str * str :=
  match process (cmd ++ [file_path]) with
  | ProcExit returncode stdout stderr => (returncode, stdout, stderr)
  | ProcTimeout => (-1, [], lit "Linter timeout")
  | ProcRaised msg => (-1, [], msg)
  end.

(** What [lint_file] does with one linter: [None] when the linter is
    not there, has no command, or did not run to its end. *)
Definition run_one (linter_config : LinterConfig) (name file_path : string)
    : result (option (list HookIssue)) :=
  and_then (get_linter_availability name) (fun available =>
  if available then
    match default [] (lookup_literal name (commands linter_config)) with
    | [] => Ok None
    | (_ :: _) as cmd =>
        let '(returncode, stdout, stderr) :=
          run_linter_with_timeout cmd file_path in
        if bool_decide (returncode <> -1) then
          Ok (Some (parse_linter_output json_loads py_int name stdout stderr))
        else Ok None
    end
  else Ok None).

(** The loop over the fallbacks: the first one that runs to its end. *)
Fixpoint run_fallbacks (linter_config : LinterConfig) (names : list string)
    (file_path : string) : result (list HookIssue * list string) :=
  match names with
  | [] => Ok ([], [])
  | name :: rest =>
      and_then (run_one linter_config name file_path) (fun ran =>
      match ran with
      | Some found => Ok (found, [name])
      | None => run_fallbacks linter_config rest file_path
      end)
  end.

(** The linters that [lint_file] runs for a file with a known extension:
    ([all_issues], [linters_used]). *)
Definition run_linters (ext : string) (linter_config : LinterConfig)
    (config : gmap string json) (file_path : string)
    : result (list HookIssue * list string) :=
  and_then (py_get (default (JDict ∅) (config !! "type_checking"%string))
                   "enabled" (JBool true)) (fun run_type_checking =>
  let type_checkers :=
    if bool_decide (ext = ".py"%string) && truthy run_type_checking
    then ["pyright"%string] else [] in
  and_then (run_one linter_config (primary linter_config) file_path)
    (fun ran =>
  let '(all_issues, linters_used) :=
    match ran with
    | Some found => (found, [primary linter_config])
    | None => ([], [])
    end in
  and_then
    (fold_left
       (fun acc type_checker =>
          and_then acc (fun '(all_issues, linters_used) =>
          if bool_decide (type_checker ∈ linters_used) then
            Ok (all_issues, linters_used)
          else
            and_then (run_one linter_config type_checker file_path)
              (fun ran =>
            match ran with
            | Some found =>
                Ok (all_issues ++ found, linters_used ++ [type_checker])
            | None => Ok (all_issues, linters_used)
            end)))
       type_checkers (Ok (all_issues, linters_used)))
    (fun '(all_issues, linters_used) =>
  match linters_used with
  | [] => run_fallbacks linter_config (fallback linter_config) file_path
  | _ :: _ => Ok (all_issues, linters_used)
  end))).

(** [lint_file] *)
Definition lint_file (file_path : string) (config : gmap string json)
    : result LintResult :=
  let ext := suffix file_path in
  match lookup_literal ext LINTERS with
  | None =>
      Ok {| success := true; issues := []; linter := None; file := None |}
  | Some linter_config =>
      and_then (run_linters ext linter_config config file_path)
        (fun '(all_issues, linters_used) =>
      Ok {| success := bool_decide (length all_issues = 0%nat);
            issues := all_issues;
            linter := match linters_used with
                      | [] => None
                      | _ :: _ => Some (String.concat ", " linters_used)
                      end;
            file := Some file_path |})
  end.

(** [str(e)] for an exception that [lint_file] lets out. *)
Context (error_text : py_error -> str).

(** [lint_files_parallel]: the results in the order of the files (the
    code collects them as the workers end). *)
Definition lint_files_parallel (file_paths : list string)
    (config : gmap string json) : list LintResult :=
  map (fun file_path =>
         match lint_file file_path config with
         | Ok r => r
         | Err e =>
             {| success := false;
                issues :=
                  [ {| line := JInt 0; column := JInt 0;
                       severity := JStr (lit "error");
                       message := JStr (lit "Linting failed: " ++ error_text e);
                       rule := JStr [] |} ];
                linter := None;
                file := Some file_path |}
         end)
      file_paths.

End Lint.

(** *** The verdict *)

Section Verdict.
(** The two marks that open the lines for a pass and for warnings (they
    are outside Latin-1), and [str] of a list or of a dict. *)
Context (check_mark warning_mark : str).
Context (str_of_container : json -> str).

(** [str(v)], as an f-string shows a value. *)
Definition py_str (v : json) : str :=
  match v with
  | JNull => lit "None"
  | JBool b => if b then lit "True" else lit "False"
  | JInt n => str_of_int n
  | JStr s => s
  | JList _ | JDict _ => str_of_container v
  end.

(** The loop over the issues of one result: the issues with the file of
    the result, and those among them that block. *)
Fixpoint scan_issues (f : string) (found : list HookIssue)
    : result (list (string * HookIssue) * list (string * HookIssue)) :=
  match found with
  | [] => Ok ([], [])
  | i :: rest =>
      and_then (is_blocking_issue i) (fun blocks =>
      and_then (scan_issues f rest) (fun '(all_issues, blocking_issues) =>
      Ok ((f, i) :: all_issues,
          if blocks then (f, i) :: blocking_issues else blocking_issues)))
  end.

(** The loop over the results: ([all_issues], [blocking_issues]).  The
    [KeyError] is that of a result with issues and no key ['file']. *)
Fixpoint scan_results (results : list LintResult)
    : result (list (string * HookIssue) * list (string * HookIssue)) :=
  match results with
  | [] => Ok ([], [])
  | r :: rest =>
      and_then
        (match issues r with
         | [] => Ok ([], [])
         | _ :: _ =>
             match file r with
             | Some f => scan_issues f (issues r)
             | None => Err KeyError
             end
         end) (fun '(all_issues, blocking_issues) =>
      and_then (scan_results rest) (fun '(more, more_blocking) =>
      Ok (all_issues ++ more, blocking_issues ++ more_blocking)))
  end.

Definition issue_line (fi : string * HookIssue) : str :=
  let '(f, i) := fi in
  lit f ++ lit ":" ++ py_str (line i) ++ lit ":" ++ py_str (column i) ++ lit ": "
  ++ (if truthy (rule i) then py_str (rule i) ++ lit " " else [])
  ++ py_str (message i) ++ [Fixer.newline].

(** [format_output]: the triple ([success], [message], [reason]), where
    [reason] is the text of the response that blocks. *)
Definition format_output (results : list LintResult)
    : result (bool * str * option str) :=
  and_then (scan_results results) (fun '(all_issues, blocking_issues) =>
  let files_with_issues :=
    filter (fun r => issues r <> []) results in
  match all_issues with
  | [] => Ok (true, check_mark ++ lit " All files passed linting", None)
  | _ :: _ =>
      match blocking_issues with
      | _ :: _ =>
          Ok (false, [],
              Some (lit "Linting failed:" ++ [Fixer.newline; Fixer.newline]
                    ++ concat (map issue_line blocking_issues)
                    ++ [Fixer.newline] ++ lit "Please fix these "
                    ++ str_of_int (Z.of_nat (length blocking_issues))
                    ++ lit " error(s)."))
      | [] =>
          Ok (true,
              warning_mark ++ lit " "
              ++ str_of_int (Z.of_nat (length all_issues))
              ++ lit " warning(s) in "
              ++ str_of_int (Z.of_nat (length files_with_issues))
              ++ lit " file(s) (non-blocking)",
              None)
      end
  end).

End Verdict.

End Hook.

(** ** Predicates in which the properties are stated *)
Module Spec.
Import PyStr Fixer Session.

(** Ascending in the key, neighbour by neighbour. *)
Fixpoint ascending {A} (key : A -> Z) (l : list A) : Prop :=
  match l with
  | a :: (b :: _) as l' => key a <= key b /\ ascending key l'
  | _ => True
  end.

(** Each issue of the list is at most [d] lines below the one before it. *)
Fixpoint chain (d : Z) (l : list Issue) : Prop :=
  match l with
  | a :: (b :: _) as l' =>
      0 <= get_line b - get_line a <= d /\ chain d l'
  | _ => True
  end.



(** The two bounds on a cluster as the specification words them: at most
    [max_issues_per_cluster] issues, and no two issues farther apart than
    [cluster_distance] lines. *)
Definition within_size (self : ClaudeCodeFixer) (c : IssueCluster) : Prop :=
  Z.of_nat (length (issues c)) <= max_issues_per_cluster self.

Definition within_distance (self : ClaudeCodeFixer) (c : IssueCluster) : Prop :=
  forall a b, In a (issues c) -> In b (issues c) ->
    get_line b - get_line a <= cluster_distance self.

(** An issue of rule E501 on the given line, and a fixer with the given
    clustering options and the defaults elsewhere. *)
Definition issue_at (n : Z) : Issue :=
  {| rule := Some (lit "E501"); message := Some (lit "line too long");
     line := Some n |}.

Definition clustering_fixer (batch : bool) (strategy : string)
    (distance size : Z) : ClaudeCodeFixer := {|
  enabled := true; max_workers := 10; timeout := 600; max_fix_attempts := 3;
  _fix_attempts := ∅;
  cluster_distance := distance;
  max_issues_per_cluster := size;
  batch_similar := batch;
  predict_simple_fixes := true;
  custom_categories := [];
  clustering_strategy := lit strategy;
  use_git_worktrees := false;
  worktree_merge_strategy := lit "claude";
  cleanup_worktrees := true;
  max_worktrees := 10;
  _active_worktrees := []
|}.

(** A fixer with the given worktree options and the defaults elsewhere. *)
Definition session_fixer (worktrees : bool) (strategy : string)
    (cleanup : bool) (workers quota : Z) : ClaudeCodeFixer := {|
  enabled := true; max_workers := workers; timeout := 600;
  max_fix_attempts := 3; _fix_attempts := ∅;
  cluster_distance := 5; max_issues_per_cluster := 5;
  batch_similar := true; predict_simple_fixes := true;
  custom_categories := [];
  clustering_strategy := lit "proximity";
  use_git_worktrees := worktrees;
  worktree_merge_strategy := lit strategy;
  cleanup_worktrees := cleanup;
  max_worktrees := quota;
  _active_worktrees := []
|}.

(** A successful result for the issue on line [n], with the given patch,
    made in the worktree of the given path. *)
Definition patch_result (n : Z) (p : string) (worktree : string) : FixResult :=
  {| success := true; cluster := _create_cluster [issue_at n];
     error := None; fixed_content := Some (lit "fixed");
     patch := Some (lit p); worktree_path := Some worktree;
     rel_path := Some "a.py"%string |}.

(** A session in which every external program succeeds: [git apply]
    appends the patch to the file, the agent appends a mark. *)
Definition smooth_cluster_run (worktree : string) : ClusterRun :=
  {| worktree_add := Created worktree;
     head_content := Some (lit "x = 1");
     agent := AgentExit 0 [] [] (fun content => content ++ lit "#");
     git_diff := DiffExit 0 (lit "patch") |}.

Definition smooth_run (root : option string) : FileRun :=
  {| git_root := match root with
                 | Some path => Root path
                 | None => NotARepository
                 end;
     cluster_run := fun i =>
       smooth_cluster_run (String (ascii_of_nat (97 + i)) EmptyString);
     git_apply := fun p content => ApplyExit 0 (content ++ p);
     agent_merge := fun _ content => MergeExit 0 (content ++ lit "#merged");
     git_branch := fun _ _ => None;
     git_merge := fun _ content => MergeExit 0 (content ++ lit "#merged");
     interrupted := false |}.

(** An undefined [json] on line 1, which the predictor resolves. *)
Definition undefined_json : Issue :=
  {| rule := Some (lit "F821");
     message := Some (lit "Undefined name `json`");
     line := Some 1 |}.

(** *** Clustering: the issues that a state of the loop holds *)
Definition flat (st : list IssueCluster * list Issue) : list Issue :=
  concat (map issues st.1) ++ st.2.

(** *** Effects *)

(** Every call of [m] relates the world before to the world after. *)
Definition respects (R : World -> World -> Prop) {A} (m : M A) : Prop :=
  forall w, R w (m w).2.

(** Calls that end without the interrupt, and calls that return. *)
Definition no_interrupt {A} (m : M A) : Prop :=
  forall w, (m w).1 <> Interrupt.

Definition returns {A} (m : M A) : Prop :=
  forall w, exists a, (m w).1 = Return a.

(** What a call returns, when it returns. *)
Definition post {A} (Q : A -> Prop) (m : M A) : Prop :=
  forall w a, (m w).1 = Return a -> Q a.

(** *** The boundary of a fix attempt *)

(** What a result of the agent call says. *)
Definition agent_result (run : ClusterRun) (r : FixResult) : Prop :=
  (success r = false -> is_Some (error r))
  /\ (success r = true ->
      exists stderr stdout after, agent run = AgentExit 0 stderr stdout after).

(** What a result of a fix attempt in a worktree says: a failure carries
    an error; a success means that the worktree was created, that the
    agent exited with 0 and that [git diff] ran, its output being the
    patch, whatever its exit status. *)
Definition worktree_result (run : ClusterRun) (r : FixResult) : Prop :=
  (success r = false -> is_Some (error r))
  /\ (success r = true ->
      (exists p, worktree_add run = Created p /\ worktree_path r = Some p)
      /\ (exists stderr stdout after, agent run = AgentExit 0 stderr stdout after)
      /\ (exists returncode stdout,
            git_diff run = DiffExit returncode stdout /\ patch r = Some stdout)).

(** *** Workspace accounting *)






(** The worktrees created and the worktrees discarded, in order. *)
Definition created (events : list Event) : list string :=
  omap (fun e => match e with WorktreeAdd p => Some p | _ => None end) events.

Definition discarded (events : list Event) : list string :=
  omap (fun e => match e with WorktreeRemove p => Some p | _ => None end) events.

(** The places at which the agent was asked to fix a cluster, in order. *)
Definition agent_places (events : list Event) : list Location :=
  omap (fun e => match e with AgentFix loc _ => Some loc | _ => None end) events.

(** A session whose second agent call times out, and a session whose
    merge by the agent fails. *)
Definition timeout_run : FileRun :=
  {| git_root := Root "/r";
     cluster_run := fun i =>
       match i with
       | O => smooth_cluster_run "a"
       | _ => {| worktree_add := Created "b";
                 head_content := Some (lit "x = 1");
                 agent := AgentRaised TimeoutExpired (fun content => content);
                 git_diff := DiffExit 0 [] |}
       end;
     git_apply := fun p content => ApplyExit 0 (content ++ p);
     agent_merge := fun _ content => MergeExit 0 (content ++ lit "#merged");
     git_branch := fun _ _ => None;
     git_merge := fun _ content => MergeExit 0 (content ++ lit "#merged");
     interrupted := false |}.


(** An attempt that discards its own worktree: the worktree lacks the
    file, or the agent exits with 0 and [git diff] raises. *)
Definition discards_own (r : ClusterRun) : bool :=
  match head_content r with
  | None => true
  | Some _ =>
      match agent r, git_diff r with
      | AgentExit returncode _ _ _, DiffRaised _ => bool_decide (returncode = 0)
      | _, _ => false
      end
  end.

(** The commands of one fix attempt in a worktree, for a file that lies
    under the root: the worktree that the run gets, if any; the agent, if
    the worktree has the file; the removal of the worktree, if the attempt
    discards it. *)
Definition attempt_events (r : ClusterRun) (c : IssueCluster) : list Event :=
  match worktree_add r with
  | Created p =>
      WorktreeAdd p
      :: match head_content r with
         | Some _ => [AgentFix (WorktreeFile p) c]
         | None => []
         end
      ++ (if discards_own r then [WorktreeRemove p] else [])
  | _ => []
  end.

(** The root that [_get_git_root] returns, when it returns one. *)
Definition root_of (run : FileRun) : option string :=
  match git_root run with
  | Root path => Some path
  | _ => None
  end.

(** The events by which clusters are dispatched: the pool, the
    submissions, the worktrees made for the submitted clusters and the
    calls of the agent. *)
Definition is_dispatch (e : Event) : bool :=
  match e with
  | PoolCreate _ | Submit _ | WorktreeAdd _ | AgentFix _ _ => true
  | _ => false
  end.

(** What the fix attempt of the cluster [c] in a worktree dispatches: the
    worktree that its run gets, if any, and then, if that worktree has
    the file, the agent at work on the copy in that worktree. *)
Definition attempt_of (r : ClusterRun) (c : IssueCluster) : list Event :=
  match worktree_add r with
  | Created p =>
      WorktreeAdd p
      :: match head_content r with
         | Some _ => [AgentFix (WorktreeFile p) c]
         | None => []
         end
  | _ => []
  end.

(** The dispatch events of the clusters submitted from position [i] on.
    In worktree mode each cluster is submitted and makes its attempt in a
    worktree of its own; otherwise each cluster is submitted and its agent
    works on the real file. *)
Fixpoint dispatch_of (run : FileRun) (file_path : string)
    (in_worktrees : bool) (i : nat) (clusters : list IssueCluster)
    : list Event :=
  match clusters with
  | [] => []
  | c :: rest =>
      Submit c
      :: (if in_worktrees then attempt_of (cluster_run run i) c
          else [AgentFix (RealFile file_path) c])
      ++ dispatch_of run file_path in_worktrees (S i) rest
  end.

(** A step from [w] to [w'] adds events of which [d] are the dispatch
    events. *)
Definition emits_from (d : list Event) (w w' : World) : Prop :=
  exists evs, trace w' = trace w ++ evs /\ filter is_dispatch evs = d.

Definition emits {A} (d : list Event) (m : M A) : Prop :=
  forall w, emits_from d w (m w).2.

(** *** The sequential-patch strategy, in the words of the specification *)

(** The world after one [git apply --3way --whitespace=fix] of [p] that
    left the file with [after]. *)
Definition patched (file_path : string) (p after : str) (w : World) : World :=
  {| self := self w;
     disk := <[file_path := after]> (disk w);
     worktree_files := worktree_files w;
     trace := trace w ++ [GitApply ["--3way"; "--whitespace=fix"]%string p] |}.

(** [applied run file_path results w w']: the patches of [results] are
    applied one after the other, in the order of the list, each
    application exiting with 0; results without a patch are passed over.
    [w] is the world before and [w'] the world after. *)
Inductive applied (run : FileRun) (file_path : string)
    : list FixResult -> World -> World -> Prop :=
| applied_nil w : applied run file_path [] w w
| applied_none r l w w' :
    patch r = None \/ patch r = Some [] ->
    applied run file_path l w w' ->
    applied run file_path (r :: l) w w'
| applied_patch r l p after w w' :
    patch r = Some p -> p <> [] ->
    git_apply run p (default [] (disk w !! file_path)) = ApplyExit 0 after ->
    applied run file_path l (patched file_path p after w) w' ->
    applied run file_path (r :: l) w w'.

(** The versions that a merge by the agent is given: of each successful
    result made in a worktree that holds a copy of the file, the cluster
    and that copy, in the order of the results. *)
Definition versions_in (files : gmap string str) (results : list FixResult)
    : list (IssueCluster * str) :=
  omap (fun r =>
          if success r
          then p ← worktree_path r; content ← files !! p; Some (cluster r, content)
          else None)
       results.

(** The world after the agent has been asked to merge [versions], and the
    world after it has left the file with [content]. *)
Definition asked_to_merge (versions : list (IssueCluster * str)) (w : World)
    : World :=
  {| self := self w; disk := disk w; worktree_files := worktree_files w;
     trace := trace w ++ [AgentMerge (map fst versions)] |}.

Definition left_with (file_path : string) (content : str) (w : World) : World :=
  {| self := self w; disk := <[file_path := content]> (disk w);
     worktree_files := worktree_files w; trace := trace w |}.

(** Each result is a success made in a worktree that holds a copy of the
    file. *)
Definition all_versions (files : gmap string str) (results : list FixResult)
    : Prop :=
  Forall (fun r => success r = true
                   /\ exists p, worktree_path r = Some p /\ is_Some (files !! p))
         results.

End Spec.

(** ** Further predicates: the shape of clusters *)
Module Props.
Import PyStr Fixer Session Spec.

(** A digit of [hexdigest]. *)
Definition is_hex_digit (c : ascii) : bool :=
  bool_decide (c ∈ lit "0123456789abcdef").

(** The line of an issue lies between the bounds of the cluster. *)
Definition in_range (c : IssueCluster) (i : Issue) : Prop :=
  start_line c <= get_line i <= end_line c.

(** Each cluster ends at or before the line on which the next starts. *)
Fixpoint ranges_ordered (clusters : list IssueCluster) : Prop :=
  match clusters with
  | c1 :: (c2 :: _) as rest =>
      end_line c1 <= start_line c2 /\ ranges_ordered rest
  | _ => True
  end.

(** [l[0].get('line', 0)] *)
Definition first_line (l : list Issue) : Z :=
  match l with
  | i :: _ => get_line i
  | [] => 0
  end.

(** No cut between two consecutive groups could have been spared: the
    group before the cut is full, or the issue after the cut is more than
    [cluster_distance] lines below the one before it. *)
Fixpoint cuts_needed (self : ClaudeCodeFixer) (groups : list (list Issue))
    : Prop :=
  match groups with
  | g1 :: (g2 :: _) as rest =>
      (max_issues_per_cluster self <= Z.of_nat (length g1)
       \/ cluster_distance self < first_line g2 - last_line g1)
      /\ cuts_needed self rest
  | _ => True
  end.

(** All issues of the list are of one category. *)
Definition one_category (self : ClaudeCodeFixer) (l : list Issue) : Prop :=
  exists category, Forall (fun i => _get_issue_category self i = category) l.

(** The lines that [_apply_import_fix] passes over at the top of a file,
    and the lines it takes for the block of imports. *)
Definition is_blank_or_comment (l : str) : bool :=
  bool_decide (strip l = []) || startswith (strip l) (lit "#").

Definition is_import_or_blank (l : str) : bool :=
  is_import_line l || bool_decide (strip l = []).

(** The blanks that a line starts with. *)
Fixpoint indentation (l : str) : str :=
  match l with
  | c :: l' => if is_space c then c :: indentation l' else []
  | [] => []
  end.

(** *** Sessions *)

(** The world after [_fix_single_file] has been called for one file once
    for each entry of [calls], whatever the calls returned. *)
Definition after_calls (file_path : string)
    (calls : list (FileRun * list Issue)) (w : World) : World :=
  fold_left (fun w '(run, issues) => (_fix_single_file run file_path issues w).2)
            calls w.

(** How often [_fix_single_file] has been called for the file. *)
Definition attempts_of (file_path : string) (w : World) : Z :=
  default 0 (_fix_attempts (self w) !! file_path).

(** A result that carries no usable version: it failed, or it names no
    worktree, or the worktree has no copy of the file. *)
Definition no_version (w : World) (r : FixResult) : Prop :=
  success r = true ->
  match worktree_path r with
  | Some p => worktree_files w !! p = None
  | None => True
  end.

(** *** The hook *)

(** An entry of the output of Ruff: a dict whose location, if it has one,
    is a dict. *)
Definition ruff_entry (entry : Json.json) : Prop :=
  exists d, entry = Json.JDict d
            /\ match d !! "location"%string with
               | Some (Json.JDict _) | None => True
               | Some _ => False
               end.

(** The reading of the output fails: the text is not JSON, or the data are
    not of the shape of any format. *)
Definition unreadable (json_loads : str -> option Json.json) (output : str)
    : Prop :=
  match json_loads output with
  | None => True
  | Some data => (Hook.issues_of_data data).2 <> None
  end.

End Props.
(** * Properties *)

(** ** Known answers of MD5 (RFC 1321, appendix A.5) *)
Module MD5Facts.

Example md5_empty :
  MD5.hexdigest [] = PyStr.lit "d41d8cd98f00b204e9800998ecf8427e".
Proof. vm_compute. reflexivity. Qed.

Example md5_abc :
  MD5.hexdigest (PyStr.lit "abc") = PyStr.lit "900150983cd24fb0d6963f7d28e17f72".
Proof. vm_compute. reflexivity. Qed.

Example md5_two_blocks :
  MD5.hexdigest (PyStr.lit "12345678901234567890123456789012345678901234567890123456789012345678901234567890")
  = PyStr.lit "57edf4a22be3c955ac49da2e2107b67a".
Proof. vm_compute. reflexivity. Qed.

End MD5Facts.

(** ** Python string primitives *)
Module PyStrFacts.
Import PyStr.

(** *** [startswith] and [in] *)

Lemma startswith_app p t : startswith (p ++ t) p = true.
Proof.
  induction p as [|a p IH]; simpl; [by destruct t|].
  destruct (ascii_dec a a); [done|congruence].
Qed.

Lemma startswith_nil s : startswith s [] = true.
Proof. by destruct s. Qed.

Lemma contains_startswith sub s :
  startswith s sub = true -> contains sub s = true.
Proof. destruct s; simpl; by intros ->. Qed.

Lemma contains_middle sub a b : contains sub (a ++ sub ++ b) = true.
Proof.
  induction a as [|c a IH]; simpl.
  - apply contains_startswith, startswith_app.
  - rewrite IH. apply orb_true_r.
Qed.

(** *** [lstrip], [rstrip], [strip] *)

Lemma lstrip_split s :
  exists ws, s = ws ++ lstrip s /\ Forall (fun c => is_space c = true) ws.
Proof.
  induction s as [|c s (ws & E & H)]; simpl.
  - by exists [].
  - destruct (is_space c) eqn:Hc.
    + exists (c :: ws). split; [simpl; congruence|by constructor].
    + by exists [].
Qed.

Lemma lstrip_head s c t : lstrip s = c :: t -> is_space c = false.
Proof.
  induction s as [|a s IH]; simpl; [done|].
  destruct (is_space a) eqn:Ha; [done|]. by intros [= <- _].
Qed.

Lemma lstrip_skip ws c t :
  Forall (fun c => is_space c = true) ws -> is_space c = false ->
  lstrip (ws ++ c :: t) = c :: t.
Proof.
  intros Hws Hc. induction Hws as [|a ws Ha _ IH]; simpl.
  - by rewrite Hc.
  - by rewrite Ha.
Qed.

Lemma lstrip_snoc a c :
  is_space c = false -> exists b, lstrip (a ++ [c]) = b ++ [c].
Proof.
  intros Hc. induction a as [|x a (b & IH)]; simpl.
  - rewrite Hc. by exists [].
  - destruct (is_space x); [by exists b|]. by exists (x :: a).
Qed.

Lemma rstrip_split s : exists ws, s = rstrip s ++ ws.
Proof.
  unfold rstrip. destruct (lstrip_split (rev s)) as (ws & E & _).
  exists (rev ws). rewrite <- rev_app_distr, <- E. by rewrite rev_involutive.
Qed.

Lemma rstrip_head c t :
  is_space c = false -> exists z, rstrip (c :: t) = c :: z.
Proof.
  intros Hc. unfold rstrip. simpl.
  destruct (lstrip_snoc (rev t) c Hc) as (b & ->).
  exists (rev b). by rewrite rev_app_distr.
Qed.

(** The shape of a line around its stripped text. *)
Lemma strip_split s :
  exists ws1 ws2, s = ws1 ++ strip s ++ ws2
    /\ Forall (fun c => is_space c = true) ws1
    /\ (strip s = [] \/ exists c v, strip s = c :: v /\ is_space c = false).
Proof.
  destruct (lstrip_split s) as (ws1 & E1 & H1).
  destruct (rstrip_split (lstrip s)) as (ws2 & E2).
  exists ws1, ws2. unfold strip. split; [|split; [done|]].
  - by rewrite <- E2.
  - destruct (lstrip s) as [|c t] eqn:El; [by left|right].
    pose proof (lstrip_head _ _ _ El) as Hc.
    destruct (rstrip_head c t Hc) as (z & ->). by exists c, z.
Qed.

Lemma strip_keeps_head ws c t :
  Forall (fun c => is_space c = true) ws -> is_space c = false ->
  exists z, strip (ws ++ c :: t) = c :: z.
Proof.
  intros Hws Hc. unfold strip. rewrite lstrip_skip by done.
  by apply rstrip_head.
Qed.

(** *** [replace] *)

Lemma replace_first_unfold old new s :
  replace_first old new s =
  if startswith s old then new ++ drop (length old) s
  else match s with
       | [] => []
       | c :: s' => c :: replace_first old new s'
       end.
Proof. by destruct s. Qed.

Lemma replace_first_here old new t :
  replace_first old new (old ++ t) = new ++ t.
Proof.
  rewrite replace_first_unfold, startswith_app. by rewrite drop_app_length.
Qed.

Lemma replace_first_skip ws c v new t :
  Forall (fun w => is_space w = true) ws -> is_space c = false ->
  replace_first (c :: v) new (ws ++ (c :: v) ++ t) = ws ++ new ++ t.
Proof.
  intros Hws Hc. induction Hws as [|w ws Hw _ IH].
  - exact (replace_first_here (c :: v) new t).
  - rewrite replace_first_unfold. simpl.
    destruct (ascii_dec c w) as [->|_]; [congruence|].
    f_equal. exact IH.
Qed.

(** *** [split] and [join] *)

Lemma split_nonempty sep s : split sep s <> [].
Proof.
  destruct s as [|c s]; simpl; [done|].
  destruct (ascii_dec c sep); [done|]. by destruct (split sep s).
Qed.

Lemma first_piece_cons sep c s :
  c <> sep -> first_piece sep (c :: s) = c :: first_piece sep s.
Proof.
  intros Hc. unfold first_piece. simpl.
  destruct (ascii_dec c sep); [done|].
  pose proof (split_nonempty sep s). by destruct (split sep s).
Qed.

Lemma first_piece_app sep a b :
  Forall (fun c => c <> sep) a ->
  first_piece sep (a ++ b) = a ++ first_piece sep b.
Proof.
  intros Ha. induction Ha as [|c a Hc _ IH]; simpl; [done|].
  by rewrite first_piece_cons, IH.
Qed.

Lemma first_piece_split sep s :
  exists after, s = first_piece sep s ++ after
    /\ Forall (fun c => c <> sep) (first_piece sep s).
Proof.
  induction s as [|c s (after & E & H)].
  - by exists [].
  - destruct (decide (c = sep)) as [->|Hc].
    + exists (sep :: s). unfold first_piece. simpl.
      destruct (ascii_dec sep sep); [done|congruence].
    + exists after. rewrite first_piece_cons by done.
      split; [simpl; by rewrite <- E|by constructor].
Qed.

Lemma split_pieces sep s : Forall (Forall (fun c => c <> sep)) (split sep s).
Proof.
  induction s as [|c s IH]; simpl; [by repeat constructor|].
  destruct (ascii_dec c sep); [by constructor|].
  destruct (split sep s) as [|p rest]; [by repeat constructor|].
  inversion IH; subst. constructor; [by constructor|done].
Qed.

Lemma split_no_sep sep p :
  Forall (fun c => c <> sep) p -> split sep p = [p].
Proof.
  intros H. induction H as [|c p Hc _ IH]; simpl; [done|].
  destruct (ascii_dec c sep); [done|]. by rewrite IH.
Qed.

Lemma split_app_sep sep p s :
  Forall (fun c => c <> sep) p -> split sep (p ++ sep :: s) = p :: split sep s.
Proof.
  intros H. induction H as [|c p Hc _ IH]; simpl.
  - destruct (ascii_dec sep sep); [done|congruence].
  - destruct (ascii_dec c sep); [done|]. by rewrite IH.
Qed.

Lemma split_join sep pieces :
  pieces <> [] -> Forall (Forall (fun c => c <> sep)) pieces ->
  split sep (join [sep] pieces) = pieces.
Proof.
  intros Hne H. induction H as [|p rest Hp Hrest IH]; [done|].
  destruct rest as [|q rest].
  - simpl. by apply split_no_sep.
  - change (join [sep] (p :: q :: rest))
      with (p ++ sep :: join [sep] (q :: rest)).
    rewrite split_app_sep by done. by rewrite IH.
Qed.

Lemma join_middle sep l1 x l2 :
  exists a b, join sep (l1 ++ x :: l2) = a ++ x ++ b.
Proof.
  induction l1 as [|p l1 (a & b & IH)].
  - destruct l2 as [|q l2].
    + exists [], []. simpl. by rewrite app_nil_r.
    + by exists [], (sep ++ join sep (q :: l2)).
  - exists (p ++ sep ++ a), b.
    assert (H : forall t, t <> [] -> join sep (p :: t) = p ++ sep ++ join sep t)
      by (intros [|? ?]; done).
    rewrite <- app_comm_cons, H by (by destruct l1).
    rewrite IH. by rewrite <- !app_assoc.
Qed.

End PyStrFacts.

(** ** The clusterer *)
Module ClusterFacts.
Import PyStr Fixer Spec.

(** *** [sorted] is a stable insertion: a permutation, ascending in the key *)
Section SortedFacts.
Context {A : Type} (key : A -> Z).

Local Abbreviation ascending := (ascending key).

Lemma insert_sorted_perm x l : insert_sorted key x l ≡ₚ x :: l.
Proof.
  induction l as [|y l IH]; simpl; [done|].
  destruct (key x <=? key y); [done|].
  rewrite IH. apply Permutation_swap.
Qed.

Lemma sorted_perm l : sorted key l ≡ₚ l.
Proof.
  induction l as [|x l IH]; simpl; [done|].
  rewrite insert_sorted_perm. by rewrite IH.
Qed.

Lemma insert_sorted_ascending x l :
  ascending l -> ascending (insert_sorted key x l).
Proof.
  induction l as [|y l IH]; simpl; [done|].
  intros Hl. destruct (Z.leb_spec (key x) (key y)) as [Hle|Hgt].
  - simpl. split; [lia|done].
  - destruct l as [|z l]; simpl in *.
    + split; [lia|done].
    + destruct Hl as [Hyz Hl]. specialize (IH Hl).
      destruct (Z.leb_spec (key x) (key z)); simpl in *; split; try lia; done.
Qed.

Lemma sorted_ascending l : ascending (sorted key l).
Proof.
  induction l as [|x l IH]; simpl; [done|].
  by apply insert_sorted_ascending.
Qed.

Lemma ascending_app_r l1 l2 : ascending (l1 ++ l2) -> ascending l2.
Proof.
  induction l1 as [|a l1 IH]; simpl; [done|].
  destruct (l1 ++ l2) eqn:E; [|intros [_ H]; by apply IH].
  destruct l1, l2; simplify_eq/=. done.
Qed.

Lemma ascending_last_le l x r a :
  last l = Some a -> ascending (l ++ x :: r) -> key a <= key x.
Proof.
  induction l as [|b l IH]; simpl; [done|].
  destruct l as [|c l]; simpl in *.
  - intros [= ->] [H _]. done.
  - intros Hl [_ H]. by apply IH.
Qed.






End SortedFacts.

(** *** The loop keeps every issue, in order *)

Lemma concat_issues_snoc clusters c :
  concat (map issues (clusters ++ [c])) = concat (map issues clusters) ++ issues c.
Proof. rewrite map_app, concat_app. simpl. by rewrite app_nil_r. Qed.

Lemma cluster_step_flat fits st x :
  flat (cluster_step fits st x) = flat st ++ [x].
Proof.
  destruct st as [clusters [|a cur]]; unfold flat; simpl.
  { by rewrite app_nil_r. }
  destruct (fits _ _); simpl.
  - by rewrite <- !app_assoc.
  - rewrite concat_issues_snoc. simpl. by rewrite <- !app_assoc.
Qed.

Lemma fold_cluster_step_flat fits l st :
  flat (fold_left (cluster_step fits) l st) = flat st ++ l.
Proof.
  revert st. induction l as [|x l IH]; intros st; simpl.
  - by rewrite app_nil_r.
  - rewrite IH, cluster_step_flat. by rewrite <- app_assoc.
Qed.

Lemma cluster_loop_concat fits clusters l :
  concat (map issues (cluster_loop fits clusters l))
  = concat (map issues clusters) ++ l.
Proof.
  unfold cluster_loop.
  pose proof (fold_cluster_step_flat fits l (clusters, [])) as H.
  destruct (fold_left _ _ _) as [clusters' [|a cur]];
    unfold flat in H; simpl in *; rewrite !app_nil_r in H.
  - done.
  - by rewrite concat_issues_snoc.
Qed.

(** *** An invariant of the loop, for properties of single clusters *)

Section LoopInvariant.
Context (fits : list Issue -> Issue -> bool).
(** [P] holds of every closed cluster, [Q cur rest] of the open cluster
    before the issues still to come. *)
Context (P : IssueCluster -> Prop) (Q : list Issue -> list Issue -> Prop).
Context (Q_start : forall x rest, Q [] (x :: rest) -> Q [x] rest).
Context (Q_join : forall cur x rest,
  cur <> [] -> fits cur x = true -> Q cur (x :: rest) -> Q (cur ++ [x]) rest).
Context (Q_close : forall cur x rest,
  cur <> [] -> Q cur (x :: rest) -> P (_create_cluster cur) /\ Q [x] rest).
Context (Q_end : forall cur, cur <> [] -> Q cur [] -> P (_create_cluster cur)).

Lemma cluster_fold_invariant l clusters cur :
  Forall P clusters -> Q cur l ->
  let st := fold_left (cluster_step fits) l (clusters, cur) in
  Forall P st.1 /\ Q st.2 [].
Proof.
  revert clusters cur. induction l as [|x l IH]; intros clusters cur Hc Hq; simpl.
  - done.
  - destruct cur as [|a cur]; simpl.
    + apply IH; [done|]. by apply Q_start.
    + destruct (fits (a :: cur) x) eqn:Hf.
      * apply IH; [done|]. by apply (Q_join (a :: cur)).
      * destruct (Q_close (a :: cur) x l) as [HP HQ]; [done|done|].
        apply IH; [|done]. apply Forall_app. split; [done|].
        by constructor.
Qed.

Lemma cluster_loop_invariant l clusters :
  Forall P clusters -> Q [] l -> Forall P (cluster_loop fits clusters l).
Proof.
  intros Hc Hq. unfold cluster_loop.
  pose proof (cluster_fold_invariant l clusters [] Hc Hq) as [H1 H2].
  destruct (fold_left _ _ _) as [clusters' [|a cur]]; simpl in *; [done|].
  apply Forall_app. split; [done|]. constructor; [|done].
  by apply Q_end.
Qed.

(** The same over the categories of [issue_groups]. *)
Lemma cluster_groups_invariant (groups : list (str * list Issue)) clusters :
  Forall P clusters ->
  (forall l, Q [] (sorted get_line l)) ->
  Forall P (fold_left (fun clusters '(category, category_issues) =>
                         cluster_loop fits clusters (sorted get_line category_issues))
                      groups clusters).
Proof.
  intros Hc Hq. revert clusters Hc.
  induction groups as [|[c l] groups IH]; intros clusters Hc; simpl; [done|].
  apply IH. by apply cluster_loop_invariant.
Qed.

End LoopInvariant.

(** *** Grouping by category keeps every issue *)

Lemma group_add_perm category x groups :
  concat (map snd (group_add category x groups)) ≡ₚ x :: concat (map snd groups).
Proof.
  induction groups as [|[c l] groups IH]; simpl; [done|].
  destruct (decide (c = category)); simpl.
  - rewrite <- app_assoc. simpl. by rewrite <- Permutation_middle.
  - rewrite IH. by rewrite <- Permutation_middle.
Qed.

Lemma issue_groups_perm self l :
  concat (map snd (issue_groups self l)) ≡ₚ l.
Proof.
  unfold issue_groups.
  assert (forall g, concat (map snd (fold_left (fun groups issue =>
            group_add (_get_issue_category self issue) issue groups) l g))
          ≡ₚ concat (map snd g) ++ l) as H.
  { induction l as [|x l IH]; intros g; simpl.
    - by rewrite app_nil_r.
    - rewrite IH, group_add_perm. by rewrite <- Permutation_middle. }
  apply H.
Qed.

Lemma cluster_groups_concat fits (groups : list (str * list Issue)) clusters :
  concat (map issues
    (fold_left (fun clusters '(category, category_issues) =>
                  cluster_loop fits clusters (sorted get_line category_issues))
               groups clusters))
  ≡ₚ concat (map issues clusters) ++ concat (map snd groups).
Proof.
  revert clusters. induction groups as [|[c l] groups IH]; intros clusters; simpl.
  - by rewrite app_nil_r.
  - rewrite IH, cluster_loop_concat, sorted_perm. by rewrite <- app_assoc.
Qed.

Lemma singletons_concat (f : Issue -> IssueCluster) l :
  (forall i, issues (f i) = [i]) -> concat (map issues (map f l)) = l.
Proof.
  intros Hf. induction l as [|x l IH]; simpl; [done|].
  by rewrite Hf, IH.
Qed.

Lemma cluster_issues_perm self l :
  concat (map issues (cluster_issues self l)) ≡ₚ l.
Proof.
  unfold cluster_issues. destruct (batch_similar self); simpl.
  - repeat case_decide.
    + unfold _cluster_by_similarity.
      rewrite cluster_groups_concat. simpl. apply issue_groups_perm.
    + unfold _cluster_hybrid.
      rewrite cluster_groups_concat. simpl. apply issue_groups_perm.
    + unfold _cluster_by_proximity.
      rewrite cluster_loop_concat. simpl. apply sorted_perm.
  - by rewrite singletons_concat.
Qed.

(** Every cluster is a singleton made by [cluster_issues] itself or comes
    from [_create_cluster] on a list that is not empty. *)
Lemma cluster_issues_created self (P : IssueCluster -> Prop) l :
  (forall i, batch_similar self = false ->
     P {| issues := [i]; start_line := get_line i; end_line := get_line i;
          fingerprint := _get_issue_fingerprint i |}) ->
  (forall cur, batch_similar self = true -> cur <> [] -> P (_create_cluster cur)) ->
  Forall P (cluster_issues self l).
Proof.
  intros H1 H2. unfold cluster_issues.
  destruct (batch_similar self); simpl.
  - pose (Q := fun (_ _ : list Issue) => True).
    repeat case_decide.
    + apply (cluster_groups_invariant _ P Q); unfold Q; auto.
    + apply (cluster_groups_invariant _ P Q); unfold Q; auto.
    + apply (cluster_loop_invariant _ P Q); unfold Q; auto.
  - induction l as [|i l IH]; simpl; constructor; auto.
Qed.

Lemma length_snoc_Z {A} (l : list A) x :
  Z.of_nat (length (l ++ [x])) = Z.of_nat (length l) + 1.
Proof. rewrite length_app. simpl. lia. Qed.

Lemma cluster_issues_size self l :
  Forall (fun c => Z.of_nat (length (issues c))
                   <= Z.max 1 (max_issues_per_cluster self))
         (cluster_issues self l).
Proof.
  set (m := max_issues_per_cluster self).
  set (P := fun c => Z.of_nat (length (issues c)) <= Z.max 1 m).
  set (Q := fun (cur _ : list Issue) => Z.of_nat (length cur) <= Z.max 1 m).
  assert (forall fits, (forall cur x, fits cur x = true -> Z.of_nat (length cur) < m) ->
          forall clusters l, Forall P clusters -> Forall P (cluster_loop fits clusters l))
    as Hloop.
  { intros fits Hfits clusters l0 Hc.
    apply (cluster_loop_invariant fits P Q); unfold P, Q; simpl; try done.
    - intros; lia.
    - intros cur x rest _ Hf%Hfits _. rewrite length_snoc_Z. lia.
    - intros; simpl; lia.
    - lia. }
  assert (forall fits, (forall cur x, fits cur x = true -> Z.of_nat (length cur) < m) ->
          forall (groups : list (str * list Issue)) clusters, Forall P clusters ->
          Forall P (fold_left (fun clusters '(category, category_issues) =>
                      cluster_loop fits clusters (sorted get_line category_issues))
                    groups clusters)) as Hgroups.
  { intros fits Hfits groups. induction groups as [|[c g] groups IH]; simpl; [done|].
    intros clusters Hc. apply IH. by apply Hloop. }
  unfold cluster_issues. destruct (batch_similar self); simpl.
  - repeat case_decide.
    + apply Hgroups; [|done]. unfold fits_similarity. intros. lia.
    + apply Hgroups; [|done]. unfold fits_proximity. intros. lia.
    + apply Hloop; [|done]. unfold fits_proximity. intros. lia.
  - induction l as [|i l IH]; simpl; constructor; [unfold P; simpl; lia|done].
Qed.

Lemma chain_snoc d cur a x :
  last cur = Some a -> chain d cur ->
  0 <= get_line x - get_line a <= d -> chain d (cur ++ [x]).
Proof.
  induction cur as [|b cur IH]; simpl; [done|].
  destruct cur as [|c cur]; simpl in *.
  - intros [= ->] _ H. done.
  - intros Hl [H1 H2] Hx. split; [done|]. by apply IH.
Qed.

Lemma proximity_loop_chain self clusters l :
  Forall (fun c => chain (cluster_distance self) (issues c)) clusters ->
  Forall (fun c => chain (cluster_distance self) (issues c))
         (cluster_loop (fits_proximity self) clusters (sorted get_line l)).
Proof.
  set (d := cluster_distance self).
  intros Hc.
  apply (cluster_loop_invariant _ _
           (fun cur rest => chain d cur /\ ascending get_line (cur ++ rest)));
    [ | | | | done | ].
  - intros x rest [_ H]. done.
  - intros cur x rest Hne Hfit [Hch Hasc].
    rewrite <- app_assoc. simpl. split; [|done].
    destruct (last cur) as [a|] eqn:Hlast.
    + apply (chain_snoc d cur a); [done|done|].
      pose proof (ascending_last_le get_line cur x rest a Hlast Hasc).
      unfold fits_proximity, last_line in Hfit. rewrite Hlast in Hfit.
      unfold d. lia.
    + by apply last_None in Hlast.
  - intros cur x rest _ [Hch Hasc]. split; [done|]. split; [done|].
    apply (ascending_app_r get_line cur) in Hasc. exact Hasc.
  - intros cur _ [H _]. done.
  - split; [done|]. apply sorted_ascending.
Qed.

Lemma cluster_issues_chain self l :
  clustering_strategy self <> lit "similarity" ->
  Forall (fun c => chain (cluster_distance self) (issues c))
         (cluster_issues self l).
Proof.
  intros Hs. unfold cluster_issues. destruct (batch_similar self); simpl.
  - repeat case_decide; [done| |].
    + unfold _cluster_hybrid. generalize (@nil IssueCluster) (Forall_nil_2 (fun c => chain (cluster_distance self) (issues c))).
      induction (issue_groups self l) as [|[c g] groups IH]; simpl; [done|].
      intros clusters Hc. apply IH. by apply proximity_loop_chain.
    + by apply proximity_loop_chain.
  - induction l as [|i l IH]; simpl; by constructor.
Qed.




(** Scenario B of the specification: lines 10 and 12 share a cluster at
    distance 5, lines 10 and 50 do not. *)
Example scenario_B_near :
  map (fun c => map get_line (issues c))
      (cluster_issues default_fixer [issue_at 10; issue_at 12])
  = [[10; 12]].
Proof. reflexivity. Qed.

Example scenario_B_far :
  map (fun c => map get_line (issues c))
      (cluster_issues default_fixer [issue_at 10; issue_at 50])
  = [[10]; [50]].
Proof. reflexivity. Qed.

Example fingerprint_example :
  map fingerprint (cluster_issues default_fixer
     [ {| rule := Some (lit "F821"); message := None; line := Some 10 |};
       {| rule := Some (lit "E501"); message := None; line := Some 12 |} ])
  = [lit "574c5cb4"].
Proof. vm_compute. reflexivity. Qed.

(** C3 (partition).  For every list of issues and every configuration
    of the clusterer (batching off, or the proximity, similarity or hybrid
    strategy, or an unknown strategy name, which is treated as proximity),
    the clusters of [cluster_issues], laid end to end, are a permutation
    of the input: every input issue occurs in exactly one cluster, exactly
    as often as in the input.  No cluster is empty. *)
Theorem cluster_issues_partition (self : ClaudeCodeFixer) (l : list Issue) :
  concat (map issues (cluster_issues self l)) ≡ₚ l
  /\ Forall (fun c => issues c <> []) (cluster_issues self l).
Proof.
  split; [apply cluster_issues_perm|].
  apply cluster_issues_created; simpl; auto.
Qed.

(** On an input without repeated issues the clusters are pairwise
    disjoint: no issue occurs twice in their concatenation. *)
Lemma cluster_issues_disjoint (self : ClaudeCodeFixer) (l : list Issue) :
  NoDup l -> NoDup (concat (map issues (cluster_issues self l))).
Proof.
  intros H. by rewrite cluster_issues_perm.
Qed.




(** C8 (bounds), as the code has them.  Every cluster has at most
    [max_issues_per_cluster] issues, or one issue when that option is below
    one.  Unless the strategy is similarity, each issue of a cluster lies
    at most [cluster_distance] lines below the issue before it (and not
    above it); a cluster of [k] issues may therefore span up to
    [(k - 1) * cluster_distance] lines. *)
Theorem cluster_issues_bounds (self : ClaudeCodeFixer) (l : list Issue) :
  Forall (fun c => Z.of_nat (length (issues c))
                   <= Z.max 1 (max_issues_per_cluster self))
         (cluster_issues self l)
  /\ (clustering_strategy self <> lit "similarity" ->
      Forall (fun c => chain (cluster_distance self) (issues c))
             (cluster_issues self l)).
Proof.
  split; [apply cluster_issues_size|apply cluster_issues_chain].
Qed.

(** C8 on the default configuration. *)
Lemma cluster_issues_bounds_witness :
  Forall (fun c => chain 5 (issues c))
         (cluster_issues default_fixer [issue_at 1; issue_at 6; issue_at 30]).
Proof.
  apply (proj2 (cluster_issues_bounds default_fixer
                  [issue_at 1; issue_at 6; issue_at 30])).
  discriminate.
Defined.

(** C8 as worded fails in two places.  With [max_issues_per_cluster = 0]
    a cluster of one issue exceeds the bound.  With the defaults (distance
    5, at most 5 issues) the issues on lines 1, 6 and 11 form one cluster
    of three issues, below the size cap, whose first and last issues are
    10 lines apart. *)
Lemma cluster_bounds_counterexample :
  (exists c,
     In c (cluster_issues (clustering_fixer true "proximity" 5 0) [issue_at 1])
     /\ ~ within_size (clustering_fixer true "proximity" 5 0) c)
  /\ (exists c,
        cluster_issues (clustering_fixer true "proximity" 5 5)
                       [issue_at 1; issue_at 6; issue_at 11] = [c]
        /\ Z.of_nat (length (issues c)) < 5
        /\ ~ within_distance (clustering_fixer true "proximity" 5 5) c).
Proof.
  split.
  - eexists. split; [left; reflexivity|].
    unfold within_size. simpl. lia.
  - eexists. split; [reflexivity|]. split; [simpl; lia|].
    intros H. specialize (H (issue_at 1) (issue_at 11)).
    simpl in H. unfold get_line in H. simpl in H.
    assert (11 - 1 <= 5) by (apply H; auto). lia.
Qed.

End ClusterFacts.

(** ** The predictor *)
Module PredictorFacts.
Import PyStr Fixer Spec PyStrFacts.

Lemma space_not_equals ws :
  Forall (fun c => is_space c = true) ws -> Forall (fun c => c <> "="%char) ws.
Proof. intros H. eapply Forall_impl; [exact H|]. by intros c Hc ->. Qed.

(** Where the prefix of [predict_simple_fix] lands: right before the
    stripped target, after the leading blanks. *)
Lemma underscore_prefix_shape line :
  let var_name := strip (first_piece "="%char line) in
  exists ws tail,
    line = ws ++ var_name ++ tail
    /\ replace_first var_name ("_"%char :: var_name) line
       = ws ++ "_"%char :: var_name ++ tail
    /\ Forall (fun c => is_space c = true) ws.
Proof.
  intros var_name.
  destruct (first_piece_split "="%char line) as (after & E & _).
  destruct (strip_split (first_piece "="%char line))
    as (ws1 & ws2 & Es & Hws & [Hnil | (c & v & Ev & Hc)]).
  - exists [], line. fold var_name in Hnil. rewrite Hnil.
    rewrite replace_first_unfold, startswith_nil. simpl. by rewrite drop_0.
  - exists ws1, (ws2 ++ after). fold var_name in Ev, Es.
    assert (line = ws1 ++ var_name ++ ws2 ++ after) as El.
    { rewrite E at 1. rewrite Es at 1. by rewrite <- !app_assoc. }
    split; [done|]. split; [|done].
    rewrite El at 1. rewrite Ev.
    exact (replace_first_skip ws1 c v ("_"%char :: c :: v) (ws2 ++ after) Hws Hc).
Qed.

(** After the rewrite the target starts with an underscore. *)
Lemma prefixed_target_is_marked line :
  let var_name := strip (first_piece "="%char line) in
  let line' := replace_first var_name ("_"%char :: var_name) line in
  startswith (strip (first_piece "="%char line')) (lit "_") = true.
Proof.
  intros var_name line'.
  destruct (underscore_prefix_shape line) as (ws & tail & _ & E' & Hws).
  fold var_name in E'. fold line' in E'. rewrite E'.
  rewrite first_piece_app by by apply space_not_equals.
  rewrite first_piece_cons by done.
  destruct (strip_keeps_head ws "_"%char
              (first_piece "="%char (var_name ++ tail)) Hws eq_refl) as (z & ->).
  reflexivity.
Qed.

Lemma prefixed_line_no_newline line :
  let var_name := strip (first_piece "="%char line) in
  Forall (fun c => c <> newline) line ->
  Forall (fun c => c <> newline)
         (replace_first var_name ("_"%char :: var_name) line).
Proof.
  intros var_name H.
  destruct (underscore_prefix_shape line) as (ws & tail & E & E' & _).
  fold var_name in E, E'. rewrite E', Forall_app, Forall_cons.
  rewrite E, Forall_app in H. destruct H as [H1 H2].
  split; [done|]. split; [done|done].
Qed.

(** The import statement is in the content that [_apply_import_fix]
    returns. *)
Lemma apply_import_fix_contains content import_stmt :
  contains import_stmt (_apply_import_fix content import_stmt) = true.
Proof.
  unfold _apply_import_fix, list_insert_at.
  destruct (join_middle [newline]
              (take (find_insert_pos (split newline content)
                       (split newline content) 0 0 false None)
                    (split newline content))
              import_stmt
              (drop (find_insert_pos (split newline content)
                       (split newline content) 0 0 false None)
                    (split newline content))) as (a & b & ->).
  apply contains_middle.
Qed.

(** C9 (idempotence of prediction).  For every fixer, issue and content:
    when [predict_simple_fix] returns fixed content, running it again on
    that content with the same issue returns no prediction. *)
Theorem predict_simple_fix_idempotent
    (self : ClaudeCodeFixer) (issue : Issue) (content fixed : str) :
  predict_simple_fix self issue content = Some fixed ->
  predict_simple_fix self issue fixed = None.
Proof.
  unfold predict_simple_fix.
  destruct (predict_simple_fixes self); cbn [negb]; [|done].
  destruct (decide (get_rule issue = lit "F821")) as [_|_].
  - destruct (contains (lit "Undefined name `") (get_message issue)); [|done].
    destruct (assoc (default [] (split "`"%char (get_message issue) !! 1%nat))
                    simple_fix_patterns_F821) as [import_stmt|]; [|done].
    destruct (contains import_stmt content); cbn [negb]; [done|].
    intros [= <-]. by rewrite apply_import_fix_contains.
  - destruct (decide (get_rule issue = lit "F841")) as [_|_]; [|done].
    set (n := get_line issue - 1).
    destruct ((0 <=? n) && (n <? Z.of_nat (length (split newline content))))
      eqn:Hrange; [|done].
    destruct (split newline content !! Z.to_nat n) as [line|] eqn:Hline; [|done].
    destruct (contains (lit " = ") line); [|done].
    set (var_name := strip (first_piece "="%char line)).
    destruct (startswith var_name (lit "_")); cbn [negb]; [done|].
    intros [= <-].
    set (line' := replace_first var_name ("_"%char :: var_name) line).
    assert (split newline
              (join [newline] (<[Z.to_nat n:=line']> (split newline content)))
            = <[Z.to_nat n:=line']> (split newline content)) as ->.
    { apply split_join.
      - pose proof (split_nonempty newline content) as Hne.
        intros Hnil. apply Hne. apply (f_equal length) in Hnil.
        rewrite length_insert in Hnil. by destruct (split newline content).
      - apply Forall_insert; [apply split_pieces|].
        apply prefixed_line_no_newline.
        pose proof (split_pieces newline content) as Hp.
        rewrite Forall_lookup in Hp. by apply (Hp _ _ Hline). }
    rewrite length_insert, Hrange.
    rewrite list_lookup_insert_eq by (by apply lookup_lt_Some in Hline).
    destruct (contains (lit " = ") line'); [|done].
    pose proof (prefixed_target_is_marked line) as Hm. cbv zeta in Hm.
    fold var_name in Hm. fold line' in Hm. by rewrite Hm.
Qed.

(** C9 at Scenario A of the specification: an undefined [json] on line 10
    of a file that does not import it. *)
Lemma predict_simple_fix_idempotent_witness :
  let issue := {| rule := Some (lit "F821");
                  message := Some (lit "Undefined name `json`");
                  line := Some 10 |} in
  predict_simple_fix default_fixer issue (lit "import os
print(json.dumps(os.name))")
  = Some (lit "import os
import json
print(json.dumps(os.name))")
  /\ predict_simple_fix default_fixer issue (lit "import os
import json
print(json.dumps(os.name))") = None.
Proof.
  intros issue. split; [reflexivity|].
  apply (predict_simple_fix_idempotent default_fixer issue (lit "import os
print(json.dumps(os.name))")).
  reflexivity.
Defined.

(** An import statement that the content already holds is not inserted. *)
Lemma predict_import_already_present self issue content name import_stmt :
  get_rule issue = lit "F821" ->
  split "`"%char (get_message issue) !! 1%nat = Some name ->
  assoc name simple_fix_patterns_F821 = Some import_stmt ->
  contains import_stmt content = true ->
  predict_simple_fix self issue content = None.
Proof.
  intros Hr Hn Ha Hc. unfold predict_simple_fix.
  destruct (predict_simple_fixes self); cbn [negb]; [|done].
  rewrite decide_True by done.
  destruct (contains _ (get_message issue)); [|done].
  rewrite Hn. change (default [] (Some name)) with name.
  by rewrite Ha, Hc.
Qed.

(** A target that already starts with an underscore is not prefixed. *)
Lemma predict_unused_already_marked self issue content line :
  get_rule issue = lit "F841" ->
  split newline content !! Z.to_nat (get_line issue - 1) = Some line ->
  startswith (strip (first_piece "="%char line)) (lit "_") = true ->
  predict_simple_fix self issue content = None.
Proof.
  intros Hr Hl Hs. unfold predict_simple_fix.
  destruct (predict_simple_fixes self); cbn [negb]; [|done].
  rewrite Hr. rewrite decide_False by done. rewrite decide_True by done.
  rewrite Hl, Hs. cbn [negb].
  destruct (_ && _); [|done]. by destruct (contains _ line).
Qed.

Example predict_unused_variable :
  predict_simple_fix default_fixer
    {| rule := Some (lit "F841"); message := None; line := Some 2 |}
    (lit "def f():
    x = compute()
    return 1")
  = Some (lit "def f():
    _x = compute()
    return 1").
Proof. reflexivity. Qed.

End PredictorFacts.

(** ** Reasoning about effects *)
Module MonadFacts.
Import PyStr Fixer Session Spec.

(** *** A relation between the world before and after, kept by every step *)
Section Respects.
Context (R : World -> World -> Prop).
Context (R_refl : forall w, R w w).
Context (R_trans : forall w1 w2 w3, R w1 w2 -> R w2 w3 -> R w1 w3).

Lemma respects_ret {A} (a : A) : respects R (ret a).
Proof. intros w. apply R_refl. Qed.

Lemma respects_raise {A} e : respects R (@raise A e).
Proof. intros w. apply R_refl. Qed.

Lemma respects_interrupt {A} : respects R (@interrupt A).
Proof. intros w. apply R_refl. Qed.

Lemma respects_get {A} (f : World -> A) : respects R (get f).
Proof. intros w. apply R_refl. Qed.

Lemma respects_bind {A B} (m : M A) (k : A -> M B) :
  respects R m -> (forall a, respects R (k a)) -> respects R (bind m k).
Proof.
  intros Hm Hk w. unfold bind. specialize (Hm w).
  destruct (m w) as [[a|e|] w']; simpl in *; [|done|done].
  eapply R_trans; [exact Hm|apply Hk].
Qed.

Lemma respects_try_except {A} (m : M A) handler :
  respects R m -> (forall e, respects R (handler e)) ->
  respects R (try_except m handler).
Proof.
  intros Hm Hh w. unfold try_except. specialize (Hm w).
  destruct (m w) as [[a|e|] w']; simpl in *; [done| |done].
  eapply R_trans; [exact Hm|apply Hh].
Qed.

Lemma respects_try_finally {A} (m : M A) final :
  respects R m -> respects R final -> respects R (try_finally m final).
Proof.
  intros Hm Hf w. unfold try_finally. specialize (Hm w).
  destruct (m w) as [r w']. specialize (Hf w').
  destruct (final w') as [[[]|e|] w'']; simpl in *; eapply R_trans; eauto.
Qed.

Lemma respects_for_each {A} (l : list A) body :
  (forall x, respects R (body x)) -> respects R (for_each l body).
Proof.
  intros Hb. induction l as [|x l IH]; simpl.
  - apply respects_ret.
  - apply respects_bind; [apply Hb|done].
Qed.

Lemma respects_map_M {A B} i (l : list A) (body : nat -> A -> M B) :
  (forall i x, respects R (body i x)) -> respects R (map_M i l body).
Proof.
  intros Hb. revert i. induction l as [|x l IH]; intros i; simpl.
  - apply respects_ret.
  - apply respects_bind; [apply Hb|]. intros y.
    apply respects_bind; [apply IH|]. intros ys. apply respects_ret.
Qed.

Lemma respects_when b m : respects R m -> respects R (when b m).
Proof. intros Hm. destruct b; simpl; [done|apply respects_ret]. Qed.

End Respects.

(** One step of a structural proof of [respects]: the combinators, then a
    case analysis of what a [match] or an [if] looks at. *)
Ltac respects_step R_refl R_trans :=
  first
    [ apply (respects_ret _ R_refl)
    | apply (respects_raise _ R_refl)
    | apply (respects_interrupt _ R_refl)
    | apply (respects_get _ R_refl)
    | apply (respects_when _ R_refl)
    | apply (respects_bind _ R_trans); [|intros ?]
    | apply (respects_try_except _ R_trans); [|intros ?]
    | apply (respects_for_each _ R_refl R_trans); intros ?
    | apply (respects_map_M _ R_refl R_trans); intros ? ?
    | match goal with
      | |- respects _ (let _ := _ in _) => cbv zeta
      | |- respects _ (match ?x with _ => _ end) => destruct x
      end ].

(** *** Calls that end without the interrupt, and calls that return *)

Lemma returns_no_interrupt {A} (m : M A) : returns m -> no_interrupt m.
Proof. intros H w. destruct (H w) as [a ->]. done. Qed.

Lemma no_interrupt_ret {A} (a : A) : no_interrupt (ret a).
Proof. by intros w. Qed.

Lemma no_interrupt_raise {A} e : no_interrupt (@raise A e).
Proof. by intros w. Qed.

Lemma no_interrupt_bind {A B} (m : M A) (k : A -> M B) :
  no_interrupt m -> (forall a, no_interrupt (k a)) -> no_interrupt (bind m k).
Proof.
  intros Hm Hk w. unfold bind. specialize (Hm w).
  destruct (m w) as [[a|e|] w']; simpl in *; [apply Hk|done|done].
Qed.

Lemma no_interrupt_try_except {A} (m : M A) handler :
  no_interrupt m -> (forall e, no_interrupt (handler e)) ->
  no_interrupt (try_except m handler).
Proof.
  intros Hm Hh w. unfold try_except. specialize (Hm w).
  destruct (m w) as [[a|e|] w']; simpl in *; [done|apply Hh|done].
Qed.

Lemma returns_ret {A} (a : A) : returns (ret a).
Proof. intros w. by exists a. Qed.

Lemma returns_get {A} (f : World -> A) : returns (get f).
Proof. intros w. by eexists. Qed.

Lemma returns_bind {A B} (m : M A) (k : A -> M B) :
  returns m -> (forall a, returns (k a)) -> returns (bind m k).
Proof.
  intros Hm Hk w. unfold bind. destruct (Hm w) as [a Ha].
  destruct (m w) as [[a'|e|] w']; simpl in *; simplify_eq. apply Hk.
Qed.

Lemma returns_try_except {A} (m : M A) handler :
  no_interrupt m -> (forall e, returns (handler e)) ->
  returns (try_except m handler).
Proof.
  intros Hm Hh w. unfold try_except. specialize (Hm w).
  destruct (m w) as [[a|e|] w']; simpl in *; [by exists a|apply Hh|done].
Qed.

Lemma returns_for_each {A} (l : list A) body :
  (forall x, returns (body x)) -> returns (for_each l body).
Proof.
  intros Hb. induction l as [|x l IH]; simpl.
  - apply returns_ret.
  - apply returns_bind; [apply Hb|done].
Qed.

Lemma returns_map_M {A B} i (l : list A) (body : nat -> A -> M B) :
  (forall i x, returns (body i x)) -> returns (map_M i l body).
Proof.
  intros Hb. revert i. induction l as [|x l IH]; intros i; simpl.
  - apply returns_ret.
  - apply returns_bind; [apply Hb|]. intros y.
    apply returns_bind; [apply IH|]. intros ys. apply returns_ret.
Qed.

Lemma returns_emit e : returns (emit e).
Proof. intros w. by exists tt. Qed.

Lemma returns_update_self f : returns (update_self f).
Proof. intros w. by exists tt. Qed.

Lemma returns_update_disk f : returns (update_disk f).
Proof. intros w. by exists tt. Qed.

Lemma returns_update_worktree_files f : returns (update_worktree_files f).
Proof. intros w. by exists tt. Qed.

Lemma returns_exists_at loc : returns (exists_at loc).
Proof. destruct loc; apply returns_get. Qed.

Lemma returns_write_text loc content : returns (write_text loc content).
Proof. destruct loc; intros w; by exists tt. Qed.

Lemma no_interrupt_read_text loc : no_interrupt (read_text loc).
Proof.
  unfold read_text. apply no_interrupt_bind.
  - destruct loc; apply returns_no_interrupt, returns_get.
  - intros [c|]; [apply no_interrupt_ret|apply no_interrupt_raise].
Qed.

Ltac returns_step :=
  first
    [ apply returns_ret | apply returns_get | apply returns_emit
    | apply returns_update_self | apply returns_update_disk
    | apply returns_update_worktree_files | apply returns_exists_at
    | apply returns_write_text
    | apply returns_bind; [|intros ?]
    | apply returns_for_each; intros ?
    | match goal with
      | |- returns (match ?x with _ => _ end) => destruct x
      end ].

Ltac no_interrupt_step :=
  first
    [ apply no_interrupt_ret | apply no_interrupt_raise
    | apply no_interrupt_read_text
    | apply no_interrupt_bind; [|intros ?]
    | apply no_interrupt_try_except; [|intros ?]
    | match goal with
      | |- no_interrupt (match ?x with _ => _ end) => destruct x
      end
    | apply returns_no_interrupt; progress repeat returns_step ].

(** *** What a call returns *)

Lemma post_ret {A} (Q : A -> Prop) a : Q a -> post Q (ret a).
Proof. intros H w a' [= <-]. done. Qed.

Lemma post_raise {A} (Q : A -> Prop) e : post Q (raise e).
Proof. by intros w a. Qed.

Lemma post_bind {A B} (Q1 : A -> Prop) (Q : B -> Prop) (m : M A) k :
  post Q1 m -> (forall a, Q1 a -> post Q (k a)) -> post Q (bind m k).
Proof.
  intros Hm Hk w b. unfold bind. specialize (Hm w).
  destruct (m w) as [[a|e|] w']; simpl in *; [|done|done].
  apply Hk. by apply Hm.
Qed.

Lemma post_true {A} (m : M A) : post (fun _ => True) m.
Proof. by intros w a _. Qed.

Lemma post_try_except {A} (Q : A -> Prop) (m : M A) handler :
  post Q m -> (forall e, post Q (handler e)) -> post Q (try_except m handler).
Proof.
  intros Hm Hh w a. unfold try_except. specialize (Hm w).
  destruct (m w) as [[a'|e|] w']; simpl in *; [apply Hm|apply Hh|done].
Qed.

(** *** Running a call step by step *)

Lemma run_bind {A B} (m : M A) (k : A -> M B) w a w' :
  m w = (Return a, w') -> bind m k w = k a w'.
Proof. intros H. unfold bind. by rewrite H. Qed.

Lemma run_try_except {A} (m : M A) handler w a w' :
  m w = (Return a, w') -> try_except m handler w = (Return a, w').
Proof. intros H. unfold try_except. by rewrite H. Qed.

Lemma run_try_except_bind {A B} (m : M A) (k : A -> M B) handler w a w' :
  m w = (Return a, w') ->
  try_except (bind m k) handler w = try_except (k a) handler w'.
Proof. intros H. unfold try_except, bind. by rewrite H. Qed.

Lemma run_exists_at_worktree p w content :
  worktree_files w !! p = Some content ->
  exists_at (WorktreeFile p) w = (Return true, w).
Proof. intros H. unfold exists_at, get. by rewrite H. Qed.

Lemma run_read_text_worktree p w content :
  worktree_files w !! p = Some content ->
  read_text (WorktreeFile p) w = (Return content, w).
Proof. intros H. unfold read_text, bind, get. by rewrite H. Qed.

End MonadFacts.

(** ** The workspace manager and the executor *)
Module ExecutorFacts.
Import PyStr Fixer Spec Session MonadFacts.

Lemma create_worktree_returns run : returns (_create_worktree_for_cluster run).
Proof.
  unfold _create_worktree_for_cluster. apply returns_try_except.
  - repeat no_interrupt_step.
  - intros e. apply returns_ret.
Qed.

Lemma cleanup_worktree_returns p : returns (_cleanup_worktree p).
Proof. unfold _cleanup_worktree. repeat returns_step. Qed.

Lemma relative_to_no_interrupt file_path base_path :
  no_interrupt (relative_to file_path base_path).
Proof. unfold relative_to. repeat no_interrupt_step. Qed.

(** The boundary of the executor: neither function lets an exception
    out. *)
Lemma fix_cluster_with_claude_returns loc c run :
  returns (fix_cluster_with_claude loc c run).
Proof.
  unfold fix_cluster_with_claude. apply returns_try_except.
  - repeat no_interrupt_step.
  - intros e. apply returns_ret.
Qed.

Lemma fix_cluster_with_worktree_returns file_path c base_path predicted run :
  returns (fix_cluster_with_worktree file_path c base_path predicted run).
Proof.
  unfold fix_cluster_with_worktree.
  apply returns_bind; [apply create_worktree_returns|].
  intros [p|]; [|apply returns_ret].
  apply returns_try_except.
  - apply no_interrupt_bind; [apply relative_to_no_interrupt|]. intros rel.
    apply no_interrupt_bind;
      [apply returns_no_interrupt, returns_exists_at|]. intros present.
    destruct present; simpl.
    + apply no_interrupt_bind; [apply no_interrupt_read_text|]. intros content.
      apply no_interrupt_bind.
      { destruct (last predicted) as [[? ?]|];
          apply returns_no_interrupt; repeat returns_step. }
      intros _. apply no_interrupt_bind.
      { apply returns_no_interrupt, fix_cluster_with_claude_returns. }
      intros result. repeat no_interrupt_step.
    + apply returns_no_interrupt.
      apply returns_bind; [apply cleanup_worktree_returns|].
      intros _. apply returns_ret.
  - intros e. apply returns_bind; [apply cleanup_worktree_returns|].
    intros _. apply returns_ret.
Qed.

Lemma fix_cluster_with_claude_post loc c run :
  post (agent_result run) (fix_cluster_with_claude loc c run).
Proof.
  unfold fix_cluster_with_claude. apply post_try_except.
  - eapply post_bind; [apply post_true|]. intros _ _.
    destruct (agent run) as [rc stderr stdout after|e after] eqn:Ha.
    + eapply post_bind; [apply post_true|]. intros _ _.
      destruct (decide (rc = 0)) as [->|Hrc].
      * eapply post_bind; [apply post_true|]. intros fixed _.
        apply post_ret. split; [done|]. intros _. eauto.
      * apply post_ret. split; [by eauto|done].
    + eapply post_bind; [apply post_true|]. intros _ _. apply post_raise.
  - intros e. apply post_ret. split; [by eauto|done].
Qed.

Lemma create_worktree_post run :
  post (fun created => forall p, created = Some p -> worktree_add run = Created p)
       (_create_worktree_for_cluster run).
Proof.
  unfold _create_worktree_for_cluster. apply post_try_except.
  - destruct (worktree_add run) as [p| |e].
    + eapply post_bind; [apply post_true|]. intros _ _.
      eapply post_bind; [apply post_true|]. intros _ _.
      eapply post_bind; [apply post_true|]. intros _ _.
      apply post_ret. by intros ? [= ->].
    + by apply post_ret.
    + apply post_raise.
  - intros e. by apply post_ret.
Qed.

Lemma fix_cluster_with_worktree_post file_path c base_path predicted run :
  post (worktree_result run)
       (fix_cluster_with_worktree file_path c base_path predicted run).
Proof.
  unfold fix_cluster_with_worktree.
  eapply post_bind; [apply create_worktree_post|].
  intros [p|] Hp; [|apply post_ret; split; [by eauto|done]].
  specialize (Hp p eq_refl).
  apply post_try_except.
  - eapply post_bind; [apply post_true|]. intros rel _.
    eapply post_bind; [apply post_true|]. intros present _.
    destruct present; simpl.
    + eapply post_bind; [apply post_true|]. intros content _.
      eapply post_bind; [apply post_true|]. intros _ _.
      eapply post_bind; [apply fix_cluster_with_claude_post|].
      intros result [Hfail Hok].
      destruct (success result) eqn:Hs.
      * destruct (git_diff run) as [rc out|e] eqn:Hd; [|apply post_raise].
        apply post_ret. split; [simpl; congruence|]. intros _.
        simpl. split; [by eauto|]. split; [by apply Hok|by eauto].
      * apply post_ret. split; [intros _; by apply Hfail|congruence].
    + eapply post_bind; [apply post_true|]. intros _ _.
      apply post_ret. split; [by eauto|done].
  - intros e. eapply post_bind; [apply post_true|]. intros _ _.
    apply post_ret. split; [by eauto|done].
Qed.

(** A fix attempt in a worktree returns a result that says the above. *)
Lemma fix_cluster_with_worktree_result file_path c base_path predicted run w :
  exists r,
    (fix_cluster_with_worktree file_path c base_path predicted run w).1
    = Return r
    /\ worktree_result run r.
Proof.
  destruct (fix_cluster_with_worktree_returns file_path c base_path predicted
              run w) as [r Hr].
  exists r. split; [done|].
  by apply (fix_cluster_with_worktree_post file_path c base_path predicted run w).
Qed.

(** Workspace creation failure, an agent that exits with another status
    than 0 or raises (a timeout), and a [git diff] that raises all give
    [success = False] and an error. *)
Lemma fix_cluster_error_conditions file_path c base_path predicted run w :
  (worktree_add run = AddFailed
   \/ (exists e, worktree_add run = AddRaised e)
   \/ (exists rc stderr stdout after,
         agent run = AgentExit rc stderr stdout after /\ rc <> 0)
   \/ (exists e after, agent run = AgentRaised e after)
   \/ (exists e, git_diff run = DiffRaised e)) ->
  exists r,
    (fix_cluster_with_worktree file_path c base_path predicted run w).1
    = Return r
    /\ success r = false /\ is_Some (error r).
Proof.
  intros Hcond.
  destruct (fix_cluster_with_worktree_result file_path c base_path predicted
              run w) as (r & Hr & Hfail & Hok).
  exists r. split; [done|].
  destruct (success r) eqn:Hs; [exfalso|by auto].
  destruct (Hok eq_refl) as ((p & Hp & _) & (e1 & o1 & a1 & Ha)
                             & (rc & out & Hd & _)).
  destruct Hcond as [H|[[e H]|[(rc' & e2 & o2 & a2 & H & Hne)|[(e & a & H)|[e H]]]]];
    congruence.
Qed.

(** The target file missing in the new worktree ([HEAD] does not have
    it) gives [success = False] and an error as well. *)
Lemma fix_cluster_file_missing file_path c base_path predicted run w p :
  worktree_add run = Created p -> head_content run = None ->
  exists r,
    (fix_cluster_with_worktree file_path c base_path predicted run w).1
    = Return r
    /\ success r = false /\ is_Some (error r).
Proof.
  intros Hadd Hhead.
  unfold fix_cluster_with_worktree, _create_worktree_for_cluster.
  rewrite Hadd, Hhead. unfold try_except, bind, emit, ret, update_self. simpl.
  unfold relative_to.
  destruct (strip_prefix _ _) as [rest|]; unfold bind, ret, raise; simpl.
  - rewrite lookup_delete_eq. simpl. eexists. split; [reflexivity|]. by eauto.
  - eexists. split; [reflexivity|]. by eauto.
Qed.

(** *** The commands of a fix attempt *)

(** The agent at work on the copy of the file in a worktree: the call
    returns, its one command is the call of the agent, and it reports
    success exactly when the agent exits with 0. *)
Lemma run_fix_cluster_in_worktree p c run w content :
  worktree_files w !! p = Some content ->
  exists r files,
    fix_cluster_with_claude (WorktreeFile p) c run w
    = (Return r,
       {| self := self w; disk := disk w; worktree_files := files;
          trace := trace w ++ [AgentFix (WorktreeFile p) c] |})
    /\ success r
       = match agent run with
         | AgentExit returncode _ _ _ => bool_decide (returncode = 0)
         | AgentRaised _ _ => false
         end.
Proof.
  intros Hfile. unfold fix_cluster_with_claude.
  set (w1 := {| self := self w; disk := disk w;
                worktree_files := worktree_files w;
                trace := trace w ++ [AgentFix (WorktreeFile p) c] |}).
  assert (forall after, exists files,
            (present <- exists_at (WorktreeFile p) ;;
             if present
             then old <- read_text (WorktreeFile p) ;;
                  write_text (WorktreeFile p) (after old)
             else ret tt) w1
            = (Return tt,
               {| self := self w; disk := disk w; worktree_files := files;
                  trace := trace w1 |})
            /\ is_Some (files !! p)) as Hedit.
  { intros after. eexists. split.
    - erewrite run_bind by exact (run_exists_at_worktree p w1 content Hfile).
      cbv iota.
      erewrite run_bind by exact (run_read_text_worktree p w1 content Hfile).
      reflexivity.
    - rewrite lookup_insert_eq. by eexists. }
  destruct (agent run) as [rc stderr stdout after|e after].
  - destruct (Hedit after) as (files & Hrun & [fixed Hfixed]).
    destruct (decide (rc = 0)) as [->|Hrc].
    + eexists _, files. split.
      * apply run_try_except.
        erewrite run_bind by reflexivity. fold w1.
        erewrite run_bind by exact Hrun.
        erewrite run_bind by (by apply (run_read_text_worktree p _ fixed)).
        reflexivity.
      * done.
    + eexists _, files. split.
      * apply run_try_except.
        erewrite run_bind by reflexivity. fold w1.
        erewrite run_bind by exact Hrun.
        reflexivity.
      * simpl. by rewrite bool_decide_false.
  - destruct (Hedit after) as (files & Hrun & _).
    eexists _, files. split.
    + unfold try_except.
      erewrite run_bind by reflexivity. fold w1.
      erewrite run_bind by exact Hrun.
      reflexivity.
    + done.
Qed.

(** The commands of a fix attempt in a worktree, for a file that lies
    under the root: the attempt returns, and what it has run is the list
    [attempt_events]. *)
Lemma fix_cluster_with_worktree_events file_path c base_path predicted run w :
  is_Some (strip_prefix (lit base_path ++ lit "/") (lit file_path)) ->
  trace (fix_cluster_with_worktree file_path c base_path predicted run w).2
  = trace w ++ attempt_events run c.
Proof.
  intros [rest Hrel].
  unfold fix_cluster_with_worktree, attempt_events, discards_own.
  destruct (worktree_add run) as [p| |e] eqn:Hadd.
  2:{ unfold _create_worktree_for_cluster. rewrite Hadd. simpl.
      by rewrite app_nil_r. }
  2:{ unfold _create_worktree_for_cluster. rewrite Hadd. simpl.
      by rewrite app_nil_r. }
  set (w1 := {| self := set_active (_active_worktrees (self w) ++ [p]) (self w);
                disk := disk w;
                worktree_files :=
                  match head_content run with
                  | Some head => <[p := head]> (worktree_files w)
                  | None => delete p (worktree_files w)
                  end;
                trace := trace w ++ [WorktreeAdd p] |}).
  assert (_create_worktree_for_cluster run w = (Return (Some p), w1)) as Hcreate.
  { unfold _create_worktree_for_cluster. rewrite Hadd. unfold w1.
    by destruct (head_content run). }
  erewrite run_bind by exact Hcreate.
  unfold relative_to. rewrite Hrel.
  erewrite run_try_except_bind by reflexivity.
  destruct (head_content run) as [head|] eqn:Hhead.
  - assert (worktree_files w1 !! p = Some head) as Hfile1
      by apply lookup_insert_eq.
    erewrite run_try_except_bind
      by exact (run_exists_at_worktree p w1 head Hfile1).
    cbn [negb].
    erewrite run_try_except_bind
      by exact (run_read_text_worktree p w1 head Hfile1).
    (* The predicted fixes are written to the copy. *)
    assert (exists w2 content,
              (match last predicted with
               | Some (_, fixed) => write_text (WorktreeFile p) fixed
               | None => ret tt
               end) w1 = (Return tt, w2)
              /\ worktree_files w2 !! p = Some content
              /\ trace w2 = trace w1) as (w2 & content & Hwrite & Hfile2 & Ht2).
    { destruct (last predicted) as [[i fixed]|].
      - eexists _, fixed. split; [reflexivity|]. split; [|done].
        apply lookup_insert_eq.
      - by exists w1, head. }
    erewrite run_try_except_bind by exact Hwrite.
    destruct (run_fix_cluster_in_worktree p c run w2 content Hfile2)
      as (r & files & Hrun & Hsuccess).
    erewrite run_try_except_bind by exact Hrun.
    rewrite Hsuccess.
    destruct (agent run) as [rc stderr stdout after|e after].
    + destruct (bool_decide (rc = 0)).
      * destruct (git_diff run) as [rc' out|e]; simpl; rewrite Ht2; simpl;
          by rewrite <- !app_assoc.
      * simpl. rewrite Ht2. simpl. rewrite <- !app_assoc.
        by destruct (git_diff run).
    + simpl. rewrite Ht2. simpl. by rewrite <- !app_assoc.
  - assert (worktree_files w1 !! p = None) as Hfile1
      by apply lookup_delete_eq.
    assert (exists_at (WorktreeFile p) w1 = (Return false, w1)) as Hexists.
    { unfold exists_at, get. rewrite Hfile1. by rewrite bool_decide_false. }
    erewrite run_try_except_bind by exact Hexists.
    simpl. by rewrite <- !app_assoc.
Qed.

(** C6 at the input where the code leaves the claim: the worktree is
    created, the agent exits with 0, and [git diff] exits with 128 and
    prints nothing.  The attempt is reported as a success, without error
    and with an empty patch. *)
Theorem fix_cluster_diff_failure_succeeds :
  let run := {| worktree_add := Created "wt";
                head_content := Some (lit "x = 1");
                agent := AgentExit 0 [] [] (fun content => content ++ lit "0");
                git_diff := DiffExit 128 [] |} in
  let c := _create_cluster [issue_at 1] in
  exists r,
    (fix_cluster_with_worktree "/r/a.py" c "/r" [] run
       (initial_world default_fixer ∅)).1 = Return r
    /\ success r = true /\ error r = None /\ patch r = Some [].
Proof.
  intros run c. eexists. split; [vm_compute; reflexivity|]. done.
Qed.

End ExecutorFacts.

(** ** The merge engine *)
Module MergeFacts.
Import PyStr Fixer Spec Session MonadFacts ClusterFacts.

Lemma apply_patches_applied run file_path all todo w w' :
  applied run file_path todo w w' ->
  apply_patches run file_path all todo w = (Return None, w').
Proof.
  induction 1 as [w|r l w w' Hp _ IH|r l p after w w' Hp Hne Hg _ IH]; simpl.
  - done.
  - destruct Hp as [-> | ->]; exact IH.
  - rewrite Hp. destruct p as [|a p]; [done|].
    unfold bind at 1. simpl. unfold bind at 1. simpl.
    rewrite Hg. unfold bind at 1. simpl. exact IH.
Qed.

Lemma apply_patches_failed run file_path all done r rest p rc after w w1 :
  applied run file_path done w w1 ->
  patch r = Some p -> p <> [] ->
  git_apply run p (default [] (disk w1 !! file_path)) = ApplyExit rc after ->
  rc <> 0 ->
  apply_patches run file_path all (done ++ r :: rest) w
  = (merged <- _merge_with_claude run file_path all ;; ret (Some merged))
      (patched file_path p after w1).
Proof.
  intros Happ Hp Hne Hg Hrc.
  induction Happ as [w|r' l w w' Hp' _ IH|r' l p' after' w w' Hp' Hne' Hg' _ IH];
    simpl.
  - rewrite Hp. destruct p as [|a p]; [done|].
    unfold bind at 1. simpl. unfold bind at 1. simpl.
    rewrite Hg. unfold bind at 1. simpl.
    by rewrite decide_False.
  - destruct Hp' as [-> | ->]; by apply IH.
  - rewrite Hp'. destruct p' as [|a p']; [done|].
    unfold bind at 1. simpl. unfold bind at 1. simpl.
    rewrite Hg'. unfold bind at 1. simpl. by apply IH.
Qed.

(** Every run of the loop is of one of three kinds: all applications
    succeed, one fails after the ones before it succeeded, or one
    raises. *)
Lemma apply_patches_cases run file_path todo w :
  (exists w', applied run file_path todo w w')
  \/ (exists done r rest p w1 outcome,
        todo = done ++ r :: rest
        /\ applied run file_path done w w1
        /\ patch r = Some p /\ p <> []
        /\ git_apply run p (default [] (disk w1 !! file_path)) = outcome
        /\ forall after, outcome <> ApplyExit 0 after).
Proof.
  revert w. induction todo as [|r todo IH]; intros w.
  - left. eexists. constructor.
  - destruct (patch r) as [[|a p]|] eqn:Hp.
    + destruct (IH w) as [[w' H]|(done & r' & rest & p' & w1 & o & -> & H & ?)].
      * left. exists w'. apply applied_none; auto.
      * right. exists (r :: done), r', rest, p', w1, o.
        split; [done|]. split; [|done]. apply applied_none; auto.
    + destruct (git_apply run (a :: p) (default [] (disk w !! file_path)))
        as [rc after|e] eqn:Hg.
      * destruct (decide (rc = 0)) as [->|Hrc].
        -- destruct (IH (patched file_path (a :: p) after w))
             as [[w' H]|(done & r' & rest & p' & w1 & o & -> & H & ?)].
           ++ left. exists w'. by eapply applied_patch.
           ++ right. exists (r :: done), r', rest, p', w1, o.
              split; [done|]. split; [|done]. by eapply applied_patch.
        -- right. exists [], r, todo, (a :: p), w, (ApplyExit rc after).
           repeat split; try done. constructor. congruence.
      * right. exists [], r, todo, (a :: p), w, (ApplyRaised e).
        repeat split; try done. constructor.
    + destruct (IH w) as [[w' H]|(done & r' & rest & p' & w1 & o & -> & H & ?)].
      * left. exists w'. apply applied_none; auto.
      * right. exists (r :: done), r', rest, p', w1, o.
        split; [done|]. split; [|done]. apply applied_none; auto.
Qed.

Lemma bind_Some_ret {A} (m : M A) (d : A) w :
  bind (bind m (fun a => ret (Some a)))
       (fun returned => match returned with
                        | Some b => ret b
                        | None => ret d
                        end) w
  = m w.
Proof. unfold bind, ret. by destruct (m w) as [[a|e|] w']. Qed.

(** *** The merge by the agent *)

Lemma versions_in_code files results :
  omap (fun r =>
          if success r then
            match worktree_path r with
            | Some p => match files !! p with
                        | Some content => Some (cluster r, content)
                        | None => None
                        end
            | None => None
            end
          else None)
       results
  = versions_in files results.
Proof.
  unfold versions_in. induction results as [|r results IH]; [done|].
  cbn [omap list_omap]. rewrite IH.
  destruct (success r); [|done]. destruct (worktree_path r) as [p|]; [|done].
  simpl. by destruct (files !! p).
Qed.

(** What [_merge_with_claude] does when the file reads [current]: with
    no version it answers [False] at once; otherwise it asks the agent to
    merge the versions, and answers [True] when the agent exits with 0. *)
Lemma merge_with_claude_run run file_path results current w :
  disk w !! file_path = Some current ->
  let versions := versions_in (worktree_files w) results in
  _merge_with_claude run file_path results w
  = match versions with
    | [] => (Return false, w)
    | _ :: _ =>
        match agent_merge run versions current with
        | MergeExit returncode content =>
            (Return (bool_decide (returncode = 0)),
             left_with file_path content (asked_to_merge versions w))
        | MergeRaised _ => (Return false, asked_to_merge versions w)
        end
    end.
Proof.
  intros Hdisk versions. unfold _merge_with_claude, try_except.
  unfold bind at 1. unfold read_text, bind at 1, get at 1. rewrite Hdisk.
  unfold ret at 1. unfold bind at 1, get at 1.
  rewrite versions_in_code. fold versions.
  destruct versions as [|v versions]; [done|].
  unfold bind at 1, emit at 1.
  by destruct (agent_merge run (v :: versions) current).
Qed.

Lemma applied_keeps_files run file_path results w w' :
  applied run file_path results w w' -> worktree_files w' = worktree_files w.
Proof. induction 1; done. Qed.

Lemma versions_in_all files results :
  all_versions files results ->
  map fst (versions_in files results) = map cluster results.
Proof.
  unfold versions_in. induction 1 as [|r results (Hs & p & Hp & c & Hc) _ IH];
    [done|].
  cbn [omap list_omap]. rewrite Hs, Hp. simpl. rewrite Hc. simpl.
  by rewrite IH.
Qed.

(** C7 (sequential-patch).  Under the 'sequential' strategy the results are
    sorted by the start line of their clusters, ascending (a permutation of
    the results, equal start lines keeping their order).  When the patches,
    applied in that order with [git apply --3way --whitespace=fix], all
    apply, the merge returns [True] in the world they leave.  When an
    application fails after the ones before it succeeded, no further patch
    is applied and the agent is asked to merge: it is given the version of
    every result of the sorted list whose worktree holds a copy of the
    file, those already applied and those still to come alike, and the
    file as the failed application left it; the merge returns [True] when
    the agent exits with 0 and [False] when it exits otherwise, raises, or
    has no version to merge.  When every result has its copy, the agent is
    given the whole sorted list. *)
Theorem sequential_patch_merge
    (run : FileRun) (file_path : string) (results : list FixResult) (w : World) :
  worktree_merge_strategy (self w) = lit "sequential" ->
  results <> [] ->
  let sorted_results := sorted (fun r => start_line (cluster r)) results in
  let versions := versions_in (worktree_files w) sorted_results in
  sorted_results ≡ₚ results
  /\ ascending (fun r => start_line (cluster r)) sorted_results
  /\ (forall w', applied run file_path sorted_results w w' ->
        _merge_worktree_fixes run file_path results w = (Return true, w'))
  /\ (forall done r rest p rc after w1,
        sorted_results = done ++ r :: rest ->
        applied run file_path done w w1 ->
        patch r = Some p -> p <> [] ->
        git_apply run p (default [] (disk w1 !! file_path))
        = ApplyExit rc after ->
        rc <> 0 ->
        let w2 := patched file_path p after w1 in
        _merge_worktree_fixes run file_path results w
        = match versions with
          | [] => (Return false, w2)
          | _ :: _ =>
              match agent_merge run versions after with
              | MergeExit returncode content =>
                  (Return (bool_decide (returncode = 0)),
                   left_with file_path content (asked_to_merge versions w2))
              | MergeRaised _ => (Return false, asked_to_merge versions w2)
              end
          end)
  /\ (all_versions (worktree_files w) results ->
      map fst versions = map cluster sorted_results).
Proof.
  intros Hs Hne sorted_results versions.
  split; [apply sorted_perm|]. split; [apply sorted_ascending|].
  assert (_merge_worktree_fixes run file_path results w
          = bind (apply_patches run file_path sorted_results sorted_results)
                 (fun returned => match returned with
                                  | Some b => ret b
                                  | None => ret true
                                  end) w) as Hunfold.
  { unfold _merge_worktree_fixes.
    destruct results as [|r0 results]; [done|].
    unfold bind at 1, get at 1. rewrite Hs.
    rewrite decide_False by (by vm_compute).
    by rewrite decide_True. }
  split; [|split].
  - intros w' Happ. rewrite Hunfold. unfold bind.
    by rewrite (apply_patches_applied _ _ _ _ _ _ Happ).
  - intros done r rest p rc after w1 Hsplit Happ Hp Hpne Hg Hrc w2.
    rewrite Hunfold. unfold bind at 1.
    rewrite Hsplit at 2.
    rewrite (apply_patches_failed _ _ _ _ _ _ _ _ _ _ _ Happ Hp Hpne Hg Hrc).
    fold (bind (merged <- _merge_with_claude run file_path sorted_results ;;
                ret (Some merged))
               (fun returned => match returned with
                                | Some b => ret b
                                | None => ret true
                                end)
               (patched file_path p after w1)).
    rewrite bind_Some_ret. fold w2.
    rewrite (merge_with_claude_run run file_path sorted_results after w2)
      by apply lookup_insert_eq.
    cbv zeta. change (worktree_files w2) with (worktree_files w1).
    rewrite (applied_keeps_files _ _ _ _ _ Happ). by fold versions.
  - intros Hall. apply versions_in_all. unfold all_versions, sorted_results.
    by rewrite (sorted_perm (fun r => start_line (cluster r)) results).
Qed.

(** C7 on Scenario C of the specification: three successful results,
    handed over out of order.  When their patches all apply, they are
    applied in the order of the lines 10, 20, 30.  When the second
    application fails, the third patch is not applied and the agent merges
    the three results together, the first one included. *)
Lemma sequential_patch_merge_witness :
  let results := [patch_result 30 "+c" "w3"; patch_result 10 "+a" "w1";
                  patch_result 20 "+b" "w2"] in
  let w := {| self := session_fixer true "sequential" true 10 10;
              disk := {[ "a.py"%string := lit "base" ]};
              worktree_files := {[ "w1"%string := lit "a"; "w2"%string := lit "b";
                                   "w3"%string := lit "c" ]};
              trace := [] |} in
  let failing := {| git_root := git_root (smooth_run None);
                    cluster_run := cluster_run (smooth_run None);
                    git_apply := fun p content =>
                      if decide (p = lit "+b") then ApplyExit 1 content
                      else ApplyExit 0 (content ++ p);
                    agent_merge := agent_merge (smooth_run None);
                    git_branch := git_branch (smooth_run None);
                    git_merge := git_merge (smooth_run None);
                    interrupted := false |} in
  let all_apply := _merge_worktree_fixes (smooth_run None) "a.py" results w in
  let one_fails := _merge_worktree_fixes failing "a.py" results w in
  (all_apply.1 = Return true
   /\ trace all_apply.2
      = [GitApply ["--3way"; "--whitespace=fix"]%string (lit "+a");
         GitApply ["--3way"; "--whitespace=fix"]%string (lit "+b");
         GitApply ["--3way"; "--whitespace=fix"]%string (lit "+c")]
   /\ disk all_apply.2 !! "a.py"%string = Some (lit "base+a+b+c"))
  /\ (one_fails.1 = Return true
      /\ trace one_fails.2
         = [GitApply ["--3way"; "--whitespace=fix"]%string (lit "+a");
            GitApply ["--3way"; "--whitespace=fix"]%string (lit "+b");
            AgentMerge (map cluster [patch_result 10 "+a" "w1";
                                     patch_result 20 "+b" "w2";
                                     patch_result 30 "+c" "w3"])]
      /\ disk one_fails.2 !! "a.py"%string = Some (lit "base+a#merged")).
Proof.
  intros results w failing all_apply one_fails.
  assert (results <> []) as Hne by done.
  split.
  - destruct (sequential_patch_merge (smooth_run None) "a.py" results w
                eq_refl Hne) as (_ & _ & Hall & _).
    assert (all_apply
            = (Return true,
               patched "a.py" (lit "+c") (lit "base+a+b+c")
                 (patched "a.py" (lit "+b") (lit "base+a+b")
                    (patched "a.py" (lit "+a") (lit "base+a") w)))) as ->.
    { apply Hall.
      eapply (applied_patch _ _ (patch_result 10 "+a" "w1")); [done|done|done|].
      eapply (applied_patch _ _ (patch_result 20 "+b" "w2")); [done|done|done|].
      eapply (applied_patch _ _ (patch_result 30 "+c" "w3")); [done|done|done|].
      apply applied_nil. }
    split; [done|]. split; [done|]. vm_compute. exact eq_refl.
  - destruct (sequential_patch_merge failing "a.py" results w eq_refl Hne)
      as (_ & _ & _ & Hfallback & _).
    assert (applied failing "a.py" [patch_result 10 "+a" "w1"] w
              (patched "a.py" (lit "+a") (lit "base+a") w)) as Happ.
    { eapply (applied_patch _ _ (patch_result 10 "+a" "w1")); [done|done|done|].
      apply applied_nil. }
    unfold one_fails.
    rewrite (Hfallback [patch_result 10 "+a" "w1"] (patch_result 20 "+b" "w2")
               [patch_result 30 "+c" "w3"] (lit "+b") 1 (lit "base+a")
               _ eq_refl Happ eq_refl ltac:(done) eq_refl ltac:(done)).
    vm_compute. repeat split; exact eq_refl.
Defined.

End MergeFacts.

(** ** The auto-fixer *)
Module AutoFixFacts.
Import PyStr AutoFix.

Lemma create_backup_Some self file_path timestamp copy_fails files b files1 :
  create_backup self file_path timestamp copy_fails files = (Some b, files1) ->
  exists content,
    files !! file_path = Some content
    /\ files1 = <[b := content]> files.
Proof.
  unfold create_backup, copy2.
  destruct (files !! file_path) as [content|] eqn:E; [|done].
  destruct copy_fails; [done|].
  intros [= <- <-]. by exists content.
Qed.





End AutoFixFacts.

(** ** The session *)
Module SessionFacts.
Import PyStr Fixer Spec Props Session MonadFacts ExecutorFacts.

(** *** Relations that every step of a session keeps *)
Section SessionRespects.
Context (R : World -> World -> Prop).
Context (R_refl : forall w, R w w).
Context (R_trans : forall w1 w2 w3, R w1 w2 -> R w2 w3 -> R w1 w3).
Context (R_emit : forall e,
  match e with
  | GitApply _ _ | AgentMerge _ | GitBranch _ _ | GitMerge _ => True
  | _ => False
  end -> respects R (emit e)).
Context (R_agent : forall loc c, respects R (emit (AgentFix loc c))).
Context (R_disk : forall f, respects R (update_disk f)).
Context (R_files : forall f, respects R (update_worktree_files f)).
Context (R_attempts : forall a, respects R (update_self (set_attempts a))).
Context (R_create : forall run, respects R (_create_worktree_for_cluster run)).
Context (R_cleanup : forall p, respects R (_cleanup_worktree p)).

Local Ltac prim :=
  first [ apply R_emit; exact I | apply R_agent | apply R_disk | apply R_files
        | apply R_attempts | apply R_create | apply R_cleanup ].

Local Ltac step := first [ prim | respects_step R_refl R_trans ].
Local Ltac go := repeat step.

Lemma respects_exists_at loc : respects R (exists_at loc).
Proof. unfold exists_at. go. Qed.

Lemma respects_read_text loc : respects R (read_text loc).
Proof. unfold read_text. go. Qed.

Lemma respects_write_text loc content : respects R (write_text loc content).
Proof. unfold write_text. go. Qed.

Lemma respects_relative_to file_path base : respects R (relative_to file_path base).
Proof. unfold relative_to. go. Qed.

Local Ltac step' :=
  first [ prim | apply respects_exists_at | apply respects_read_text
        | apply respects_write_text | apply respects_relative_to
        | respects_step R_refl R_trans ].
Local Ltac go' := repeat step'.

Lemma respects_fix_cluster_with_claude loc c run :
  respects R (fix_cluster_with_claude loc c run).
Proof. unfold fix_cluster_with_claude. go'. Qed.

Lemma respects_fix_cluster_with_worktree file_path c base predicted run :
  respects R (fix_cluster_with_worktree file_path c base predicted run).
Proof.
  unfold fix_cluster_with_worktree.
  repeat first [ apply respects_fix_cluster_with_claude | step' ].
Qed.

Lemma respects_merge_with_claude run file_path results :
  respects R (_merge_with_claude run file_path results).
Proof. unfold _merge_with_claude. go'. Qed.

Lemma respects_apply_patches run file_path all todo :
  respects R (apply_patches run file_path all todo).
Proof.
  induction todo as [|r todo IH]; simpl.
  - go.
  - repeat first [ exact IH | apply respects_merge_with_claude | step' ].
Qed.

Lemma respects_commit_branches run todo :
  respects R (commit_branches run todo).
Proof.
  induction todo as [|r todo IH]; simpl.
  - go.
  - repeat first [ exact IH | step' ].
Qed.

Lemma respects_merge_worktree_fixes run file_path results :
  respects R (_merge_worktree_fixes run file_path results).
Proof.
  unfold _merge_worktree_fixes.
  repeat first [ apply respects_merge_with_claude
               | apply respects_apply_patches
               | apply respects_commit_branches | step' ].
Qed.

Lemma respects_cleanup_all results : respects R (cleanup_all results).
Proof. unfold cleanup_all. go. Qed.

Lemma respects_write_result file_path issues predicted clusters in_worktrees
    original merged :
  respects R (write_result file_path issues predicted clusters in_worktrees
                original merged).
Proof. unfold write_result. go'. Qed.

(** The parts of a session after the submissions. *)
Lemma respects_after_worktrees run s file_path file_content all_results :
  respects R
    (match filter success all_results with
     | _ :: _ =>
         merge_success <-
           _merge_worktree_fixes run file_path (filter success all_results) ;;
         when (cleanup_worktrees s) (cleanup_all all_results) ;;;
         if merge_success then
           content <- read_text (RealFile file_path) ;;
           ret (Some (content, length (filter success all_results)))
         else
           when (cleanup_worktrees s) (cleanup_all all_results) ;;;
           ret None
     | [] =>
         when (cleanup_worktrees s) (cleanup_all all_results) ;;;
         ret (Some (file_content, 0%nat))
     end).
Proof.
  repeat first [ apply respects_merge_worktree_fixes
               | apply respects_cleanup_all | step' ].
Qed.

(** With the events of the pool as well. *)
Context (R_dispatch : forall e,
  match e with PoolCreate _ | Submit _ => True | _ => False end ->
  respects R (emit e)).

Lemma respects_thread_pool n : respects R (thread_pool n).
Proof. unfold thread_pool. repeat first [ apply R_dispatch; exact I | step ]. Qed.

Lemma respects_run_pool {B} run clusters (task : IssueCluster -> ClusterRun -> M B) :
  (forall c i, respects R (task c (cluster_run run i))) ->
  respects R (run_pool run clusters task).
Proof.
  intros Ht. unfold run_pool.
  repeat first [ apply R_dispatch; exact I | apply Ht | step ].
Qed.



End SessionRespects.

(** *** Workspace accounting *)









Lemma list_remove_subset (p q : string) l :
  In q (list_remove p l) -> In q l.
Proof.
  induction l as [|y l IH]; simpl; [done|].
  destruct (decide (y = p)); [by right|]. intros [->|Hin]; [by left|].
  right. by apply IH.
Qed.










(** *** With [cleanup_worktrees] on or off: no worktree is lost *)














(** *** With [cleanup_worktrees] off: who discards *)













(** The world after the counter of [_fix_single_file] has been raised. *)
Lemma fix_single_file_unfold run file_path issues w :
  let s := self w in
  let attempts := attempts_of file_path w + 1 in
  let w1 := {| self := set_attempts (<[file_path := attempts]> (_fix_attempts s)) s;
               disk := disk w; worktree_files := worktree_files w;
               trace := trace w |} in
  _fix_single_file run file_path issues w
  = (if max_fix_attempts s <? attempts then
       ret (file_failure
              (Some (lit "Max fix attempts (" ++ str_of_int (max_fix_attempts s)
                     ++ lit ") exceeded"))
              (Some (lit "Unable to fix all issues after multiple attempts")))
     else
       try_except (fix_single_file_body run s file_path issues)
                  (fun e => ret (file_failure (Some (exn_str e)) None))) w1.
Proof. reflexivity. Qed.

Section LeftToAttempts.
(** The run of a file, and paths among which are those of the worktrees
    that its attempts discard themselves. *)
Context (own : string -> Prop) (run : FileRun).
Context (own_run : forall j p,
  worktree_add (cluster_run run j) = Created p ->
  discards_own (cluster_run run j) = true -> own p).







End LeftToAttempts.





(** Scenario D of the specification: the agent of the second cluster
    times out; its worktree is discarded all the same, at the end of
    [batch_fix_files]. *)
Example scenario_D :
  let w := initial_world (session_fixer true "claude" true 10 10)
                         {[ "/r/a.py"%string := lit "x = 1" ]} in
  let w' := (batch_fix_files (fun _ => timeout_run)
               [("/r/a.py"%string, [issue_at 10; issue_at 50])] w).2 in
  created (trace w') = ["a"; "b"]%string
  /\ discarded (trace w') = ["a"; "b"]%string
  /\ worktree_files w' = ∅.
Proof. vm_compute. done. Qed.


(** *** The pool *)

Lemma emits_from_refl w : emits_from [] w w.
Proof. exists []. by rewrite app_nil_r. Qed.

Lemma emits_from_app d1 d2 w1 w2 w3 :
  emits_from d1 w1 w2 -> emits_from d2 w2 w3 -> emits_from (d1 ++ d2) w1 w3.
Proof.
  intros (e1 & H1 & F1) (e2 & H2 & F2). exists (e1 ++ e2).
  rewrite H2, H1, <- app_assoc. split; [done|].
  by rewrite filter_app, F1, F2.
Qed.

Lemma emits_from_trans w1 w2 w3 :
  emits_from [] w1 w2 -> emits_from [] w2 w3 -> emits_from [] w1 w3.
Proof. apply (emits_from_app [] []). Qed.

Lemma emits_dispatch e : is_dispatch e = true -> emits [e] (emit e).
Proof.
  intros H w. exists [e]. split; [done|].
  rewrite filter_cons_True by (by rewrite H). done.
Qed.

Lemma emits_quiet e : is_dispatch e = false -> emits [] (emit e).
Proof.
  intros H w. exists [e]. split; [done|].
  rewrite filter_cons_False; [done|]. rewrite H. by intros [].
Qed.

Lemma quiet_event e :
  match e with
  | GitApply _ _ | AgentMerge _ | GitBranch _ _ | GitMerge _ => True
  | _ => False
  end -> respects (emits_from []) (emit e).
Proof. destruct e; try done; intros _; by apply emits_quiet. Qed.

Lemma emits_from_same_trace w w' : trace w' = trace w -> emits_from [] w w'.
Proof. intros H. exists []. by rewrite app_nil_r. Qed.

Lemma quiet_disk f : respects (emits_from []) (update_disk f).
Proof. intros w. by apply emits_from_same_trace. Qed.

Lemma quiet_files f : respects (emits_from []) (update_worktree_files f).
Proof. intros w. by apply emits_from_same_trace. Qed.

Lemma quiet_self f : respects (emits_from []) (update_self f).
Proof. intros w. by apply emits_from_same_trace. Qed.

Lemma quiet_cleanup p : respects (emits_from []) (_cleanup_worktree p).
Proof.
  unfold _cleanup_worktree.
  repeat first
    [ apply (emits_quiet (WorktreeRemove _) eq_refl) | apply quiet_files
    | apply quiet_self | respects_step emits_from_refl emits_from_trans ].
Qed.

Lemma emits_bind_returns {A B} d1 d2 (m : M A) (k : A -> M B) :
  returns m -> emits d1 m -> (forall a, emits d2 (k a)) ->
  emits (d1 ++ d2) (bind m k).
Proof.
  intros Hr Hm Hk w. unfold bind. specialize (Hm w).
  destruct (Hr w) as [a Ha].
  destruct (m w) as [[a'|e|] w']; simpl in *; simplify_eq.
  eapply emits_from_app; [exact Hm|apply Hk].
Qed.

Lemma emits_bind_quiet {A B} d (m : M A) (k : A -> M B) :
  emits d m -> (forall a, emits [] (k a)) -> emits d (bind m k).
Proof.
  intros Hm Hk w. unfold bind. specialize (Hm w).
  destruct (m w) as [[a|e|] w']; simpl in *; [|done|done].
  rewrite <- (app_nil_r d). eapply emits_from_app; [exact Hm|apply Hk].
Qed.

Lemma emits_try_except {A} d (m : M A) handler :
  emits d m -> (forall e, emits [] (handler e)) -> emits d (try_except m handler).
Proof.
  intros Hm Hh w. unfold try_except. specialize (Hm w).
  destruct (m w) as [[a|e|] w']; simpl in *; [done| |done].
  rewrite <- (app_nil_r d). eapply emits_from_app; [exact Hm|apply Hh].
Qed.

Ltac quiet_prims :=
  first [ exact emits_from_refl | exact emits_from_trans | exact quiet_event
        | exact quiet_disk | exact quiet_files | exact quiet_self
        | exact quiet_cleanup | exact (fun a => quiet_self (set_attempts a)) ].

(** A call of the agent is one command: the agent, at the place it is
    given. *)
Lemma emits_fix_cluster_with_claude loc c run :
  emits [AgentFix loc c] (fix_cluster_with_claude loc c run).
Proof.
  unfold fix_cluster_with_claude.
  apply emits_try_except; [|intros e w; apply emits_from_refl].
  change [AgentFix loc c] with ([AgentFix loc c] ++ []).
  apply emits_bind_returns;
    [apply returns_emit|by apply emits_dispatch|]. intros _.
  match goal with |- emits [] ?m => change (respects (emits_from []) m) end.
  repeat first
    [ apply respects_exists_at; quiet_prims
    | apply respects_read_text; quiet_prims
    | apply respects_write_text; quiet_prims
    | respects_step emits_from_refl emits_from_trans ].
Qed.

Lemma dispatch_of_attempt run c :
  filter is_dispatch (attempt_events run c) = attempt_of run c.
Proof.
  unfold attempt_events, attempt_of.
  destruct (worktree_add run); [|done|done].
  by destruct (head_content run), (discards_own run).
Qed.

(** A fix attempt in a worktree makes the worktree of its run, and no
    other, and its agent works in that worktree. *)
Lemma emits_fix_cluster_with_worktree file_path c base predicted run :
  is_Some (strip_prefix (lit base ++ lit "/") (lit file_path)) ->
  emits (attempt_of run c)
        (fix_cluster_with_worktree file_path c base predicted run).
Proof.
  intros Hrel w. exists (attempt_events run c).
  split; [by apply fix_cluster_with_worktree_events|].
  apply dispatch_of_attempt.
Qed.

Lemma emits_map_M_submit {B} (run : FileRun) (file_path : string)
    (in_worktrees : bool) clusters
    (task : IssueCluster -> ClusterRun -> M B) i :
  (forall c r, returns (task c r)) ->
  (forall c r, emits (if in_worktrees then attempt_of r c
                      else [AgentFix (RealFile file_path) c]) (task c r)) ->
  returns (map_M i clusters
             (fun i c => emit (Submit c) ;;; task c (cluster_run run i)))
  /\ emits (dispatch_of run file_path in_worktrees i clusters)
       (map_M i clusters
          (fun i c => emit (Submit c) ;;; task c (cluster_run run i))).
Proof.
  intros Hr Hq. revert i.
  induction clusters as [|c clusters IH]; intros i; simpl.
  - split; [apply returns_ret|]. intros w. apply emits_from_refl.
  - destruct (IH (S i)) as [IHr IHe].
    assert (returns (emit (Submit c) ;;; task c (cluster_run run i))) as Hbr.
    { apply returns_bind; [apply returns_emit|]. intros _. apply Hr. }
    split.
    + apply returns_bind; [exact Hbr|]. intros y.
      apply returns_bind; [exact IHr|]. intros ys. apply returns_ret.
    + change (Submit c
              :: (if in_worktrees then attempt_of (cluster_run run i) c
                  else [AgentFix (RealFile file_path) c])
              ++ dispatch_of run file_path in_worktrees (S i) clusters)
        with (([Submit c]
               ++ (if in_worktrees then attempt_of (cluster_run run i) c
                   else [AgentFix (RealFile file_path) c]))
              ++ dispatch_of run file_path in_worktrees (S i) clusters).
      apply emits_bind_returns; [exact Hbr| |].
      * apply emits_bind_returns;
          [apply returns_emit|by apply (emits_dispatch (Submit c))|].
        intros _. apply Hq.
      * intros y. apply emits_bind_quiet; [exact IHe|].
        intros ys w. apply emits_from_refl.
Qed.

Lemma emits_run_pool {B} (run : FileRun) (file_path : string)
    (in_worktrees : bool) clusters
    (task : IssueCluster -> ClusterRun -> M B) :
  (forall c r, returns (task c r)) ->
  (forall c r, emits (if in_worktrees then attempt_of r c
                      else [AgentFix (RealFile file_path) c]) (task c r)) ->
  emits (dispatch_of run file_path in_worktrees 0 clusters)
        (run_pool run clusters task).
Proof.
  intros Hr Hq. unfold run_pool.
  apply emits_bind_quiet; [by apply emits_map_M_submit|].
  intros results w. destruct (interrupted run); apply emits_from_refl.
Qed.

Lemma quiet_after_worktrees run s file_path file_content all_results :
  emits []
    (match filter success all_results with
     | _ :: _ =>
         merge_success <-
           _merge_worktree_fixes run file_path (filter success all_results) ;;
         when (cleanup_worktrees s) (cleanup_all all_results) ;;;
         if merge_success then
           content <- read_text (RealFile file_path) ;;
           ret (Some (content, length (filter success all_results)))
         else
           when (cleanup_worktrees s) (cleanup_all all_results) ;;;
           ret None
     | [] =>
         when (cleanup_worktrees s) (cleanup_all all_results) ;;;
         ret (Some (file_content, 0%nat))
     end).
Proof. apply respects_after_worktrees; quiet_prims. Qed.

Lemma quiet_write_result file_path issues predicted clusters in_worktrees
    original merged :
  emits [] (write_result file_path issues predicted clusters in_worktrees
              original merged).
Proof. apply respects_write_result; quiet_prims. Qed.

(** The dispatch events of the worktree branch and of the in-memory
    branch. *)
Lemma emits_worktree_branch run s file_path base predicted clusters file_content :
  is_Some (strip_prefix (lit base ++ lit "/") (lit file_path)) ->
  emits (dispatch_of run file_path true 0 (slice_to (max_worktrees s) clusters))
        (worktree_branch run s file_path base predicted clusters file_content).
Proof.
  intros Hrel. pose proof Hrel as [rest Hrest].
  unfold worktree_branch, relative_to. rewrite Hrest.
  change (dispatch_of run file_path true 0 (slice_to (max_worktrees s) clusters))
    with ([] ++ dispatch_of run file_path true 0
                  (slice_to (max_worktrees s) clusters)).
  apply emits_bind_returns; [apply returns_ret| |].
  { intros w. apply emits_from_refl. }
  intros _. apply emits_bind_quiet.
  - apply emits_run_pool.
    + intros c r. apply fix_cluster_with_worktree_returns.
    + intros c r. by apply emits_fix_cluster_with_worktree.
  - intros all_results. apply quiet_after_worktrees.
Qed.

Lemma emits_in_memory_branch run file_path clusters original file_content :
  emits (dispatch_of run file_path false 0 clusters)
        (in_memory_branch run file_path clusters original file_content).
Proof.
  unfold in_memory_branch. apply emits_bind_quiet.
  - apply emits_run_pool.
    + intros c r. apply fix_cluster_with_claude_returns.
    + intros c r. apply emits_fix_cluster_with_claude.
  - intros results w. destruct (filter success results); apply emits_from_refl.
Qed.

Lemma thread_pool_positive n : 0 < n -> thread_pool n = emit (PoolCreate n).
Proof.
  intros H. unfold thread_pool.
  destruct (Z.leb_spec n 0); [lia|done].
Qed.

Lemma cluster_issues_nonempty s remaining :
  remaining <> [] -> cluster_issues s remaining <> [].
Proof.
  intros Hne Hnil.
  pose proof (ClusterFacts.cluster_issues_perm s remaining) as Hperm.
  rewrite Hnil in Hperm. simpl in Hperm.
  apply Permutation_nil_l in Hperm. by subst.
Qed.

(** Where the agents of a dispatch work. *)
Lemma dispatch_of_agent run file_path in_worktrees i clusters loc c :
  In (AgentFix loc c) (dispatch_of run file_path in_worktrees i clusters) ->
  if in_worktrees
  then exists j p,
         clusters !! j = Some c
         /\ worktree_add (cluster_run run (i + j)) = Created p
         /\ loc = WorktreeFile p
  else loc = RealFile file_path.
Proof.
  revert i. induction clusters as [|c0 clusters IH]; intros i; simpl; [done|].
  intros [[=]|[H|H]%in_app_or].
  - destruct in_worktrees.
    + unfold attempt_of in H.
      destruct (worktree_add (cluster_run run i)) as [p| |e] eqn:Hadd;
        [|done|done].
      destruct H as [[=]|H].
      destruct (head_content (cluster_run run i)); [|done].
      destruct H as [[= <- <-]|[]].
      exists 0%nat, p. by rewrite Nat.add_0_r.
    + by destruct H as [[= <- _]|[]].
  - specialize (IH (S i) H). destruct in_worktrees; [|done].
    destruct IH as (j & p & Hj & Hp & ->).
    exists (S j), p. by rewrite Nat.add_succ_r.
Qed.

(** The agents of a dispatch in worktrees work in worktrees that the
    dispatch has made, each in one of its own. *)
Lemma created_dispatch events :
  created (filter is_dispatch events) = created events.
Proof.
  induction events as [|e events IH]; [done|].
  destruct e; simpl; rewrite ?filter_cons_True, ?filter_cons_False by done;
    simpl; by rewrite ?IH.
Qed.

Lemma agent_places_dispatch events :
  agent_places (filter is_dispatch events) = agent_places events.
Proof.
  induction events as [|e events IH]; [done|].
  destruct e; simpl; rewrite ?filter_cons_True, ?filter_cons_False by done;
    simpl; by rewrite ?IH.
Qed.

Lemma agent_places_of_dispatch run file_path i clusters :
  agent_places (dispatch_of run file_path true i clusters)
  `sublist_of` map WorktreeFile
                 (created (dispatch_of run file_path true i clusters)).
Proof.
  revert i. induction clusters as [|c clusters IH]; intros i; [done|].
  cbn [dispatch_of]. unfold agent_places, created in *.
  cbn [omap list_omap]. rewrite !omap_app, map_app.
  apply sublist_app; [|apply IH].
  unfold attempt_of. destruct (worktree_add (cluster_run run i)); [|done|done].
  destruct (head_content (cluster_run run i)); simpl; [done|].
  by apply sublist_cons.
Qed.

(** What [_get_git_root] gives a session in which it does not raise. *)
Lemma git_root_returns s run :
  (use_git_worktrees s = true -> forall e, git_root run <> RootRaised e) ->
  exists root,
    (if use_git_worktrees s then _get_git_root run else ret None) = ret root
    /\ worktree_base s root = worktree_base s (root_of run).
Proof.
  intros Hroot. unfold worktree_base, _get_git_root, root_of.
  destruct (use_git_worktrees s); [|by exists None].
  destruct (git_root run) as [path| |e]; [by exists (Some path)|by exists None|].
  by destruct (Hroot eq_refl e).
Qed.

(** C5 (the pool), as the code has it.  In a session that reaches the
    pool (the attempt budget is not used up, the file can be read, some
    issue is left after the predictions, [max_workers] is positive and, in
    worktree mode, the search for the root of the repository does not
    raise and the file lies under that root), the pool is made with
    [min(max_workers, number of clusters)] workers.  In worktree mode the
    clusters [clusters[:max_worktrees]] are submitted, in this order, and
    no other; each submitted cluster asks for the worktree of its own run
    and its agent, if it is called, works on the copy of the file in that
    worktree, never on the real file; no two agents work in the same
    place, as long as git gives no two worktrees the same path.  Without
    worktrees every cluster is submitted and every agent works on the real
    file. *)
Theorem dispatch_of_session
    (run : FileRun) (file_path : string) (issues : list Issue) (w : World)
    (content : str) (predicted_fixes : list (Issue * str))
    (remaining_issues : list Issue) (file_content : str) :
  let s := self w in
  let clusters := cluster_issues s remaining_issues in
  let base := worktree_base s (root_of run) in
  let submitted := match base with
                   | Some _ => slice_to (max_worktrees s) clusters
                   | None => clusters
                   end in
  default 0 (_fix_attempts s !! file_path) + 1 <= max_fix_attempts s ->
  disk w !! file_path = Some content ->
  predict_pass s issues content
  = (predicted_fixes, remaining_issues, file_content) ->
  remaining_issues <> [] ->
  0 < max_workers s ->
  (use_git_worktrees s = true -> forall e, git_root run <> RootRaised e) ->
  match base with
  | Some base => is_Some (strip_prefix (lit base ++ lit "/") (lit file_path))
  | None => True
  end ->
  exists events,
    trace (_fix_single_file run file_path issues w).2 = trace w ++ events
    /\ filter is_dispatch events
       = PoolCreate (Z.min (max_workers s) (Z.of_nat (length clusters)))
         :: dispatch_of run file_path (bool_decide (is_Some base)) 0 submitted
    /\ (forall loc c,
         In (AgentFix loc c) events ->
         match base with
         | Some _ =>
             exists i p,
               submitted !! i = Some c
               /\ worktree_add (cluster_run run i) = Created p
               /\ loc = WorktreeFile p
         | None => loc = RealFile file_path
         end)
    /\ (is_Some base -> NoDup (created events) -> NoDup (agent_places events)).
Proof.
  intros s clusters base submitted Hbudget Hdisk Hpredict Hrem Hworkers Hroot
    Hunder.
  set (n := Z.min (max_workers s) (Z.of_nat (length clusters))).
  assert (0 < n) as Hn.
  { pose proof (cluster_issues_nonempty s remaining_issues Hrem) as Hc.
    fold clusters in Hc. destruct clusters; [done|]. unfold n. simpl length. lia. }
  set (planned := dispatch_of run file_path (bool_decide (is_Some base)) 0
                    submitted).
  destruct (git_root_returns s run Hroot) as (root & Hstep & Hbase).
  fold base in Hbase.
  (* The pool and the submissions. *)
  assert (emits (PoolCreate n :: planned)
            (thread_pool n ;;;
             match worktree_base s root with
             | Some base =>
                 worktree_branch run s file_path base predicted_fixes clusters
                   file_content
             | None =>
                 in_memory_branch run file_path clusters content file_content
             end)) as Hpool.
  { rewrite thread_pool_positive by done.
    apply (emits_bind_returns [PoolCreate n] planned).
    - apply returns_emit.
    - by apply emits_dispatch.
    - intros _. unfold planned, submitted. rewrite Hbase.
      destruct base as [b|].
      + by apply emits_worktree_branch.
      + apply emits_in_memory_branch. }
  (* The [try] block, from a world in which the file reads [content]. *)
  assert (forall w1, disk w1 !! file_path = Some content ->
            emits_from (PoolCreate n :: planned) w1
              (fix_single_file_body run s file_path issues w1).2) as Hbody.
  { intros w1 Hdisk1. unfold fix_single_file_body.
    unfold bind at 1. unfold read_text, bind at 1, get. simpl. rewrite Hdisk1.
    unfold ret at 1. simpl. rewrite Hpredict.
    destruct remaining_issues as [|i rest]; [done|].
    cbv zeta. fold clusters. fold n. rewrite Hstep.
    unfold bind at 1, ret at 1.
    revert w1 Hdisk1.
    assert (emits (PoolCreate n :: planned)
              (merged <-
                 (thread_pool n ;;;
                  match worktree_base s root with
                  | Some base =>
                      worktree_branch run s file_path base predicted_fixes
                        clusters file_content
                  | None =>
                      in_memory_branch run file_path clusters content
                        file_content
                  end) ;;
               write_result file_path issues predicted_fixes clusters
                 (bool_decide (is_Some (worktree_base s root))) content merged))
      as H.
    { apply emits_bind_quiet; [exact Hpool|].
      intros merged. apply quiet_write_result. }
    intros w1 _. apply H. }
  (* The whole call. *)
  assert (exists events,
            trace (_fix_single_file run file_path issues w).2 = trace w ++ events
            /\ filter is_dispatch events = PoolCreate n :: planned)
    as (events & Ht & Hf).
  { unfold _fix_single_file. unfold bind at 1, get at 1. fold s.
    unfold bind at 1, update_self at 1.
    destruct (Z.ltb_spec (max_fix_attempts s)
                (default 0 (_fix_attempts s !! file_path) + 1)) as [?|_]; [lia|].
    set (w1 := {| self := _; disk := disk w; worktree_files := _;
                  trace := trace w |}).
    assert (emits_from (PoolCreate n :: planned) w1
              (try_except (fix_single_file_body run s file_path issues)
                 (fun e => ret (file_failure (Some (exn_str e)) None)) w1).2)
      as (events & Ht & Hf).
    { unfold try_except. specialize (Hbody w1 Hdisk).
      destruct (fix_single_file_body run s file_path issues w1)
        as [[a|e|] w2]; simpl in *; done. }
    exists events. by split. }
  exists events. split; [done|]. split; [done|]. split.
  - intros loc c Hin.
    assert (In (AgentFix loc c) (PoolCreate n :: planned)) as [[=]|Hplanned].
    { rewrite <- Hf. apply list_elem_of_In, list_elem_of_filter.
      split; [done|by apply list_elem_of_In]. }
    apply dispatch_of_agent in Hplanned.
    destruct base as [b|]; [|done].
    rewrite bool_decide_true in Hplanned by done. exact Hplanned.
  - intros Hbase' Hnodup.
    rewrite <- agent_places_dispatch, Hf.
    rewrite <- created_dispatch, Hf in Hnodup.
    unfold planned in *. rewrite bool_decide_true in * by done.
    eapply sublist_NoDup; [|apply agent_places_of_dispatch].
    apply NoDup_fmap_2; [by intros ? ? [=]|]. exact Hnodup.
Qed.

(** C5 on three clusters, a quota of two worktrees and ten workers. *)
Lemma dispatch_of_session_witness :
  let w := initial_world (session_fixer true "claude" true 10 2)
                         {[ "/r/a.py"%string := lit "x = 1" ]} in
  let issues := [issue_at 10; issue_at 50; issue_at 90] in
  let c10 := _create_cluster [issue_at 10] in
  let c50 := _create_cluster [issue_at 50] in
  exists events,
    trace (_fix_single_file (smooth_run (Some "/r"%string)) "/r/a.py" issues w).2
    = trace w ++ events
    /\ filter is_dispatch events
       = [PoolCreate 3;
          Submit c10; WorktreeAdd "a"; AgentFix (WorktreeFile "a") c10;
          Submit c50; WorktreeAdd "b"; AgentFix (WorktreeFile "b") c50]
    /\ (forall loc c,
         In (AgentFix loc c) events ->
         exists i p,
           [c10; c50] !! i = Some c
           /\ worktree_add (cluster_run (smooth_run (Some "/r"%string)) i)
              = Created p
           /\ loc = WorktreeFile p)
    /\ (is_Some (Some "/r"%string) ->
        NoDup (created events) -> NoDup (agent_places events)).
Proof.
  intros w issues c10 c50.
  apply (dispatch_of_session (smooth_run (Some "/r"%string)) "/r/a.py" issues w
           (lit "x = 1") [] issues (lit "x = 1")).
  - vm_compute. discriminate.
  - vm_compute. exact eq_refl.
  - vm_compute. exact eq_refl.
  - discriminate.
  - reflexivity.
  - intros _ e. discriminate.
  - vm_compute. eauto.
Defined.

(** C5 as worded fails there: the pool has three workers, not
    [min(10, 3, 2) = 2], and the third cluster is not submitted. *)
Lemma pool_size_counterexample :
  let w := initial_world (session_fixer true "claude" true 10 2)
                         {[ "/r/a.py"%string := lit "x = 1" ]} in
  let issues := [issue_at 10; issue_at 50; issue_at 90] in
  let clusters := cluster_issues (self w) issues in
  clusters = [_create_cluster [issue_at 10]; _create_cluster [issue_at 50];
              _create_cluster [issue_at 90]]
  /\ Z.min (Z.min 10 (Z.of_nat (length clusters))) 2 = 2
  /\ filter is_dispatch
       (trace (_fix_single_file (smooth_run (Some "/r"%string)) "/r/a.py"
                 issues w).2)
     = [PoolCreate 3;
        Submit (_create_cluster [issue_at 10]); WorktreeAdd "a";
        AgentFix (WorktreeFile "a") (_create_cluster [issue_at 10]);
        Submit (_create_cluster [issue_at 50]); WorktreeAdd "b";
        AgentFix (WorktreeFile "b") (_create_cluster [issue_at 50])].
Proof. vm_compute. done. Qed.

(** *** The merge without worktrees *)

(** [_merge_cluster_fixes] returns the content of the last successful fix:
    the content with the predicted fixes ([current]) and the fixes before
    the last do not enter it. *)
Lemma merge_cluster_fixes_last original current fixes r :
  _merge_cluster_fixes original current (fixes ++ [r])
  = default [] (fixed_content r).
Proof. unfold _merge_cluster_fixes. by rewrite last_snoc. Qed.

(** C1 at an input where the code leaves the claim, without worktrees
    (the default).  The file has an undefined [json] on line 1, which the
    predictor fixes by an import, and a long line 2, which the agent
    fixes.  Both fixes report success and the result counts one
    prediction, but the file is left with the agent's edit alone: the
    import is not in it, and the predictor would insert it again. *)
Theorem in_memory_merge_drops_prediction :
  let content := lit "print(json.dumps(1))
y = 2" in
  let w := initial_world default_fixer {[ "a.py"%string := content ]} in
  let issues := [undefined_json; issue_at 2] in
  let end_of_session := _fix_single_file (smooth_run None) "a.py" issues w in
  predict_pass default_fixer issues content
  = ([(undefined_json, lit "import json
print(json.dumps(1))
y = 2")], [issue_at 2], lit "import json
print(json.dumps(1))
y = 2")
  /\ (exists r, end_of_session.1 = Return r
                /\ file_success r = true /\ predicted r = Some 1%nat
                /\ claude_calls r = Some 1%nat)
  /\ disk end_of_session.2 !! "a.py"%string
     = Some (lit "print(json.dumps(1))
y = 2#")
  /\ contains (lit "import json") (lit "print(json.dumps(1))
y = 2#") = false
  /\ predict_simple_fix default_fixer undefined_json (lit "print(json.dumps(1))
y = 2#")
     = Some (lit "import json
print(json.dumps(1))
y = 2#").
Proof.
  cbv zeta. split; [vm_compute; exact eq_refl|].
  split; [eexists; split; [vm_compute; exact eq_refl|done]|].
  split; [vm_compute; exact eq_refl|].
  split; vm_compute; exact eq_refl.
Qed.

End SessionFacts.

(** ** The shape of the clusters *)
Module ClusterShape.
Import PyStr Fixer Spec Props ClusterFacts.

(** *** Fingerprints *)

Lemma le_bytes_length n x : length (MD5.le_bytes n x) = n.
Proof. unfold MD5.le_bytes. by rewrite length_map, length_seq. Qed.

Lemma le_bytes_range n x :
  Forall (fun b => 0 <= b < 256) (MD5.le_bytes n x).
Proof.
  unfold MD5.le_bytes. apply Forall_map, Forall_forall. intros i _. simpl.
  apply Z.mod_pos_bound. lia.
Qed.

Lemma digest_bytes msg :
  length (MD5.digest msg) = 16%nat
  /\ Forall (fun b => 0 <= b < 256) (MD5.digest msg).
Proof.
  unfold MD5.digest.
  destruct (fold_left _ _ _) as [[[a b] c] d].
  split.
  - by rewrite !length_app, !le_bytes_length.
  - rewrite !Forall_app. repeat split; apply le_bytes_range.
Qed.

Lemma hex_length bs : length (MD5.hex bs) = (2 * length bs)%nat.
Proof.
  unfold MD5.hex. induction bs as [|b bs IH]; simpl; [done|].
  rewrite IH. lia.
Qed.

Lemma hex_digit_is_hex n :
  0 <= n < 16 -> is_hex_digit (MD5.hex_digit n) = true.
Proof.
  intros Hn. rewrite <- (Z2Nat.id n) by lia.
  assert (Z.to_nat n < 16)%nat as Hk by lia.
  destruct (Z.to_nat n) as [|k]; [reflexivity|].
  do 15 (destruct k as [|k]; [reflexivity|]). lia.
Qed.

Lemma hex_digits bs :
  Forall (fun b => 0 <= b < 256) bs ->
  Forall (fun c => is_hex_digit c = true) (MD5.hex bs).
Proof.
  unfold MD5.hex. induction 1 as [|b bs Hb _ IH]; simpl; [done|].
  constructor; [|constructor; [|done]]; apply hex_digit_is_hex.
  - split; [apply Z.div_pos; lia|apply Z.div_lt_upper_bound; lia].
  - apply Z.mod_pos_bound. lia.
Qed.

Lemma cluster_fingerprint_hex issues :
  length (_get_cluster_fingerprint issues) = 8%nat
  /\ Forall (fun c => is_hex_digit c = true) (_get_cluster_fingerprint issues).
Proof.
  unfold _get_cluster_fingerprint, MD5.hexdigest.
  destruct (digest_bytes (MD5.encode (join (lit "|")
              (map _get_issue_fingerprint issues)))) as [Hlen Hrange].
  split.
  - rewrite length_take, hex_length, Hlen. reflexivity.
  - apply Forall_take. by apply hex_digits.
Qed.

(** With batching on, the fingerprint of every cluster is eight lower-case
    hexadecimal digits, whatever the rules and lines of its issues. *)
Theorem cluster_fingerprint_format (self : ClaudeCodeFixer) (l : list Issue) :
  batch_similar self = true ->
  Forall (fun c => length (fingerprint c) = 8%nat
                   /\ Forall (fun ch => is_hex_digit ch = true) (fingerprint c))
         (cluster_issues self l).
Proof.
  intros Hb. apply cluster_issues_created.
  - intros i Hf. congruence.
  - intros cur _ _. apply cluster_fingerprint_hex.
Qed.

Lemma cluster_fingerprint_format_witness :
  Forall (fun c => length (fingerprint c) = 8%nat
                   /\ Forall (fun ch => is_hex_digit ch = true) (fingerprint c))
         (cluster_issues default_fixer [issue_at 10; issue_at 12; issue_at 50]).
Proof.
  apply (cluster_fingerprint_format default_fixer
           [issue_at 10; issue_at 12; issue_at 50]).
  reflexivity.
Defined.

(** *** The bounds of a cluster *)

Lemma fold_min_le l x : fold_left Z.min l x <= x.
Proof.
  revert x. induction l as [|y l IH]; intros x; simpl; [lia|].
  specialize (IH (Z.min x y)). lia.
Qed.

Lemma fold_min_lower l x y : In y l -> fold_left Z.min l x <= y.
Proof.
  revert x. induction l as [|z l IH]; intros x; simpl; [done|].
  intros [->|H]; [|by apply IH].
  pose proof (fold_min_le l (Z.min x y)). lia.
Qed.

Lemma fold_min_in l x : fold_left Z.min l x = x \/ In (fold_left Z.min l x) l.
Proof.
  revert x. induction l as [|y l IH]; intros x; simpl; [by left|].
  destruct (IH (Z.min x y)) as [H|H]; [|by right; right].
  rewrite H. destruct (Z.min_spec x y) as [[_ ->]|[_ ->]]; [by left|by right; left].
Qed.

Lemma fold_max_ge l x : x <= fold_left Z.max l x.
Proof.
  revert x. induction l as [|y l IH]; intros x; simpl; [lia|].
  specialize (IH (Z.max x y)). lia.
Qed.

Lemma fold_max_upper l x y : In y l -> y <= fold_left Z.max l x.
Proof.
  revert x. induction l as [|z l IH]; intros x; simpl; [done|].
  intros [->|H]; [|by apply IH].
  pose proof (fold_max_ge l (Z.max x y)). lia.
Qed.

Lemma fold_max_in l x : fold_left Z.max l x = x \/ In (fold_left Z.max l x) l.
Proof.
  revert x. induction l as [|y l IH]; intros x; simpl; [by left|].
  destruct (IH (Z.max x y)) as [H|H]; [|by right; right].
  rewrite H. destruct (Z.max_spec x y) as [[_ ->]|[_ ->]]; [by right; left|by left].
Qed.

Lemma py_min_spec l :
  l <> [] -> In (py_min l) l /\ forall y, In y l -> py_min l <= y.
Proof.
  destruct l as [|x l]; [done|]. intros _. simpl. split.
  - destruct (fold_min_in l x) as [->|H]; [by left|by right].
  - intros y [<-|H]; [apply fold_min_le|by apply fold_min_lower].
Qed.

Lemma py_max_spec l :
  l <> [] -> In (py_max l) l /\ forall y, In y l -> y <= py_max l.
Proof.
  destruct l as [|x l]; [done|]. intros _. simpl. split.
  - destruct (fold_max_in l x) as [->|H]; [by left|by right].
  - intros y [<-|H]; [apply fold_max_ge|by apply fold_max_upper].
Qed.

Lemma create_cluster_range cur :
  cur <> [] ->
  let c := _create_cluster cur in
  (forall i, In i (issues c) -> in_range c i)
  /\ (exists i, In i (issues c) /\ get_line i = start_line c)
  /\ (exists i, In i (issues c) /\ get_line i = end_line c).
Proof.
  intros Hne. simpl.
  assert (map get_line cur <> []) as Hm by (by destruct cur).
  destruct (py_min_spec _ Hm) as [Hmin_in Hmin].
  destruct (py_max_spec _ Hm) as [Hmax_in Hmax].
  split; [|split].
  - intros i Hi. unfold in_range. simpl.
    split; [apply Hmin|apply Hmax]; by apply in_map.
  - apply in_map_iff in Hmin_in as (i & E & Hi). by exists i.
  - apply in_map_iff in Hmax_in as (i & E & Hi). by exists i.
Qed.

(** Under every configuration, the bounds of a cluster enclose the lines
    of its issues and are both attained: [start_line] is the least line of
    the cluster's issues and [end_line] the greatest. *)
Theorem cluster_bounds_enclose (self : ClaudeCodeFixer) (l : list Issue) :
  Forall (fun c =>
            (forall i, In i (issues c) -> in_range c i)
            /\ (exists i, In i (issues c) /\ get_line i = start_line c)
            /\ (exists i, In i (issues c) /\ get_line i = end_line c))
         (cluster_issues self l).
Proof.
  apply cluster_issues_created.
  - intros i _. simpl. split; [|split].
    + intros j [<-|[]]. unfold in_range. simpl. lia.
    + exists i. by split; [left|].
    + exists i. by split; [left|].
  - intros cur _ Hne. by apply create_cluster_range.
Qed.

(** *** Proximity clustering cuts the sorted issues into runs *)

Lemma ascending_tail {A} (key : A -> Z) a l :
  ascending key (a :: l) -> ascending key l.
Proof. destruct l; [done|]. by intros [_ H]. Qed.

Lemma ascending_cons_le {A} (key : A -> Z) a l b :
  ascending key (a :: l) -> In b l -> key a <= key b.
Proof.
  revert a. induction l as [|c l IH]; intros a; [done|].
  intros [Hac Hl] [<-|Hb]; [done|].
  specialize (IH c Hl Hb). lia.
Qed.

Lemma ascending_app_le {A} (key : A -> Z) l1 l2 a b :
  ascending key (l1 ++ l2) -> In a l1 -> In b l2 -> key a <= key b.
Proof.
  induction l1 as [|c l1 IH]; [done|].
  rewrite <- app_comm_cons. intros Hasc [<-|Ha] Hb.
  - apply (ascending_cons_le key c (l1 ++ l2)); [done|].
    apply in_or_app. by right.
  - apply IH; [|done|done]. by apply ascending_tail in Hasc.
Qed.

Lemma ranges_ordered_of_ascending clusters :
  Forall (fun c =>
            (exists i, In i (issues c) /\ get_line i = start_line c)
            /\ (exists i, In i (issues c) /\ get_line i = end_line c))
         clusters ->
  ascending get_line (concat (map issues clusters)) ->
  ranges_ordered clusters.
Proof.
  induction 1 as [|c1 rest [_ (i & Hi & Ei)] Hrest IH]; [done|].
  destruct rest as [|c2 rest]; [done|].
  simpl. intros Hasc. split.
  - inversion Hrest as [|? ? [(j & Hj & Ej) _] _]; subst.
    rewrite <- Ei, <- Ej.
    apply (ascending_app_le get_line (issues c1)
             (issues c2 ++ concat (map issues rest))); [done|done|].
    apply in_or_app. by left.
  - apply IH. by apply ascending_app_r in Hasc.
Qed.

(** Under the proximity strategy the clusters are consecutive runs of the
    issues sorted by line (a stable sort): read one after the other they
    give the sorted list, and each cluster ends at or before the line on
    which the next one starts. *)
Theorem proximity_clusters_in_line_order
    (self : ClaudeCodeFixer) (l : list Issue) :
  batch_similar self = true ->
  clustering_strategy self <> lit "similarity" ->
  clustering_strategy self <> lit "hybrid" ->
  concat (map issues (cluster_issues self l)) = sorted get_line l
  /\ ranges_ordered (cluster_issues self l).
Proof.
  intros Hb Hs Hh.
  assert (concat (map issues (cluster_issues self l)) = sorted get_line l) as E.
  { unfold cluster_issues. rewrite Hb. simpl.
    rewrite !decide_False by done.
    unfold _cluster_by_proximity. by rewrite cluster_loop_concat. }
  split; [done|].
  apply ranges_ordered_of_ascending.
  - apply cluster_issues_created.
    + intros i Hf. congruence.
    + intros cur _ Hne. by apply create_cluster_range.
  - rewrite E. apply sorted_ascending.
Qed.

Lemma proximity_clusters_in_line_order_witness :
  concat (map issues (cluster_issues default_fixer
                        [issue_at 50; issue_at 10; issue_at 12]))
  = sorted get_line [issue_at 50; issue_at 10; issue_at 12]
  /\ ranges_ordered (cluster_issues default_fixer
                       [issue_at 50; issue_at 10; issue_at 12]).
Proof.
  apply (proximity_clusters_in_line_order default_fixer
           [issue_at 50; issue_at 10; issue_at 12]).
  - reflexivity.
  - discriminate.
  - discriminate.
Defined.

(** *** No cut of the proximity strategy could have been spared *)

Lemma cuts_needed_grow self groups g x :
  g <> [] -> cuts_needed self (groups ++ [g]) ->
  cuts_needed self (groups ++ [g ++ [x]]).
Proof.
  intros Hg. induction groups as [|g0 groups IH]; [done|].
  destruct groups as [|g1 groups].
  - simpl. intros [H _]. split; [|done].
    destruct g; [done|]. done.
  - intros [H Hrest]. split; [done|]. by apply IH.
Qed.

Lemma cuts_needed_snoc self groups g x :
  cuts_needed self (groups ++ [g]) ->
  max_issues_per_cluster self <= Z.of_nat (length g)
  \/ cluster_distance self < get_line x - last_line g ->
  cuts_needed self ((groups ++ [g]) ++ [[x]]).
Proof.
  intros Hc Hx. induction groups as [|g0 groups IH]; [done|].
  destruct groups as [|g1 groups].
  - simpl in *. destruct Hc as [H _]. done.
  - destruct Hc as [H Hrest]. split; [done|]. by apply IH.
Qed.

Lemma proximity_fold_cuts self l clusters cur :
  cur <> [] ->
  cuts_needed self (map issues clusters ++ [cur]) ->
  let st := fold_left (cluster_step (fits_proximity self)) l (clusters, cur) in
  st.2 <> [] /\ cuts_needed self (map issues st.1 ++ [st.2]).
Proof.
  revert clusters cur. induction l as [|x l IH]; intros clusters cur Hne Hc.
  - done.
  - simpl. destruct cur as [|a cur]; [done|].
    destruct (fits_proximity self (a :: cur) x) eqn:Hf.
    + apply IH; [by destruct cur|].
      by apply (cuts_needed_grow self (map issues clusters) (a :: cur) x).
    + apply IH; [done|].
      rewrite map_app. simpl.
      apply cuts_needed_snoc; [done|].
      unfold fits_proximity in Hf.
      apply andb_false_iff in Hf as [Hf|Hf]; [right|left]; lia.
Qed.

(** Under the proximity strategy every cut between two consecutive
    clusters is forced: the cluster before the cut holds
    [max_issues_per_cluster] issues or more, or the first issue after the
    cut is more than [cluster_distance] lines below the last issue before
    it. *)
Theorem proximity_cuts_are_needed (self : ClaudeCodeFixer) (l : list Issue) :
  batch_similar self = true ->
  clustering_strategy self <> lit "similarity" ->
  clustering_strategy self <> lit "hybrid" ->
  cuts_needed self (map issues (cluster_issues self l)).
Proof.
  intros Hb Hs Hh. unfold cluster_issues. rewrite Hb. simpl.
  rewrite !decide_False by done.
  unfold _cluster_by_proximity, cluster_loop.
  destruct (sorted get_line l) as [|x rest]; [done|].
  simpl.
  pose proof (proximity_fold_cuts self rest [] [x]) as H.
  destruct (fold_left _ rest _) as [clusters' cur].
  destruct H as [Hne Hc]; [done|done|]. simpl in *.
  destruct cur as [|a cur]; [done|].
  by rewrite map_app.
Qed.

Lemma proximity_cuts_are_needed_witness :
  cuts_needed default_fixer
    (map issues (cluster_issues default_fixer
                   [issue_at 50; issue_at 10; issue_at 12])).
Proof.
  apply (proximity_cuts_are_needed default_fixer
           [issue_at 50; issue_at 10; issue_at 12]).
  - reflexivity.
  - discriminate.
  - discriminate.
Defined.

(** *** The strategies by category keep categories apart *)

Lemma group_add_one_category self category x groups :
  _get_issue_category self x = category ->
  Forall (fun g => Forall (fun i => _get_issue_category self i = g.1) g.2) groups ->
  Forall (fun g => Forall (fun i => _get_issue_category self i = g.1) g.2)
         (group_add category x groups).
Proof.
  intros Hx. induction 1 as [|[c g] groups Hg Hgroups IH]; simpl.
  - repeat constructor. done.
  - destruct (decide (c = category)) as [->|_].
    + constructor; [|done]. simpl in *. apply Forall_app. by split; [|constructor].
    + by constructor.
Qed.

Lemma issue_groups_one_category self l :
  Forall (fun g => Forall (fun i => _get_issue_category self i = g.1) g.2)
         (issue_groups self l).
Proof.
  unfold issue_groups.
  assert (forall groups,
    Forall (fun g => Forall (fun i => _get_issue_category self i = g.1) g.2) groups ->
    Forall (fun g => Forall (fun i => _get_issue_category self i = g.1) g.2)
      (fold_left (fun groups issue =>
                    group_add (_get_issue_category self issue) issue groups)
                 l groups)) as H.
  { induction l as [|x l IH]; intros groups Hg; simpl; [done|].
    apply IH. by apply group_add_one_category. }
  by apply H.
Qed.

Lemma cluster_loop_one_category self fits clusters l :
  one_category self l ->
  Forall (fun c => one_category self (issues c)) clusters ->
  Forall (fun c => one_category self (issues c)) (cluster_loop fits clusters l).
Proof.
  intros Hl Hc.
  apply (cluster_loop_invariant fits _
           (fun cur rest => one_category self (cur ++ rest))); try done.
  - intros cur x rest _ _ H. by rewrite <- app_assoc.
  - intros cur x rest _ (category & H). split.
    + exists category. simpl. by apply Forall_app in H as [H _].
    + exists category. by apply Forall_app in H as [_ H].
  - intros cur _ H. by rewrite app_nil_r in H.
Qed.

Lemma cluster_groups_one_category self fits (groups : list (str * list Issue))
    clusters :
  Forall (fun g => Forall (fun i => _get_issue_category self i = g.1) g.2) groups ->
  Forall (fun c => one_category self (issues c)) clusters ->
  Forall (fun c => one_category self (issues c))
    (fold_left (fun clusters '(category, category_issues) =>
                  cluster_loop fits clusters (sorted get_line category_issues))
               groups clusters).
Proof.
  intros Hg. revert clusters.
  induction Hg as [|[c g] groups Hc Hgroups IH]; intros clusters Hcl; simpl; [done|].
  apply IH. apply cluster_loop_one_category; [|done].
  exists c. simpl in Hc. by rewrite sorted_perm.
Qed.

(** Under the similarity and the hybrid strategy no cluster mixes
    categories: all issues of a cluster are of one category of
    [_get_issue_category]. *)
Theorem category_clusters_are_pure (self : ClaudeCodeFixer) (l : list Issue) :
  batch_similar self = true ->
  clustering_strategy self = lit "similarity"
  \/ clustering_strategy self = lit "hybrid" ->
  Forall (fun c => one_category self (issues c)) (cluster_issues self l).
Proof.
  intros Hb Hs. unfold cluster_issues. rewrite Hb. simpl.
  destruct (decide (clustering_strategy self = lit "similarity")).
  - apply cluster_groups_one_category; [apply issue_groups_one_category|done].
  - destruct Hs as [?|Hh]; [done|]. rewrite decide_True by done.
    apply cluster_groups_one_category; [apply issue_groups_one_category|done].
Qed.

Lemma category_clusters_are_pure_witness :
  Forall (fun c => one_category (clustering_fixer true "hybrid" 5 5) (issues c))
         (cluster_issues (clustering_fixer true "hybrid" 5 5)
            [issue_at 10; undefined_json; issue_at 12]).
Proof.
  apply (category_clusters_are_pure (clustering_fixer true "hybrid" 5 5)
           [issue_at 10; undefined_json; issue_at 12]).
  - reflexivity.
  - right. reflexivity.
Defined.

End ClusterShape.

(** ** What a prediction changes *)
Module PredictorShape.
Import PyStr Fixer Spec Props PyStrFacts PredictorFacts.

Lemma join_split sep s : join [sep] (split sep s) = s.
Proof.
  induction s as [|c s IH]; simpl; [done|].
  destruct (ascii_dec c sep) as [->|Hc].
  - pose proof (split_nonempty sep s) as Hne.
    destruct (split sep s) as [|p rest] eqn:E; [done|].
    change (join [sep] ([] :: p :: rest)) with (sep :: join [sep] (p :: rest)).
    by rewrite IH.
  - destruct (split sep s) as [|p rest] eqn:E.
    + by destruct (split_nonempty sep s).
    + destruct rest as [|q rest]; simpl in *; by rewrite <- IH.
Qed.

(** The length of a joined text: the pieces and one separator between
    each two. *)
Lemma join_length sep pieces :
  pieces <> [] ->
  (length (join [sep] pieces) + 1
   = sum_list_with length pieces + length pieces)%nat.
Proof.
  induction pieces as [|p rest IH]; [done|]. intros _.
  destruct rest as [|q rest]; [simpl; lia|].
  specialize (IH ltac:(done)).
  change (join [sep] (p :: q :: rest)) with (p ++ sep :: join [sep] (q :: rest)).
  rewrite length_app. simpl in *. lia.
Qed.

Lemma lines_nonempty content : split newline content <> [].
Proof. apply split_nonempty. Qed.

Lemma lines_without_newline content :
  Forall (Forall (fun c => c <> newline)) (split newline content).
Proof. apply split_pieces. Qed.

(** *** The import fix *)

(** [_apply_import_fix] inserts the statement as one new line and keeps
    every line of the content, in order: the lines of the result are the
    lines of the content with the statement put in at some position. *)
Theorem apply_import_fix_inserts_one_line (content import_stmt : str) :
  Forall (fun c => c <> newline) import_stmt ->
  exists pos,
    (pos <= length (split newline content))%nat
    /\ split newline (_apply_import_fix content import_stmt)
       = take pos (split newline content)
         ++ import_stmt :: drop pos (split newline content).
Proof.
  intros Hstmt. unfold _apply_import_fix, list_insert_at.
  set (lines := split newline content).
  set (p := find_insert_pos lines lines 0 0 false None).
  exists (p `min` length lines)%nat. split; [lia|].
  rewrite split_join.
  - f_equal.
    + destruct (Nat.min_spec p (length lines)) as [[_ ->]|[H ->]]; [done|].
      by rewrite firstn_all, take_ge by lia.
    + f_equal.
      destruct (Nat.min_spec p (length lines)) as [[_ ->]|[H ->]]; [done|].
      by rewrite drop_all, drop_ge by lia.
  - by destruct (take p lines).
  - apply Forall_app. split; [apply Forall_take, lines_without_newline|].
    constructor; [done|]. apply Forall_drop, lines_without_newline.
Qed.

Lemma apply_import_fix_inserts_one_line_witness :
  exists pos,
    (pos <= length (split newline (lit "import os
print(json.dumps(os.name))")))%nat
    /\ split newline (_apply_import_fix (lit "import os
print(json.dumps(os.name))") (lit "import json"))
       = take pos (split newline (lit "import os
print(json.dumps(os.name))"))
         ++ lit "import json" :: drop pos (split newline (lit "import os
print(json.dumps(os.name))")).
Proof.
  apply (apply_import_fix_inserts_one_line (lit "import os
print(json.dumps(os.name))") (lit "import json")).
  vm_compute. repeat constructor; discriminate.
Defined.

(** *** Where the import goes *)

Lemma startswith_cons s p c :
  startswith s (c :: p) = true -> exists t, s = c :: t.
Proof.
  destruct s as [|b s]; simpl; [done|].
  destruct (ascii_dec c b) as [->|_]; [|done]. by exists s.
Qed.

Lemma skip_imports_block fuel (before block rest : list str) :
  Forall (fun l => is_import_or_blank l = true) block ->
  match rest with
  | l :: _ => is_import_or_blank l = false
  | [] => True
  end ->
  (length block <= fuel)%nat ->
  skip_imports fuel (before ++ block ++ rest) (length before)
  = (length before + length block)%nat.
Proof.
  intros Hblock Hrest. revert fuel before.
  induction Hblock as [|l block Hl _ IH]; intros fuel before Hfuel.
  - simpl. rewrite Nat.add_0_r.
    destruct fuel as [|fuel]; [done|]. simpl.
    rewrite lookup_app_r by lia. rewrite Nat.sub_diag.
    destruct rest as [|r rest]; simpl; [done|].
    unfold is_import_or_blank in Hrest. by rewrite Hrest.
  - destruct fuel as [|fuel]; [simpl in Hfuel; lia|]. simpl.
    rewrite lookup_app_r by lia. rewrite Nat.sub_diag. simpl.
    unfold is_import_or_blank in Hl. rewrite Hl.
    specialize (IH fuel (before ++ [l])).
    rewrite <- app_assoc, length_app in IH. simpl in IH.
    rewrite Nat.add_1_r in IH. rewrite IH by (simpl in Hfuel; lia).
    simpl. lia.
Qed.

Lemma find_insert_pos_unfold all l rest' i insert_pos in_docstring docstring_char :
  find_insert_pos all (l :: rest') i insert_pos in_docstring docstring_char
  = let stripped := strip l in
    if negb in_docstring
       && (startswith stripped triple_double || startswith stripped triple_single)
    then
      let dc := if startswith stripped triple_double
                then triple_double else triple_single in
      let in_docstring' :=
        negb (endswith stripped dc && (3 <? Z.of_nat (length stripped))) in
      find_insert_pos all rest' (S i) insert_pos in_docstring' (Some dc)
    else if in_docstring
            && match docstring_char with
               | Some dc => bool_decide (dc <> []) && endswith stripped dc
               | None => false
               end
    then find_insert_pos all rest' (S i) (S i) false docstring_char
    else if negb in_docstring && bool_decide (stripped <> [])
            && negb (startswith stripped (lit "#"))
    then
      if startswith stripped (lit "import ") || startswith stripped (lit "from ")
      then skip_imports (length all) all (S i)
      else i
    else find_insert_pos all rest' (S i) insert_pos in_docstring docstring_char.
Proof. reflexivity. Qed.

Lemma find_insert_pos_header all header tail i insert_pos docstring_char :
  Forall (fun l => is_blank_or_comment l = true) header ->
  find_insert_pos all (header ++ tail) i insert_pos false docstring_char
  = find_insert_pos all tail (length header + i) insert_pos false docstring_char.
Proof.
  intros H. revert i. induction H as [|l header Hl _ IH]; intros i; [done|].
  rewrite <- app_comm_cons, find_insert_pos_unfold. cbv zeta.
  unfold is_blank_or_comment in Hl.
  assert (startswith (strip l) triple_double = false
          /\ startswith (strip l) triple_single = false
          /\ bool_decide (strip l <> []) && negb (startswith (strip l) (lit "#"))
             = false) as (H1 & H2 & H3).
  { apply orb_true_iff in Hl as [Hl|Hl].
    - apply bool_decide_eq_true in Hl. by rewrite Hl.
    - destruct (startswith_cons _ _ _ Hl) as (t & E).
      rewrite Hl, E. repeat split; try done. }
  rewrite H1, H2. cbn [negb andb orb]. rewrite H3, IH. f_equal. simpl. lia.
Qed.

(** When the first line of the content that is neither blank nor a comment
    is an import, the statement goes right below the block of imports that
    starts there (the lines that are imports or blank), and so above the
    first line of code. *)
Theorem import_fix_goes_below_imports
    (content import_stmt : str) (header : list str) (first : str)
    (more rest : list str) :
  split newline content = header ++ (first :: more) ++ rest ->
  Forall (fun l => is_blank_or_comment l = true) header ->
  is_import_line first = true ->
  Forall (fun l => is_import_or_blank l = true) more ->
  match rest with
  | l :: _ => is_import_or_blank l = false
  | [] => True
  end ->
  _apply_import_fix content import_stmt
  = join [newline] (header ++ (first :: more) ++ import_stmt :: rest).
Proof.
  intros Hlines Hheader Hfirst Hmore Hrest.
  unfold _apply_import_fix. rewrite Hlines.
  set (all := header ++ (first :: more) ++ rest).
  assert (find_insert_pos all all 0 0 false None
          = (length header + S (length more))%nat) as ->.
  { unfold all at 2. rewrite find_insert_pos_header by done.
    rewrite Nat.add_0_r, <- app_comm_cons, find_insert_pos_unfold. cbv zeta.
    unfold is_import_line in Hfirst.
    assert (exists c t, strip first = c :: t
            /\ (c = "i"%char \/ c = "f"%char)) as (c & t & E & Hc).
    { apply orb_true_iff in Hfirst as [H|H];
        destruct (startswith_cons _ _ _ H) as (t & E); eauto. }
    assert (startswith (strip first) triple_double = false
            /\ startswith (strip first) triple_single = false
            /\ bool_decide (strip first <> [])
               && negb (startswith (strip first) (lit "#")) = true)
      as (H1 & H2 & H3).
    { rewrite E. by destruct Hc as [-> | ->]. }
    rewrite H1, H2. cbn [negb andb orb]. rewrite H3, Hfirst.
    pose proof (skip_imports_block (length all) (header ++ [first]) more rest
                  Hmore Hrest) as H.
    rewrite <- app_assoc, length_app in H. simpl in H.
    rewrite Nat.add_1_r in H. unfold all at 2.
    change ((first :: more) ++ rest) with (first :: more ++ rest).
    rewrite H; [lia|]. unfold all. rewrite !length_app. simpl. lia. }
  unfold list_insert_at, all. f_equal.
  rewrite (app_assoc header (first :: more) rest).
  rewrite take_app_length', drop_app_length' by (rewrite length_app; simpl; lia).
  by rewrite <- app_assoc.
Qed.

Lemma import_fix_goes_below_imports_witness :
  _apply_import_fix (lit "# tool
import os

print(json.dumps(os.name))") (lit "import json")
  = join [newline]
      ([lit "# tool"] ++ [lit "import os"; lit ""]
       ++ lit "import json" :: [lit "print(json.dumps(os.name))"]).
Proof.
  apply (import_fix_goes_below_imports _ (lit "import json")
           [lit "# tool"] (lit "import os") [lit ""]
           [lit "print(json.dumps(os.name))"]).
  - reflexivity.
  - repeat constructor.
  - reflexivity.
  - repeat constructor.
  - reflexivity.
Defined.

Lemma apply_import_fix_length content import_stmt :
  length (_apply_import_fix content import_stmt)
  = (length content + length import_stmt + 1)%nat.
Proof.
  unfold _apply_import_fix, list_insert_at.
  set (lines := split newline content).
  set (p := find_insert_pos lines lines 0 0 false None).
  pose proof (join_length newline (take p lines ++ import_stmt :: drop p lines)
                ltac:(by destruct (take p lines))) as H1.
  pose proof (join_length newline lines (lines_nonempty content)) as H2.
  unfold lines at 1 in H2. rewrite join_split in H2.
  rewrite sum_list_with_app, length_app in H1. simpl in H1.
  assert (sum_list_with length lines
          = sum_list_with length (take p lines) + sum_list_with length (drop p lines))%nat
    as E1 by (by rewrite <- sum_list_with_app, take_drop).
  assert (length lines = length (take p lines) + length (drop p lines))%nat
    as E2 by (by rewrite <- length_app, take_drop).
  assert (length lines <> 0)%nat.
  { pose proof (split_nonempty newline content). unfold lines. by destruct (split _ _). }
  lia.
Qed.

(** *** The underscore fix *)

Lemma indentation_split l : l = indentation l ++ lstrip l.
Proof.
  induction l as [|c l IH]; simpl; [done|].
  destruct (is_space c); [|done]. simpl. by rewrite <- IH.
Qed.

Lemma indentation_skip ws c t :
  Forall (fun c => is_space c = true) ws -> is_space c = false ->
  indentation (ws ++ c :: t) = ws.
Proof.
  intros Hws Hc. induction Hws as [|a ws Ha _ IH]; simpl.
  - by rewrite Hc.
  - by rewrite Ha, IH.
Qed.

(** A prediction for an unused variable (F841) rewrites the line of the
    issue and no other.  What the code takes for the assignment target is
    the text left of the first [=] of the line, stripped of blanks,
    whatever that text is; the text after the indentation starts with it.
    The new line is the old one with one underscore put right after the
    indentation, before that text; when nothing but blanks stands left of
    the [=], the underscore is put at the very start of the line, before
    the indentation. *)
Theorem predict_unused_rewrites_one_line
    (self : ClaudeCodeFixer) (issue : Issue) (content fixed : str) :
  get_rule issue = lit "F841" ->
  predict_simple_fix self issue content = Some fixed ->
  let n := Z.to_nat (get_line issue - 1) in
  exists line,
    let target := strip (first_piece "="%char line) in
    split newline content !! n = Some line
    /\ startswith (lstrip line) target = true
    /\ split newline fixed
       = <[n := if bool_decide (target = []) then "_"%char :: line
                else indentation line ++ "_"%char :: lstrip line]>
           (split newline content).
Proof.
  intros Hr. unfold predict_simple_fix.
  destruct (predict_simple_fixes self); cbn [negb]; [|done].
  rewrite Hr. rewrite decide_False by done. rewrite decide_True by done.
  destruct (_ && _); [|done].
  destruct (split newline content !! Z.to_nat (get_line issue - 1))
    as [line|] eqn:Hline; [|done].
  destruct (contains (lit " = ") line); [|done].
  set (var_name := strip (first_piece "="%char line)).
  destruct (startswith var_name (lit "_")); cbn [negb]; [done|].
  intros [= <-]. exists line. cbv zeta. fold var_name.
  (* The shape of the line around the target. *)
  assert (startswith (lstrip line) var_name = true
          /\ replace_first var_name (lit "_" ++ var_name) line
             = if bool_decide (var_name = []) then "_"%char :: line
               else indentation line ++ "_"%char :: lstrip line)
    as [Hstart Hnew].
  { destruct (first_piece_split "="%char line) as (after & E & _).
    destruct (strip_split (first_piece "="%char line))
      as (ws1 & ws2 & Es & Hws & [Hnil | (c & v & Ev & Hc)]);
      fold var_name in Es.
    - fold var_name in Hnil. rewrite Hnil. split; [apply startswith_nil|].
      rewrite bool_decide_true by done.
      rewrite replace_first_unfold, startswith_nil. simpl. by rewrite drop_0.
    - fold var_name in Ev.
      assert (line = ws1 ++ var_name ++ ws2 ++ after) as El.
      { rewrite E at 1. rewrite Es at 1. by rewrite <- !app_assoc. }
      rewrite bool_decide_false by (by rewrite Ev).
      clearbody var_name. subst line var_name. simpl app.
      rewrite lstrip_skip, indentation_skip by done.
      split; [exact (startswith_app (c :: v) (ws2 ++ after))|].
      exact (replace_first_skip ws1 c v ("_"%char :: c :: v) (ws2 ++ after)
               Hws Hc). }
  split; [done|]. split; [done|].
  rewrite <- Hnew. apply split_join.
  - pose proof (split_nonempty newline content) as Hne.
    intros Hnil. apply Hne. apply (f_equal length) in Hnil.
    rewrite length_insert in Hnil. by destruct (split newline content).
  - apply Forall_insert; [apply lines_without_newline|].
    apply prefixed_line_no_newline.
    pose proof (lines_without_newline content) as Hp.
    rewrite Forall_lookup in Hp. by apply (Hp _ _ Hline).
Qed.

Lemma predict_unused_rewrites_one_line_witness :
  let issue := {| rule := Some (lit "F841"); message := None; line := Some 2 |} in
  let content := lit "def f():
    if a == b: c = 1
    return 1" in
  let fixed := lit "def f():
    _if a == b: c = 1
    return 1" in
  exists line,
    let target := strip (first_piece "="%char line) in
    split newline content !! 1%nat = Some line
    /\ startswith (lstrip line) target = true
    /\ split newline fixed
       = <[1%nat := if bool_decide (target = []) then "_"%char :: line
                    else indentation line ++ "_"%char :: lstrip line]>
           (split newline content).
Proof.
  intros issue content fixed.
  apply (predict_unused_rewrites_one_line default_fixer issue content fixed);
    reflexivity.
Defined.

Lemma sum_list_with_insert {A} (f : A -> nat) (l : list A) n x y :
  l !! n = Some x ->
  (sum_list_with f (<[n := y]> l) + f x = sum_list_with f l + f y)%nat.
Proof.
  revert n. induction l as [|a l IH]; intros [|n]; simpl; try done.
  - intros [= ->]. lia.
  - intros H. specialize (IH n H). lia.
Qed.

(** *** Every prediction adds text *)

(** A predicted fix is strictly longer than the content it was predicted
    for: by the import statement and a newline, or by one underscore. *)
Lemma predict_simple_fix_longer
    (self : ClaudeCodeFixer) (issue : Issue) (content fixed : str) :
  predict_simple_fix self issue content = Some fixed ->
  (length content < length fixed)%nat.
Proof.
  unfold predict_simple_fix.
  destruct (predict_simple_fixes self); cbn [negb]; [|done].
  destruct (decide (get_rule issue = lit "F821")) as [_|_].
  - destruct (contains (lit "Undefined name `") (get_message issue)); [|done].
    destruct (assoc _ simple_fix_patterns_F821) as [import_stmt|]; [|done].
    destruct (contains import_stmt content); cbn [negb]; [done|].
    intros [= <-]. rewrite apply_import_fix_length. lia.
  - destruct (decide (get_rule issue = lit "F841")) as [_|_]; [|done].
    destruct (_ && _); [|done].
    destruct (split newline content !! Z.to_nat (get_line issue - 1))
      as [line|] eqn:Hline; [|done].
    destruct (contains (lit " = ") line); [|done].
    set (var_name := strip (first_piece "="%char line)).
    destruct (startswith var_name (lit "_")); cbn [negb]; [done|].
    intros [= <-].
    destruct (underscore_prefix_shape line) as (ws & tail & E & E' & _).
    fold var_name in E, E'.
    change (lit "_" ++ var_name) with ("_"%char :: var_name). rewrite E'.
    assert (<[Z.to_nat (get_line issue - 1) := ws ++ "_"%char :: var_name ++ tail]>
              (split newline content) <> []) as Hne.
    { intros Hnil. apply (f_equal length) in Hnil.
      rewrite length_insert in Hnil.
      pose proof (lines_nonempty content). by destruct (split newline content). }
    pose proof (join_length newline _ Hne) as H1.
    pose proof (join_length newline _ (lines_nonempty content)) as H2.
    rewrite join_split in H2. rewrite length_insert in H1.
    pose proof (sum_list_with_insert length (split newline content) _ line
                  (ws ++ "_"%char :: var_name ++ tail) Hline) as H3.
    assert (length (ws ++ "_"%char :: var_name ++ tail) = S (length line)) as H4.
    { apply (f_equal length) in E. rewrite !length_app in E.
      rewrite !length_app. simpl. rewrite length_app. lia. }
    lia.
Qed.

End PredictorShape.

(** ** More on the workspaces, the merge and the session *)
Module SessionMore.
Import PyStr Fixer Spec Props Session MonadFacts ExecutorFacts SessionFacts.
Import PredictorShape.

(** *** The workspace manager *)

Lemma list_remove_snoc p l : p ∉ l -> list_remove p (l ++ [p]) = l.
Proof.
  induction l as [|a l IH]; simpl; intros Hp.
  - by rewrite decide_True.
  - apply not_elem_of_cons in Hp as [Hne Hp].
    rewrite decide_False by done. by rewrite IH.
Qed.

(** A worktree that is created and then cleaned up leaves no trace in the
    fixer's registry nor among the worktree copies: the list of active
    worktrees and the copies are as before, and the two git commands are
    all that was run. *)
Theorem create_then_cleanup_restores (run : ClusterRun) (p : string) (w : World) :
  worktree_add run = Created p ->
  p ∉ _active_worktrees (self w) ->
  worktree_files w !! p = None ->
  let created := _create_worktree_for_cluster run w in
  let cleaned := _cleanup_worktree p created.2 in
  created.1 = Return (Some p)
  /\ p ∈ _active_worktrees (self created.2)
  /\ _active_worktrees (self cleaned.2) = _active_worktrees (self w)
  /\ worktree_files cleaned.2 = worktree_files w
  /\ disk cleaned.2 = disk w
  /\ trace cleaned.2 = trace w ++ [WorktreeAdd p; WorktreeRemove p].
Proof.
  intros Hadd Hfresh Hfiles.
  unfold _create_worktree_for_cluster, _cleanup_worktree. rewrite Hadd.
  destruct (head_content run) as [c|]; cbn.
  - split; [done|]. split; [set_solver|].
    rewrite list_remove_snoc by done. rewrite delete_insert_eq, <- app_assoc.
    by rewrite delete_id.
  - split; [done|]. split; [set_solver|].
    rewrite list_remove_snoc by done.
    rewrite !(delete_id (worktree_files w) p Hfiles), <- app_assoc. done.
Qed.

Lemma create_then_cleanup_restores_witness :
  let w := initial_world default_fixer ∅ in
  let created := _create_worktree_for_cluster (smooth_cluster_run "a") w in
  let cleaned := _cleanup_worktree "a" created.2 in
  created.1 = Return (Some "a"%string)
  /\ "a"%string ∈ _active_worktrees (self created.2)
  /\ _active_worktrees (self cleaned.2) = _active_worktrees (self w)
  /\ worktree_files cleaned.2 = worktree_files w
  /\ disk cleaned.2 = disk w
  /\ trace cleaned.2 = trace w ++ [WorktreeAdd "a"; WorktreeRemove "a"].
Proof.
  apply (create_then_cleanup_restores (smooth_cluster_run "a") "a"
           (initial_world default_fixer ∅)).
  - reflexivity.
  - simpl. set_solver.
  - reflexivity.
Defined.

Lemma run_agent_exit_nonzero p c run w content returncode stderr stdout after :
  worktree_files w !! p = Some content ->
  agent run = AgentExit returncode stderr stdout after ->
  returncode <> 0 ->
  fix_cluster_with_claude (WorktreeFile p) c run w
  = (Return (failure c (if bool_decide (stderr = []) then stdout else stderr)),
     {| self := self w; disk := disk w;
        worktree_files := <[p := after content]> (worktree_files w);
        trace := trace w ++ [AgentFix (WorktreeFile p) c] |}).
Proof.
  intros Hfile Hagent Hrc. unfold fix_cluster_with_claude. rewrite Hagent.
  destruct (decide (returncode = 0)) as [?|_]; [done|].
  apply run_try_except.
  erewrite run_bind by reflexivity.
  erewrite run_bind; [reflexivity|].
  erewrite run_bind by (by apply (run_exists_at_worktree p _ content)).
  cbv iota.
  erewrite run_bind by (by apply (run_read_text_worktree p _ content)).
  reflexivity.
Qed.

(** A fix attempt whose agent exits with a status other than 0 fails
    without its worktree being cleaned up: the worktree stays in the
    registry, no [git worktree remove] is run, and the result does not
    name the worktree, so that only the sweep at the end of the batch can
    reclaim it. *)
Theorem failed_agent_keeps_worktree
    (file_path : string) (c : IssueCluster) (base : string)
    (predicted_fixes : list (Issue * str)) (run : ClusterRun) (w : World)
    (p : string) (head rest stderr stdout : str) (returncode : Z)
    (after : str -> str) :
  worktree_add run = Created p ->
  head_content run = Some head ->
  strip_prefix (lit base ++ lit "/") (lit file_path) = Some rest ->
  agent run = AgentExit returncode stderr stdout after ->
  returncode <> 0 ->
  let attempt :=
    fix_cluster_with_worktree file_path c base predicted_fixes run w in
  (exists r, attempt.1 = Return r
             /\ success r = false /\ is_Some (error r)
             /\ worktree_path r = None)
  /\ p ∈ _active_worktrees (self attempt.2)
  /\ trace attempt.2
     = trace w ++ [WorktreeAdd p; AgentFix (WorktreeFile p) c].
Proof.
  intros Hadd Hhead Hrel Hagent Hrc attempt.
  set (w1 := {| self := set_active (_active_worktrees (self w) ++ [p]) (self w);
                disk := disk w;
                worktree_files := <[p := head]> (worktree_files w);
                trace := trace w ++ [WorktreeAdd p] |}).
  assert (_create_worktree_for_cluster run w = (Return (Some p), w1)) as Hcreate.
  { unfold _create_worktree_for_cluster. by rewrite Hadd, Hhead. }
  assert (worktree_files w1 !! p = Some head) as Hfile1
    by apply lookup_insert_eq.
  assert (exists files,
    attempt
    = (Return (failure c (if bool_decide (stderr = []) then stdout else stderr)),
       {| self := self w1; disk := disk w1; worktree_files := files;
          trace := trace w1 ++ [AgentFix (WorktreeFile p) c] |}))
    as (files & ->).
  { unfold attempt, fix_cluster_with_worktree.
    erewrite run_bind by exact Hcreate.
    unfold relative_to. rewrite Hrel.
    destruct (last predicted_fixes) as [[i fixed]|].
    - eexists. apply run_try_except.
      erewrite run_bind by reflexivity.
      erewrite run_bind by exact (run_exists_at_worktree p w1 head Hfile1).
      cbn [negb].
      erewrite run_bind by exact (run_read_text_worktree p w1 head Hfile1).
      erewrite run_bind by reflexivity.
      erewrite run_bind.
      2:{ apply (run_agent_exit_nonzero p c run _ fixed returncode stderr
                   stdout after); [|done|done].
          apply lookup_insert_eq. }
      reflexivity.
    - eexists. apply run_try_except.
      erewrite run_bind by reflexivity.
      erewrite run_bind by exact (run_exists_at_worktree p w1 head Hfile1).
      cbn [negb].
      erewrite run_bind by exact (run_read_text_worktree p w1 head Hfile1).
      erewrite run_bind by reflexivity.
      erewrite run_bind.
      2:{ by apply (run_agent_exit_nonzero p c run _ head returncode stderr
                      stdout after). }
      reflexivity. }
  cbn [fst snd self trace _active_worktrees set_active w1].
  split; [eexists; split; [reflexivity|by eauto]|].
  split; [set_solver|]. by rewrite <- app_assoc.
Qed.

Lemma failed_agent_keeps_worktree_witness :
  let run := {| worktree_add := Created "wt"; head_content := Some (lit "x = 1");
                agent := AgentExit 1 (lit "no") [] (fun content => content);
                git_diff := DiffExit 0 [] |} in
  let w := initial_world default_fixer ∅ in
  let c := _create_cluster [issue_at 1] in
  let attempt := fix_cluster_with_worktree "/r/a.py" c "/r" [] run w in
  (exists r, attempt.1 = Return r
             /\ success r = false /\ is_Some (error r)
             /\ worktree_path r = None)
  /\ "wt"%string ∈ _active_worktrees (self attempt.2)
  /\ trace attempt.2
     = trace w ++ [WorktreeAdd "wt"; AgentFix (WorktreeFile "wt") c].
Proof.
  intros run w c.
  apply (failed_agent_keeps_worktree "/r/a.py" c "/r" [] run w "wt"
           (lit "x = 1") (lit "a.py") (lit "no") [] 1 (fun content => content));
    try reflexivity.
  discriminate.
Defined.

(** *** The merge by the agent *)

Lemma no_versions_omap w results :
  Forall (no_version w) results ->
  omap (fun r =>
          if success r then
            match worktree_path r with
            | Some p => match worktree_files w !! p with
                        | Some content => Some (cluster r, content)
                        | None => None
                        end
            | None => None
            end
          else None)
       results = [].
Proof.
  induction 1 as [|r results Hr _ IH]; [done|].
  unfold no_version in Hr. cbn [omap list_omap]. rewrite IH.
  destruct (success r); [|done].
  destruct (worktree_path r) as [p|]; [|done]. by rewrite Hr.
Qed.

(** With no version to merge (no successful result whose worktree holds a
    copy of the file) [_merge_with_claude] answers [False] and does
    nothing: the agent is not called and no file is written. *)
Theorem merge_with_claude_needs_versions
    (run : FileRun) (file_path : string) (results : list FixResult) (w : World) :
  Forall (no_version w) results ->
  _merge_with_claude run file_path results w = (Return false, w).
Proof.
  intros H. unfold _merge_with_claude, try_except, read_text, bind, get.
  destruct (disk w !! file_path) as [content|]; [|done].
  cbn. by rewrite no_versions_omap.
Qed.

Lemma merge_with_claude_needs_versions_witness :
  let w := initial_world default_fixer {[ "a.py"%string := lit "x = 1" ]} in
  _merge_with_claude (smooth_run None) "a.py" [patch_result 1 "p" "wt"] w
  = (Return false, w).
Proof.
  apply (merge_with_claude_needs_versions (smooth_run None) "a.py"
           [patch_result 1 "p" "wt"]).
  repeat constructor.
Defined.

(** *** What a session keeps of the fixer object *)

Section Kept.
(** A relation kept by every event, by every write to the files and by
    every change of the list of active worktrees. *)
Context (R : World -> World -> Prop).
Context (R_refl : forall w, R w w).
Context (R_trans : forall w1 w2 w3, R w1 w2 -> R w2 w3 -> R w1 w3).
Context (R_emit : forall e, respects R (emit e)).
Context (R_disk : forall f, respects R (update_disk f)).
Context (R_files : forall f, respects R (update_worktree_files f)).
Context (R_active : forall f,
  respects R (update_self (fun s => set_active (f s) s))).

Lemma kept_create run : respects R (_create_worktree_for_cluster run).
Proof.
  unfold _create_worktree_for_cluster.
  repeat first [ apply R_emit | apply R_files | apply R_active
               | respects_step R_refl R_trans ].
Qed.

Lemma kept_cleanup p : respects R (_cleanup_worktree p).
Proof.
  unfold _cleanup_worktree.
  repeat first [ apply R_emit | apply R_files | apply R_active
               | respects_step R_refl R_trans ].
Qed.

Local Ltac kept :=
  first [ exact R_refl | exact R_trans | exact (fun e _ => R_emit e)
        | exact (fun loc c => R_emit (AgentFix loc c))
        | exact R_disk | exact R_files | exact kept_create
        | exact kept_cleanup ].

Lemma kept_body run s file_path issues :
  respects R (fix_single_file_body run s file_path issues).
Proof.
  unfold fix_single_file_body, worktree_branch, in_memory_branch,
    _get_git_root.
  repeat first
    [ apply respects_thread_pool; kept
    | apply respects_run_pool; [kept..|intros ? ?]
    | apply respects_fix_cluster_with_worktree; kept
    | apply respects_fix_cluster_with_claude; kept
    | apply respects_merge_worktree_fixes; kept
    | apply respects_cleanup_all; kept
    | apply respects_write_result; kept
    | apply respects_exists_at; kept
    | apply respects_read_text; kept
    | apply respects_write_text; kept
    | apply respects_relative_to; kept
    | respects_step R_refl R_trans ].
Qed.

Lemma kept_guarded run s file_path issues (over : bool) r :
  respects R
    (if over then ret r
     else try_except (fix_single_file_body run s file_path issues)
                     (fun e => ret (file_failure (Some (exn_str e)) None))).
Proof.
  destruct over; [apply (respects_ret _ R_refl)|].
  apply (respects_try_except _ R_trans); [apply kept_body|].
  intros e. apply (respects_ret _ R_refl).
Qed.

End Kept.

(** Every call of [_fix_single_file] raises the counter of the file by
    one and leaves the counters of the other files alone, however the
    call ends. *)
Lemma fix_single_file_counts_the_call
    (run : FileRun) (file_path : string) (issues : list Issue) (w : World) :
  _fix_attempts (self (_fix_single_file run file_path issues w).2)
  = <[file_path := attempts_of file_path w + 1]> (_fix_attempts (self w)).
Proof.
  rewrite fix_single_file_unfold. cbv zeta.
  set (w1 := {| self := _; disk := disk w |}).
  change (<[file_path:=attempts_of file_path w + 1]> (_fix_attempts (self w)))
    with (_fix_attempts (self w1)).
  apply (kept_guarded
           (fun w w' => _fix_attempts (self w') = _fix_attempts (self w)));
    try done.
  intros w1' w2 w3 H1 H2. by rewrite H2.
Qed.

Lemma fix_single_file_keeps_budget run file_path issues w :
  max_fix_attempts (self (_fix_single_file run file_path issues w).2)
  = max_fix_attempts (self w).
Proof.
  rewrite fix_single_file_unfold. cbv zeta.
  set (w1 := {| self := _; disk := disk w |}).
  change (max_fix_attempts (self w)) with (max_fix_attempts (self w1)).
  apply (kept_guarded
           (fun w w' => max_fix_attempts (self w') = max_fix_attempts (self w)));
    try done.
  intros w1' w2 w3 H1 H2. by rewrite H2.
Qed.

Lemma after_calls_counts file_path calls w :
  attempts_of file_path (after_calls file_path calls w)
  = attempts_of file_path w + Z.of_nat (length calls)
  /\ max_fix_attempts (self (after_calls file_path calls w))
     = max_fix_attempts (self w).
Proof.
  unfold after_calls. revert w.
  induction calls as [|[run issues] calls IH]; intros w; simpl.
  - split; [lia|done].
  - destruct (IH (_fix_single_file run file_path issues w).2) as [IH1 IH2].
    rewrite IH1, IH2, fix_single_file_keeps_budget. split; [|done].
    unfold attempts_of at 1. rewrite fix_single_file_counts_the_call.
    rewrite lookup_insert_eq. simpl. lia.
Qed.

(** The budget of attempts holds across the calls on one fixer object:
    once [_fix_single_file] has been called [max_fix_attempts] times for a
    file (counting the calls before [w]), every further call for that file
    is refused with the error "Max fix attempts (n) exceeded"; it reads
    and writes no file and runs no command. *)
Theorem fix_attempt_budget_holds
    (file_path : string) (calls : list (FileRun * list Issue)) (w : World)
    (run : FileRun) (issues : list Issue) :
  max_fix_attempts (self w)
  <= attempts_of file_path w + Z.of_nat (length calls) ->
  let w' := after_calls file_path calls w in
  let refused := _fix_single_file run file_path issues w' in
  refused.1
  = Return (file_failure
              (Some (lit "Max fix attempts ("
                     ++ str_of_int (max_fix_attempts (self w))
                     ++ lit ") exceeded"))
              (Some (lit "Unable to fix all issues after multiple attempts")))
  /\ disk refused.2 = disk w'
  /\ worktree_files refused.2 = worktree_files w'
  /\ trace refused.2 = trace w'.
Proof.
  intros Hbudget w' refused.
  destruct (after_calls_counts file_path calls w) as [Hcount Hmax].
  fold w' in Hcount, Hmax.
  unfold refused. rewrite fix_single_file_unfold. cbv zeta.
  rewrite Hmax, Hcount.
  destruct (Z.ltb_spec (max_fix_attempts (self w))
              (attempts_of file_path w + Z.of_nat (length calls) + 1));
    [done|lia].
Qed.

Lemma fix_attempt_budget_holds_witness :
  let w := initial_world default_fixer ∅ in
  let calls := [(smooth_run None, [issue_at 1]); (smooth_run None, []);
                (smooth_run None, [])] in
  let w' := after_calls "a.py" calls w in
  let refused := _fix_single_file (smooth_run None) "a.py" [issue_at 1] w' in
  refused.1
  = Return (file_failure
              (Some (lit "Max fix attempts (" ++ str_of_int 3 ++ lit ") exceeded"))
              (Some (lit "Unable to fix all issues after multiple attempts")))
  /\ disk refused.2 = disk w'
  /\ worktree_files refused.2 = worktree_files w'
  /\ trace refused.2 = trace w'.
Proof.
  apply (fix_attempt_budget_holds "a.py"
           [(smooth_run None, [issue_at 1]); (smooth_run None, []);
            (smooth_run None, [])]
           (initial_world default_fixer ∅)).
  vm_compute. discriminate.
Defined.

(** *** No exception leaves a session *)

Lemma merge_with_claude_returns run file_path results :
  returns (_merge_with_claude run file_path results).
Proof.
  unfold _merge_with_claude. apply returns_try_except.
  - repeat no_interrupt_step.
  - intros e. apply returns_ret.
Qed.

Lemma apply_patches_no_interrupt run file_path all todo :
  no_interrupt (apply_patches run file_path all todo).
Proof.
  induction todo as [|r todo IH]; simpl.
  - apply no_interrupt_ret.
  - repeat first [ exact IH
                 | apply returns_no_interrupt, merge_with_claude_returns
                 | no_interrupt_step ].
Qed.

Lemma commit_branches_no_interrupt run todo :
  no_interrupt (commit_branches run todo).
Proof.
  induction todo as [|r todo IH]; simpl.
  - apply no_interrupt_ret.
  - repeat first [ exact IH | no_interrupt_step ].
Qed.

Lemma merge_worktree_fixes_no_interrupt run file_path results :
  no_interrupt (_merge_worktree_fixes run file_path results).
Proof.
  unfold _merge_worktree_fixes.
  repeat first [ apply returns_no_interrupt, merge_with_claude_returns
               | apply apply_patches_no_interrupt
               | apply commit_branches_no_interrupt
               | no_interrupt_step ].
Qed.

Lemma cleanup_all_returns results : returns (cleanup_all results).
Proof.
  unfold cleanup_all. apply returns_for_each. intros r.
  destruct (worktree_path r); [apply cleanup_worktree_returns|apply returns_ret].
Qed.

Lemma when_returns b m : returns m -> returns (when b m).
Proof. intros H. destruct b; [done|apply returns_ret]. Qed.

Lemma write_result_returns file_path issues predicted clusters in_worktrees
    original merged :
  returns (write_result file_path issues predicted clusters in_worktrees
             original merged).
Proof. unfold write_result. repeat returns_step. Qed.

Lemma run_pool_returns {B} run clusters (task : IssueCluster -> ClusterRun -> M B) :
  interrupted run = false ->
  (forall c r, returns (task c r)) ->
  returns (run_pool run clusters task).
Proof.
  intros Hrun Htask. unfold run_pool. rewrite Hrun.
  apply returns_bind; [|intros results; apply returns_ret].
  apply returns_map_M. intros i c.
  apply returns_bind; [apply returns_emit|]. intros _. apply Htask.
Qed.

Lemma thread_pool_no_interrupt n : no_interrupt (thread_pool n).
Proof.
  unfold thread_pool. destruct (n <=? 0);
    [apply no_interrupt_raise|apply returns_no_interrupt, returns_emit].
Qed.

Lemma fix_single_file_body_no_interrupt run s file_path issues :
  interrupted run = false ->
  no_interrupt (fix_single_file_body run s file_path issues).
Proof.
  intros Hrun. unfold fix_single_file_body.
  apply no_interrupt_bind; [apply no_interrupt_read_text|]. intros original.
  destruct (predict_pass s issues original) as [[predicted remaining] content].
  destruct remaining as [|i remaining];
    [apply returns_no_interrupt, write_result_returns|].
  apply no_interrupt_bind.
  { unfold _get_git_root. repeat no_interrupt_step. }
  intros git_root.
  apply no_interrupt_bind;
    [|intros merged; apply returns_no_interrupt, write_result_returns].
  apply no_interrupt_bind; [apply thread_pool_no_interrupt|]. intros _.
  destruct (worktree_base s git_root) as [base|].
  - unfold worktree_branch.
    apply no_interrupt_bind; [apply relative_to_no_interrupt|]. intros _.
    apply no_interrupt_bind.
    { apply returns_no_interrupt, run_pool_returns; [done|].
      intros c r. apply fix_cluster_with_worktree_returns. }
    intros results. cbv zeta.
    destruct (filter success results) as [|r rs].
    + apply returns_no_interrupt.
      apply returns_bind; [apply when_returns, cleanup_all_returns|].
      intros _. apply returns_ret.
    + apply no_interrupt_bind; [apply merge_worktree_fixes_no_interrupt|].
      intros merged.
      apply no_interrupt_bind;
        [apply returns_no_interrupt, when_returns, cleanup_all_returns|].
      intros _. destruct merged.
      * apply no_interrupt_bind; [apply no_interrupt_read_text|].
        intros c. apply no_interrupt_ret.
      * apply returns_no_interrupt.
        apply returns_bind; [apply when_returns, cleanup_all_returns|].
        intros _. apply returns_ret.
  - unfold in_memory_branch.
    apply no_interrupt_bind.
    { apply returns_no_interrupt, run_pool_returns; [done|].
      intros c r. apply fix_cluster_with_claude_returns. }
    intros results. cbv zeta.
    destruct (filter success results); apply no_interrupt_ret.
Qed.

(** [_fix_single_file] lets no exception out: unless the session is
    interrupted from the keyboard, the call returns a result, whatever
    the file system, git and the agent do (a file that cannot be read, a
    pool that cannot be made, a failing merge, a timeout). *)
Theorem fix_single_file_never_raises
    (run : FileRun) (file_path : string) (issues : list Issue) (w : World) :
  interrupted run = false ->
  exists result, (_fix_single_file run file_path issues w).1 = Return result.
Proof.
  intros Hrun. revert w.
  change (returns (_fix_single_file run file_path issues)).
  unfold _fix_single_file.
  apply returns_bind; [apply returns_get|]. intros s.
  apply returns_bind; [apply returns_update_self|]. intros _.
  destruct (_ <? _); [apply returns_ret|].
  apply returns_try_except;
    [by apply fix_single_file_body_no_interrupt|].
  intros e. apply returns_ret.
Qed.

Lemma fix_single_file_never_raises_witness :
  exists result,
    (_fix_single_file timeout_run "a.py" [issue_at 1]
       (initial_world default_fixer ∅)).1 = Return result.
Proof.
  apply (fix_single_file_never_raises timeout_run "a.py" [issue_at 1]
           (initial_world default_fixer ∅)).
  reflexivity.
Defined.

(** *** One result for each file *)

Lemma returns_try_finally {A} (m : M A) final :
  returns m -> returns final -> returns (try_finally m final).
Proof.
  intros Hm Hf w. unfold try_finally.
  destruct (Hm w) as [a Ha]. destruct (m w) as [r w']. simpl in Ha. subst r.
  destruct (Hf w') as [u Hu]. destruct (final w') as [r' w''].
  simpl in Hu. subst r'. by exists a.
Qed.

Lemma post_try_finally {A} (Q : A -> Prop) (m : M A) final :
  post Q m -> post Q (try_finally m final).
Proof.
  intros Hm w a. unfold try_finally. specialize (Hm w).
  destruct (m w) as [r w']. destruct (final w') as [[u|e|] w'']; [|done|done].
  simpl in *. intros ->. by apply Hm.
Qed.

Lemma post_batch_body runs (file_issues : list (string * list Issue)) i :
  post (fun results => map fst results = map fst file_issues)
    (map_M i file_issues
       (fun i '(file_path, issues) =>
          result <- _fix_single_file (runs i) file_path issues ;;
          ret (file_path, result))).
Proof.
  revert i. induction file_issues as [|[file_path issues] rest IH]; intros i.
  - by apply post_ret.
  - simpl. eapply post_bind.
    { eapply post_bind; [apply post_true|]. intros result _.
      apply (post_ret (fun y => y.1 = file_path)). done. }
    intros y Hy. eapply post_bind; [apply IH|]. intros ys Hys.
    apply post_ret. simpl. by rewrite Hy, Hys.
Qed.

Lemma cleanup_all_worktrees_returns : returns cleanup_all_worktrees.
Proof.
  unfold cleanup_all_worktrees.
  apply returns_bind; [apply returns_get|]. intros active.
  apply returns_bind;
    [apply returns_for_each; intros p; apply cleanup_worktree_returns|].
  intros _. apply returns_update_self.
Qed.

(** Unless a session is interrupted, [batch_fix_files] returns one result
    for each file it was given, in the order of the files, each under the
    path of its file: a file whose fix fails gets a failed result, it
    does not end the batch. *)
Theorem batch_fix_files_answers_every_file
    (runs : nat -> FileRun) (file_issues : list (string * list Issue))
    (w : World) :
  (forall i, interrupted (runs i) = false) ->
  exists results,
    (batch_fix_files runs file_issues w).1 = Return results
    /\ map fst results = map fst file_issues.
Proof.
  intros Hruns.
  assert (returns (batch_fix_files runs file_issues)) as Hret.
  { unfold batch_fix_files. apply returns_try_finally.
    - apply returns_map_M. intros i [file_path issues].
      apply returns_bind; [|intros result; apply returns_ret].
      unfold _fix_single_file.
      apply returns_bind; [apply returns_get|]. intros s.
      apply returns_bind; [apply returns_update_self|]. intros _.
      destruct (_ <? _); [apply returns_ret|].
      apply returns_try_except;
        [by apply fix_single_file_body_no_interrupt|].
      intros e. apply returns_ret.
    - apply returns_bind; [apply returns_get|]. intros s.
      apply when_returns, cleanup_all_worktrees_returns. }
  destruct (Hret w) as [results Hresults]. exists results. split; [done|].
  pose proof (post_try_finally _ _
                (s <- get self ;; when (cleanup_worktrees s) cleanup_all_worktrees)
                (post_batch_body runs file_issues 0)) as Hpost.
  exact (Hpost w results Hresults).
Qed.

Lemma batch_fix_files_answers_every_file_witness :
  exists results,
    (batch_fix_files (fun _ => timeout_run)
       [("a.py"%string, [issue_at 1]); ("b.py"%string, [])]
       (initial_world default_fixer ∅)).1 = Return results
    /\ map fst results = map fst [("a.py"%string, [issue_at 1]); ("b.py"%string, [])].
Proof.
  apply (batch_fix_files_answers_every_file (fun _ => timeout_run)
           [("a.py"%string, [issue_at 1]); ("b.py"%string, [])]
           (initial_world default_fixer ∅)).
  reflexivity.
Defined.

(** *** A session that the predictor settles alone *)

Lemma predict_pass_invariant s issues predicted remaining content :
  let '(predicted', remaining', content') :=
    fold_left
      (fun '(predicted_fixes, remaining_issues, file_content) issue =>
         match predict_simple_fix s issue file_content with
         | Some ((_ :: _) as fixed) =>
             (predicted_fixes ++ [(issue, fixed)], remaining_issues, fixed)
         | _ => (predicted_fixes, remaining_issues ++ [issue], file_content)
         end)
      issues (predicted, remaining, content) in
  (length predicted' + length remaining'
   = length predicted + length remaining + length issues)%nat
  /\ (length predicted <= length predicted')%nat
  /\ (length content <= length content')%nat
  /\ ((length predicted < length predicted')%nat ->
      (length content < length content')%nat)
  /\ map fst predicted' ++ remaining'
     ≡ₚ (map fst predicted ++ remaining) ++ issues
  /\ (forall original,
        content = default original (snd <$> last predicted) ->
        content' = default original (snd <$> last predicted')).
Proof.
  revert predicted remaining content.
  induction issues as [|i issues IH]; intros predicted remaining content.
  - simpl. rewrite app_nil_r. repeat split; try lia; done.
  - simpl.
    assert (forall p' r' (c' : str),
      (length p' + length r'
       = length predicted + length (remaining ++ [i]) + length issues)%nat
      /\ (length predicted <= length p')%nat
      /\ (length content <= length c')%nat
      /\ ((length predicted < length p')%nat -> (length content < length c')%nat)
      /\ map fst p' ++ r' ≡ₚ (map fst predicted ++ remaining ++ [i]) ++ issues
      /\ (forall original,
            content = default original (snd <$> last predicted) ->
            c' = default original (snd <$> last p')) ->
      (length p' + length r'
       = length predicted + length remaining + S (length issues))%nat
      /\ (length predicted <= length p')%nat
      /\ (length content <= length c')%nat
      /\ ((length predicted < length p')%nat -> (length content < length c')%nat)
      /\ map fst p' ++ r' ≡ₚ (map fst predicted ++ remaining) ++ i :: issues
      /\ (forall original,
            content = default original (snd <$> last predicted) ->
            c' = default original (snd <$> last p'))) as Hskip.
    { intros p' r' c' (H1 & H2 & H3 & H4 & H5 & H6).
      rewrite length_app in H1. simpl in H1.
      repeat split; try done; try lia.
      rewrite H5. rewrite <- !app_assoc. simpl. done. }
    destruct (predict_simple_fix s i content) as [[|c fixed]|] eqn:Hp.
    + specialize (IH predicted (remaining ++ [i]) content).
      destruct (fold_left _ _ _) as [[p' r'] c']. by apply Hskip.
    + apply predict_simple_fix_longer in Hp.
      specialize (IH (predicted ++ [(i, c :: fixed)]) remaining (c :: fixed)).
      destruct (fold_left _ _ _) as [[p' r'] c'].
      destruct IH as (H1 & H2 & H3 & H4 & H5 & H6).
      rewrite length_app in H1, H2, H4. simpl in *.
      repeat split; try lia.
      * rewrite H5, map_app. simpl. rewrite <- !app_assoc. simpl.
        apply Permutation_app_head.
        apply Permutation_middle.
      * intros original _. apply H6. by rewrite last_snoc.
    + specialize (IH predicted (remaining ++ [i]) content).
      destruct (fold_left _ _ _) as [[p' r'] c']. by apply Hskip.
Qed.

(** The prediction pass at the head of a session loses no issue and
    invents none: every issue is either predicted or left for the agent.
    The content it hands on is the text of the last predicted fix (the
    original content when nothing was predicted), and it is strictly
    longer than the original as soon as one fix was predicted. *)
Theorem prediction_pass_accounts_for_issues
    (s : ClaudeCodeFixer) (issues : list Issue) (content : str)
    (predicted_fixes : list (Issue * str)) (remaining_issues : list Issue)
    (file_content : str) :
  predict_pass s issues content
  = (predicted_fixes, remaining_issues, file_content) ->
  map fst predicted_fixes ++ remaining_issues ≡ₚ issues
  /\ file_content = default content (snd <$> last predicted_fixes)
  /\ (predicted_fixes <> [] -> (length content < length file_content)%nat).
Proof.
  intros Hpass.
  pose proof (predict_pass_invariant s issues [] [] content) as Hinv.
  unfold predict_pass in Hpass. rewrite Hpass in Hinv.
  destruct Hinv as (_ & _ & _ & Hlonger & Hperm & Hlast).
  split; [done|]. split; [by apply Hlast|].
  intros Hne. apply Hlonger. destruct predicted_fixes; [done|]. simpl. lia.
Qed.

Lemma prediction_pass_accounts_for_issues_witness :
  map fst [(undefined_json, lit "import json
print(json.dumps(1))
y = 2")] ++ [issue_at 2] ≡ₚ [undefined_json; issue_at 2]
  /\ lit "import json
print(json.dumps(1))
y = 2"
     = default (lit "print(json.dumps(1))
y = 2")
         (snd <$> last [(undefined_json, lit "import json
print(json.dumps(1))
y = 2")])
  /\ ([(undefined_json, lit "import json
print(json.dumps(1))
y = 2")] <> [] ->
      (length (lit "print(json.dumps(1))
y = 2")
       < length (lit "import json
print(json.dumps(1))
y = 2"))%nat).
Proof.
  apply (prediction_pass_accounts_for_issues default_fixer
           [undefined_json; issue_at 2]).
  vm_compute. exact eq_refl.
Defined.

(** When the predictor resolves every issue of a file (one at least), the
    session ends without the agent: no pool, no worktree and no command,
    the file is written with the content after the last predicted fix,
    and the result reports success with every issue counted as predicted
    and no agent call. *)
Theorem predicted_fixes_need_no_agent
    (run : FileRun) (file_path : string) (issues : list Issue) (w : World)
    (content : str) (predicted_fixes : list (Issue * str)) (file_content : str) :
  attempts_of file_path w + 1 <= max_fix_attempts (self w) ->
  disk w !! file_path = Some content ->
  predict_pass (self w) issues content = (predicted_fixes, [], file_content) ->
  issues <> [] ->
  let session := _fix_single_file run file_path issues w in
  (exists result,
     session.1 = Return result
     /\ file_success result = true
     /\ predicted result = Some (length issues)
     /\ claude_calls result = Some 0%nat
     /\ worktrees_used result = None)
  /\ disk session.2 = <[file_path := file_content]> (disk w)
  /\ worktree_files session.2 = worktree_files w
  /\ trace session.2 = trace w.
Proof.
  intros Hbudget Hdisk Hpass Hissues session.
  pose proof (predict_pass_invariant (self w) issues [] [] content) as Hinv.
  unfold predict_pass in Hpass. rewrite Hpass in Hinv. simpl in Hinv.
  destruct Hinv as (Hlen & _ & _ & Hlonger & _ & _).
  assert (file_content <> content) as Hchanged.
  { intros ->. destruct issues; [done|]. simpl in *. lia. }
  set (w1 := {| self := set_attempts
                          (<[file_path := attempts_of file_path w + 1]>
                             (_fix_attempts (self w))) (self w);
                disk := disk w; worktree_files := worktree_files w;
                trace := trace w |}).
  assert (session
          = (write_text (RealFile file_path) file_content ;;;
             ret {| file_success := true; file_error := None;
                    file_message :=
                      Some (lit "Fixed " ++ str_of_int (Z.of_nat (length issues))
                            ++ lit " issues with "
                            ++ str_of_int (Z.of_nat (length predicted_fixes))
                            ++ lit " predictions and "
                            ++ str_of_int (Z.of_nat (length (@nil IssueCluster)))
                            ++ lit " Claude calls");
                    predicted := Some (length predicted_fixes);
                    worktrees_used := None;
                    claude_calls := Some (length (@nil IssueCluster)) |}) w1)
    as ->.
  { unfold session. rewrite fix_single_file_unfold. cbv zeta. fold w1.
    destruct (Z.ltb_spec (max_fix_attempts (self w)) (attempts_of file_path w + 1));
      [lia|].
    unfold try_except, fix_single_file_body, bind at 1, read_text, bind at 1, get.
    change (disk w1) with (disk w). rewrite Hdisk. unfold ret at 1.
    unfold predict_pass. rewrite Hpass.
    unfold write_result. rewrite bool_decide_true by done.
    unfold bind, write_text, update_disk, ret. reflexivity. }
  split; [|by repeat split].
  eexists. split; [reflexivity|]. repeat split. cbn. f_equal. lia.
Qed.

Lemma predicted_fixes_need_no_agent_witness :
  let w := initial_world default_fixer
             {[ "a.py"%string := lit "print(json.dumps(1))" ]} in
  let session := _fix_single_file (smooth_run None) "a.py" [undefined_json] w in
  (exists result,
     session.1 = Return result
     /\ file_success result = true
     /\ predicted result = Some (length [undefined_json])
     /\ claude_calls result = Some 0%nat
     /\ worktrees_used result = None)
  /\ disk session.2
     = <["a.py"%string := lit "import json
print(json.dumps(1))"]> (disk w)
  /\ worktree_files session.2 = worktree_files w
  /\ trace session.2 = trace w.
Proof.
  apply (predicted_fixes_need_no_agent (smooth_run None) "a.py" [undefined_json]
           (initial_world default_fixer
              {[ "a.py"%string := lit "print(json.dumps(1))" ]})
           (lit "print(json.dumps(1))")
           [(undefined_json, lit "import json
print(json.dumps(1))")]).
  - vm_compute. discriminate.
  - vm_compute. exact eq_refl.
  - vm_compute. exact eq_refl.
  - discriminate.
Defined.

(** *** A merge strategy that is not known *)

(** A merge strategy that is none of ['claude'], ['sequential'] and
    ['octopus'] merges nothing: [_merge_worktree_fixes] runs no program,
    writes no file, and still answers [True], whatever the agents
    returned. *)
Theorem unknown_strategy_merges_nothing (run : FileRun) (file_path : string)
    (cluster_results : list FixResult) (w : World) :
  worktree_merge_strategy (self w) ∉
    [lit "claude"; lit "sequential"; lit "octopus"] ->
  _merge_worktree_fixes run file_path cluster_results w = (Return true, w).
Proof.
  intros Hstrategy. unfold _merge_worktree_fixes.
  destruct cluster_results as [|r rest]; [done|].
  unfold bind, get.
  repeat (destruct (decide _) as [E|_];
          [exfalso; apply Hstrategy; rewrite E;
           rewrite !elem_of_cons; tauto|]).
  reflexivity.
Qed.

Lemma unknown_strategy_merges_nothing_witness :
  let w := initial_world (session_fixer true "rebase" true 10 10)
             {[ "a.py"%string := lit "x = 1" ]} in
  _merge_worktree_fixes (smooth_run None) "a.py" [patch_result 1 "p" "wt"] w
  = (Return true, w).
Proof.
  intros w.
  apply (unknown_strategy_merges_nothing (smooth_run None) "a.py"
           [patch_result 1 "p" "wt"] w).
  vm_compute. intros H. repeat (apply elem_of_cons in H as [H|H]; [done|]).
  by apply elem_of_nil in H.
Defined.

End SessionMore.

(** ** The auto-fixer: backups, reports and the policy *)
Module AutoFixMore.
Import PyStr Json AutoFix AutoFixPolicy AutoFixFacts.

(** *** Backups *)

(** A backup made by [create_backup] brings the file back: after any
    change of the files that leaves the backup alone, [restore_backup]
    answers [True] and the file holds again what it held when the backup
    was made. *)
Theorem backup_restores_the_file
    (self : AutoFixer) (file_path : string) (timestamp : Z)
    (files files1 files2 : gmap string str) (b : string) :
  create_backup self file_path timestamp false files = (Some b, files1) ->
  files2 !! b = files1 !! b ->
  let '(restored, files3) := restore_backup b file_path false files2 in
  restored = true
  /\ files3 !! file_path = files !! file_path
  /\ forall other, other <> file_path -> files3 !! other = files2 !! other.
Proof.
  intros Hb Hframe.
  destruct (create_backup_Some _ _ _ _ _ _ _ Hb) as (content & Hfile & ->).
  rewrite lookup_insert_eq in Hframe.
  unfold restore_backup, copy2. rewrite Hframe.
  split; [done|]. split.
  - by rewrite lookup_insert_eq.
  - intros other Hne. by rewrite lookup_insert_ne.
Qed.

Lemma backup_restores_the_file_witness :
  let files : gmap string str := {[ "a.py"%string := lit "x=1" ]} in
  let files2 : gmap string str :=
    {[ "a.py"%string := lit "garbled"; "/b/a.py.17.bak"%string := lit "x=1" ]} in
  let '(restored, files3) :=
    restore_backup "/b/a.py.17.bak" "a.py" false files2 in
  restored = true
  /\ files3 !! "a.py"%string = files !! "a.py"%string
  /\ forall other, other <> "a.py"%string -> files3 !! other = files2 !! other.
Proof.
  intros files files2.
  apply (backup_restores_the_file {| backup_dir := "/b" |} "a.py" 17 files
           (<["/b/a.py.17.bak"%string := lit "x=1"]> files) files2).
  - vm_compute. exact eq_refl.
  - vm_compute. exact eq_refl.
Defined.

(** *** What a run reports *)

(** [run_auto_fix] reports [fixed = True] exactly when the command ran to
    its end and the file reads differently afterwards; the files are then
    as the command left them, and the exit status of the command plays no
    part. *)
Theorem run_auto_fix_fixed_iff_changed
    (unified_diff : string -> str -> str -> str) (self : AutoFixer)
    (file_path linter : string) (fix_cmd : Command) (timestamp : Z)
    (copy_fails restore_fails : bool) (files : gmap string str) :
  let files1 := (create_backup self file_path timestamp copy_fails files).2 in
  let '(outcome, files') :=
    run_auto_fix unified_diff self file_path linter fix_cmd timestamp
                 copy_fails restore_fails files in
  (exists result, outcome = Returns result /\ fixed result = true)
  <-> exists original returncode files2 changed,
        files1 !! file_path = Some original
        /\ fix_cmd files1 = (Completed returncode, files2)
        /\ files2 !! file_path = Some changed
        /\ original <> changed
        /\ files' = files2.
Proof.
  unfold run_auto_fix.
  destruct (create_backup self file_path timestamp copy_fails files)
    as [backup_path files1]. cbn [snd].
  assert (forall result files2,
            fixed result = false ->
            let '(outcome, files') :=
              match restore_from backup_path file_path restore_fails files2 with
              | Some restored => (Returns result, restored)
              | None => (Raises, files2)
              end in
            ~ exists result', outcome = Returns result' /\ fixed result' = true)
    as Hhandler.
  { intros result files2 Hres.
    destruct (restore_from _ _ _ _); intros (r & [= <-] & Hr); congruence. }
  destruct (files1 !! file_path) as [original|] eqn:Horig.
  - destruct (fix_cmd files1) as [[rc| |msg] files2] eqn:Hcmd.
    + destruct (files2 !! file_path) as [changed|] eqn:Hnew.
      * destruct (decide (original = changed)) as [->|Hne].
        -- split; [by intros (r & [= <-] & Hr)|].
           intros (o & r & f2 & c & Ho & Hc & Hn & Hd & _). simplify_eq.
        -- split; [|by eauto]. intros _. exists original, rc, files2, changed.
           by repeat split.
      * match goal with |- context [restore_from ?b ?f ?r ?fs] =>
          pose proof (Hhandler
            {| fixed := false; message := lit "Auto-fix failed"; diff := None;
               backup := None; returncode := None;
               error := Some (lit "No such file or directory") |} fs eq_refl)
            as Hno end.
        destruct (restore_from _ _ _ _); (split; [by intros H; destruct Hno|]);
          intros (o & r & f2 & c & Ho & Hc & Hn & _); simplify_eq.
    + pose proof (Hhandler
        {| fixed := false; message := lit "Auto-fix timed out"; diff := None;
           backup := None; returncode := None;
           error := Some (lit "Timeout after 30 seconds") |} files2 eq_refl)
        as Hno.
      destruct (restore_from _ _ _ _); (split; [by intros H; destruct Hno|]);
        intros (o & r & f2 & c & _ & Hc & _); done.
    + pose proof (Hhandler
        {| fixed := false; message := lit "Auto-fix failed"; diff := None;
           backup := None; returncode := None; error := Some msg |}
        files2 eq_refl) as Hno.
      destruct (restore_from _ _ _ _); (split; [by intros H; destruct Hno|]);
        intros (o & r & f2 & c & _ & Hc & _); done.
  - pose proof (Hhandler
      {| fixed := false; message := lit "Auto-fix failed"; diff := None;
         backup := None; returncode := None;
         error := Some (lit "No such file or directory") |} files1 eq_refl)
      as Hno.
    destruct (restore_from _ _ _ _); (split; [by intros H; destruct Hno|]);
      intros (o & r & f2 & c & Ho & _); done.
Qed.

(** *** The policy *)

Lemma fixable_count_positive issues :
  fixable_count issues <> 0%nat -> issues <> [].
Proof. by destruct issues. Qed.

(** The policy is downward closed: when [should_auto_fix] approves a list
    of issues it approves every selection from that list, in any order,
    that still holds a fixable issue. *)
Theorem should_auto_fix_approves_fewer
    (config : gmap string json) (linter : string)
    (issues issues' : list (gmap string json)) :
  should_auto_fix config linter issues = Ok true ->
  issues' ⊆+ issues ->
  fixable_count issues' <> 0%nat ->
  should_auto_fix config linter issues' = Ok true.
Proof.
  unfold should_auto_fix. intros H Hsub Hfix.
  destruct (py_get _ "enabled" _) as [enabled|e]; [|done].
  destruct (negb (truthy enabled)); [done|].
  destruct (py_get _ "linters" _) as [linter_config|e]; [|done].
  destruct (py_in linter linter_config) as [known|e]; [|done].
  destruct (if known then _ else _) as [setting|e]; [|done].
  destruct (known && negb (truthy setting)); [done|].
  destruct (bool_decide (fixable_count issues = 0%nat)); [done|].
  rewrite bool_decide_false by done.
  destruct (py_get _ "threshold" _) as [threshold|e]; [|done].
  pose proof (submseteq_length _ _ Hsub) as Hlen.
  destruct threshold as [|b|m| | |]; simpl in *; try done.
  - destruct (Z.ltb_spec (if b then 1 else 0) (Z.of_nat (length issues)));
      [done|].
    destruct (Z.ltb_spec (if b then 1 else 0) (Z.of_nat (length issues')));
      [lia|done].
  - destruct (Z.ltb_spec m (Z.of_nat (length issues))); [done|].
    destruct (Z.ltb_spec m (Z.of_nat (length issues'))); [lia|done].
Qed.

Lemma should_auto_fix_approves_fewer_witness :
  should_auto_fix {[ "auto_fix"%string := JDict {[ "threshold"%string := JInt 2 ]} ]}
    "ruff" [∅] = Ok true.
Proof.
  apply (should_auto_fix_approves_fewer _ "ruff"
           [{[ "fixable"%string := JBool false ]}; ∅] [∅]).
  - vm_compute. exact eq_refl.
  - apply submseteq_cons. reflexivity.
  - vm_compute. discriminate.
Defined.

End AutoFixMore.

(** ** The gate of the fixer and the context of an issue *)
Module GateFacts.
Import PyStr Fixer FixerGate PyStrFacts.

(** *** The gate *)

(** The gate is monotone: if [should_use_claude] accepts a list of issues
    it accepts every list that holds those issues, in any order and with
    others among them, and also when the auto-fix has failed. *)
Theorem should_use_claude_monotone
    (self : ClaudeCodeFixer) (version : VersionOutcome)
    (issues issues' : list Issue) (auto_fix_failed auto_fix_failed' : bool) :
  should_use_claude self version issues auto_fix_failed = true ->
  (forall i, In i issues -> In i issues') ->
  (auto_fix_failed = true -> auto_fix_failed' = true) ->
  should_use_claude self version issues' auto_fix_failed' = true.
Proof.
  unfold should_use_claude. intros H Hsub Hfailed.
  destruct (negb (enabled self)); [done|].
  destruct (negb (_is_claude_code_available version)); [done|].
  destruct auto_fix_failed.
  - by rewrite Hfailed.
  - destruct auto_fix_failed'; [done|].
    apply existsb_exists in H as (i & Hi & Hc).
    apply existsb_exists. exists i. split; [by apply Hsub|done].
Qed.

Lemma should_use_claude_monotone_witness :
  should_use_claude default_fixer (VersionExit 0)
    [Spec.issue_at 3; Spec.undefined_json] false = true.
Proof.
  apply (should_use_claude_monotone default_fixer (VersionExit 0)
           [Spec.undefined_json] [Spec.issue_at 3; Spec.undefined_json]
           false false).
  - vm_compute. exact eq_refl.
  - simpl. tauto.
  - discriminate.
Defined.

(** *** The context of an issue *)

Lemma take_add {A} (l : list A) m n :
  take (m + n) l = take m l ++ take n (drop m l).
Proof.
  revert l. induction m as [|m IH]; intros l; [done|].
  destruct l as [|x l]; simpl; [by rewrite take_nil|].
  by rewrite IH.
Qed.

(** For a range of lines that lies in the text, the context holds the
    lines of the range, in order and in full, with at most
    [context_lines] lines before them and at most [context_lines] lines
    after them. *)
Theorem extract_context_holds_the_range
    (content : str) (start_line end_line context_lines : Z) :
  1 <= start_line <= end_line ->
  end_line <= Z.of_nat (length (split newline content)) ->
  0 <= context_lines ->
  exists before after,
    split newline (_extract_context content start_line end_line context_lines)
    = before
      ++ take (Z.to_nat (end_line - start_line + 1))
              (drop (Z.to_nat (start_line - 1)) (split newline content))
      ++ after
    /\ Z.of_nat (length before) <= context_lines
    /\ Z.of_nat (length after) <= context_lines.
Proof.
  intros Hrange Hend Hctx. unfold _extract_context, py_slice.
  set (lines := split newline content) in *.
  set (len := Z.of_nat (length lines)) in *.
  set (s := Z.max 0 (start_line - context_lines - 1)).
  set (e := Z.min len (end_line + context_lines)).
  assert (0 <= s <= start_line - 1) as Hs by (unfold s; lia).
  assert (end_line <= e <= len) as He by (unfold e; lia).
  destruct (Z.ltb_spec e 0) as [?|_]; [lia|].
  destruct (Z.ltb_spec s 0) as [?|_]; [lia|].
  rewrite (Z.min_l e len), (Z.min_l s len) by lia.
  set (n1 := Z.to_nat (start_line - 1 - s)).
  set (n2 := Z.to_nat (end_line - start_line + 1)).
  set (n3 := Z.to_nat (e - end_line)).
  assert (Z.to_nat (e - s) = (n1 + (n2 + n3))%nat) as -> by (unfold n1, n2, n3; lia).
  rewrite !take_add, !drop_drop.
  assert (Z.to_nat s + n1 = Z.to_nat (start_line - 1))%nat as ->
    by (unfold n1; lia).
  exists (take n1 (drop (Z.to_nat s) lines)),
         (take n3 (drop (Z.to_nat (start_line - 1) + n2) lines)).
  split; [|split].
  - apply split_join.
    + intros Hnil. apply (f_equal length) in Hnil.
      rewrite !length_app, !length_take, !length_drop in Hnil.
      simpl in Hnil. unfold n2, len in *. lia.
    + rewrite !Forall_app. repeat split;
        apply Forall_take, Forall_drop, split_pieces.
  - rewrite length_take. unfold n1. lia.
  - rewrite length_take. unfold n3, e. lia.
Qed.

Lemma extract_context_holds_the_range_witness :
  exists before after,
    split newline (_extract_context (lit "a
b
c
d
e") 3 3 1)
    = before
      ++ take (Z.to_nat (3 - 3 + 1))
              (drop (Z.to_nat (3 - 1)) (split newline (lit "a
b
c
d
e")))
      ++ after
    /\ Z.of_nat (length before) <= 1
    /\ Z.of_nat (length after) <= 1.
Proof.
  apply (extract_context_holds_the_range (lit "a
b
c
d
e") 3 3 1).
  - lia.
  - vm_compute. discriminate.
  - lia.
Defined.

End GateFacts.

(** ** The hook: paths, linters and the verdict *)
Module HookFacts.
Import PyStr Json AutoFixPolicy Hook Props.

Lemma and_then_Ok {A B} (r : result A) (k : A -> result B) b :
  and_then r k = Ok b -> exists a, r = Ok a /\ k a = Ok b.
Proof. destruct r as [a|e]; [|done]. intros H. by exists a. Qed.

(** *** The paths named by a tool call *)

Lemma py_eq_scalar_refl p :
  match p with JList _ | JDict _ => False | _ => True end ->
  py_eq_scalar p p = true.
Proof.
  destruct p as [|b|n|s| |]; simpl; try done.
  - intros _. destruct b; done.
  - intros _. apply Z.eqb_refl.
  - intros _. by apply bool_decide_eq_true.
Qed.

Lemma py_unique_spec paths unique :
  py_unique paths = Ok unique ->
  NoDup unique
  /\ (forall q, q ∈ unique -> q ∈ paths)
  /\ (forall s, JStr s ∈ paths -> JStr s ∈ unique).
Proof.
  revert unique. induction paths as [|p paths IH]; intros unique; simpl.
  - intros [= <-]. split; [constructor|]. split; [done|]. intros s Hs.
    by apply elem_of_nil in Hs.
  - intros H.
    assert (match p with JList _ | JDict _ => False | _ => True end
            /\ exists others,
                 py_unique paths = Ok others
                 /\ unique = p :: filter (fun q => py_eq_scalar p q = false) others)
      as (Hp & others & Ho & ->).
    { destruct p; try done;
        apply and_then_Ok in H as (others & Ho & [= <-]); eauto. }
    destruct (IH others Ho) as (Hnodup & Hsub & Hstr).
    split; [|split].
    + constructor; [|by apply NoDup_filter].
      intros Hin. apply list_elem_of_filter in Hin as [Hne _].
      by rewrite py_eq_scalar_refl in Hne.
    + intros q Hq. apply elem_of_cons in Hq as [->|Hq]; [by left|].
      right. apply Hsub. by apply list_elem_of_filter in Hq as [_ Hq].
    + intros s Hs. apply elem_of_cons in Hs as [<-|Hs]; [by left|].
      destruct (py_eq_scalar p (JStr s)) eqn:Heq.
      * destruct p; simpl in Heq; try done.
        apply bool_decide_eq_true in Heq as ->. by left.
      * right. apply list_elem_of_filter. split; [done|by apply Hstr].
Qed.

(** [extract_file_paths] returns each path once, and the paths it returns
    are those that the tool call names: the value of [file_path], or that
    of [filePath] when there is no [file_path], the [file_path] of the
    edits, and the value of [notebook_path]. *)
Theorem extract_file_paths_names_the_files
    (tool_input : gmap string json) (paths : list json) :
  extract_file_paths tool_input = Ok paths ->
  NoDup paths
  /\ forall s,
       JStr s ∈ paths
       <-> tool_input !! "file_path"%string = Some (JStr s)
           \/ (tool_input !! "file_path"%string = None
               /\ tool_input !! "filePath"%string = Some (JStr s))
           \/ (exists l d,
                 tool_input !! "edits"%string = Some (JList l)
                 /\ JDict d ∈ l
                 /\ d !! "file_path"%string = Some (JStr s))
           \/ tool_input !! "notebook_path"%string = Some (JStr s).
Proof.
  unfold extract_file_paths. intros H.
  destruct (py_unique_spec _ _ H) as (Hnodup & Hsub & Hstr).
  split; [done|]. intros s. split.
  - intros Hin. apply Hsub in Hin.
    apply elem_of_app in Hin as [Hin|Hin].
    { destruct (tool_input !! "file_path"%string) as [p|] eqn:E1.
      - apply list_elem_of_singleton in Hin as <-. by left.
      - destruct (tool_input !! "filePath"%string) as [p|] eqn:E2.
        + apply list_elem_of_singleton in Hin as <-. right. by left.
        + by apply elem_of_nil in Hin. }
    apply elem_of_app in Hin as [Hin|Hin].
    { right. right. left.
      destruct (tool_input !! "edits"%string) as [[| | | |l|]|] eqn:E;
        try by apply elem_of_nil in Hin.
      apply list_elem_of_omap in Hin as (edit & Hedit & Hd).
      destruct edit as [| | | | |d]; try done. by exists l, d. }
    right. right. right.
    destruct (tool_input !! "notebook_path"%string) as [p|] eqn:E.
    + by apply list_elem_of_singleton in Hin as <-.
    + by apply elem_of_nil in Hin.
  - intros Hcase. apply Hstr.
    destruct Hcase as [E|[[E1 E2]|[(l & d & E & Hd & Hp)|E]]].
    + rewrite E. apply elem_of_app. left. by left.
    + rewrite E1, E2. apply elem_of_app. left. by left.
    + rewrite E. apply elem_of_app. right. apply elem_of_app. left.
      apply list_elem_of_omap. by exists (JDict d).
    + rewrite E. apply elem_of_app. right. apply elem_of_app. right. by left.
Qed.

Lemma extract_file_paths_names_the_files_witness :
  let tool_input : gmap string json :=
    {[ "file_path"%string := JStr (lit "a.py");
       "filePath"%string := JStr (lit "b.py");
       "notebook_path"%string := JStr (lit "a.py") ]} in
  NoDup [JStr (lit "a.py")]
  /\ forall s,
       JStr s ∈ [JStr (lit "a.py")]
       <-> tool_input !! "file_path"%string = Some (JStr s)
           \/ (tool_input !! "file_path"%string = None
               /\ tool_input !! "filePath"%string = Some (JStr s))
           \/ (exists l d,
                 tool_input !! "edits"%string = Some (JList l)
                 /\ JDict d ∈ l
                 /\ d !! "file_path"%string = Some (JStr s))
           \/ tool_input !! "notebook_path"%string = Some (JStr s).
Proof.
  intros tool_input.
  apply (extract_file_paths_names_the_files tool_input).
  vm_compute. exact eq_refl.
Defined.

(** *** Reading the output of a linter *)

Lemma error_severity_blocks i :
  severity i = JStr (lit "error") ->
  (exists m, message i = JStr m) -> (exists r, rule i = JStr r) ->
  is_blocking_issue i = Ok true.
Proof.
  intros Hs (m & Hm) (r & Hr). unfold is_blocking_issue.
  rewrite Hm, Hr, Hs. cbn [py_lower].
  destruct (existsb _ BLOCKING_PATTERNS); [done|].
  by rewrite bool_decide_true.
Qed.

Section ParseFacts.
Context (json_loads : str -> option json) (py_int : str -> option Z).

(** When the output of a linter that prints JSON cannot be read (the text
    is not JSON, or the data have not the shape of any known format), the
    issues read before the failure are kept and one issue is added for
    the failure: on line 0, with the stripped output as its message; and
    that issue blocks. *)
Theorem unreadable_output_blocks (linter : string) (output stderr : str) :
  linter ∈ json_linters ->
  strip output <> [] ->
  unreadable json_loads output ->
  exists found failure,
    parse_linter_output json_loads py_int linter output stderr
    = found ++ [failure]
    /\ line failure = JInt 0
    /\ message failure = JStr (strip output)
    /\ is_blocking_issue failure = Ok true.
Proof.
  intros Hlinter Hout Hfail. unfold parse_linter_output, unreadable in *.
  rewrite bool_decide_true by done. rewrite bool_decide_true by done.
  assert (exists failure,
    fallback_issue output stderr = [failure]
    /\ line failure = JInt 0 /\ message failure = JStr (strip output)
    /\ is_blocking_issue failure = Ok true) as (failure & Hfb & Hl & Hm & Hb).
  { unfold fallback_issue. rewrite bool_decide_true by done. simpl.
    eexists. split; [reflexivity|]. split; [done|]. split; [done|].
    apply error_severity_blocks; simpl; eauto. }
  destruct (json_loads output) as [data|].
  - destruct (issues_of_data data) as [found [e|]]; [|done].
    exists found, failure. by rewrite Hfb.
  - exists [], failure. by rewrite Hfb.
Qed.

Lemma ruff_loop entries :
  Forall ruff_entry entries ->
  exists found,
    for_issues entries (fun issue => raising (ruff_issue issue)) = (found, None)
    /\ length found = length entries
    /\ Forall (fun i => severity i = JStr (lit "error")) found.
Proof.
  induction 1 as [|entry entries (d & -> & Hloc) _ (found & Hfound & Hlen & Hsev)].
  - by exists [].
  - simpl. unfold ruff_issue at 1. simpl.
    destruct (d !! "location"%string) as [[| | | | |loc]|]; try done; simpl;
      rewrite Hfound; eexists; (split; [reflexivity|]); simpl;
      (split; [by rewrite Hlen|]); by constructor.
Qed.

(** Every finding in the output of Ruff becomes one issue of severity
    ['error']: for output that is a JSON array of dicts whose first has a
    location (and whose locations are dicts), the issues are as many as
    the entries, and each of them blocks when its message and its code
    are strings. *)
Theorem ruff_findings_all_block
    (linter : string) (output stderr : str) (first : gmap string json)
    (entries : list json) :
  linter ∈ json_linters ->
  strip output <> [] ->
  json_loads output = Some (JList (JDict first :: entries)) ->
  is_Some (first !! "location"%string) ->
  Forall ruff_entry (JDict first :: entries) ->
  let found := parse_linter_output json_loads py_int linter output stderr in
  length found = S (length entries)
  /\ Forall (fun i =>
               severity i = JStr (lit "error")
               /\ ((exists m, message i = JStr m) ->
                   (exists r, rule i = JStr r) ->
                   is_blocking_issue i = Ok true))
            found.
Proof.
  intros Hlinter Hout Hdata Hfirst Hentries. unfold parse_linter_output.
  rewrite bool_decide_true by done. rewrite bool_decide_true by done.
  rewrite Hdata.
  destruct (ruff_loop _ Hentries) as (found & Hfound & Hlen & Hsev).
  unfold issues_of_data, py_in. rewrite bool_decide_true by done.
  rewrite Hfound. simpl. split; [done|].
  eapply Forall_impl; [exact Hsev|]. intros i Hi. split; [done|].
  by apply error_severity_blocks.
Qed.

Lemma split_three_colons p r c m :
  Forall (fun a => a <> ":"%char) p ->
  Forall (fun a => a <> ":"%char) r ->
  Forall (fun a => a <> ":"%char) c ->
  split ":"%char (p ++ ":"%char :: r ++ ":"%char :: c ++ ":"%char :: m)
  = p :: r :: c :: split ":"%char m.
Proof.
  intros Hp Hr Hc.
  rewrite PyStrFacts.split_app_sep by done.
  rewrite PyStrFacts.split_app_sep by done.
  by rewrite PyStrFacts.split_app_sep by done.
Qed.

(** A linter that prints text is read line by line: a line of the form
    [path:row:column:text] whose row and column are numbers gives one
    issue with that row and column, no rule, the severity ['error'], and
    as its message the whole rest of the line, colons included, without
    the blanks around it. *)
Theorem text_line_becomes_an_issue
    (linter : string) (path row_text column_text text : str) (row col : Z)
    (stderr : str) :
  linter ∉ json_linters ->
  Forall (fun a => a <> ":"%char /\ a <> Fixer.newline) path ->
  Forall (fun a => a <> ":"%char /\ a <> Fixer.newline) row_text ->
  Forall (fun a => a <> ":"%char /\ a <> Fixer.newline) column_text ->
  Forall (fun a => a <> Fixer.newline) text ->
  py_int row_text = Some row ->
  py_int column_text = Some col ->
  parse_linter_output json_loads py_int linter
    (path ++ ":"%char :: row_text ++ ":"%char :: column_text ++ ":"%char :: text)
    stderr
  = [ {| line := JInt row; column := JInt col;
         severity := JStr (lit "error");
         message := JStr (strip text); rule := JStr [] |} ].
Proof.
  intros Hlinter Hpath Hrow Hcol Htext Hr Hc. unfold parse_linter_output.
  rewrite bool_decide_false by done.
  set (l := path ++ ":"%char :: row_text ++ ":"%char :: column_text
            ++ ":"%char :: text).
  assert (Forall (fun a => a <> Fixer.newline) l) as Hl.
  { assert (forall s, Forall (fun a => a <> ":"%char /\ a <> Fixer.newline) s ->
                       Forall (fun a => a <> Fixer.newline) s) as Hweak.
    { intros s Hs. eapply Forall_impl; [exact Hs|]. by intros a [_ ?]. }
    unfold l. repeat (rewrite Forall_app || rewrite Forall_cons).
    repeat split; auto; by vm_compute. }
  rewrite (PyStrFacts.split_no_sep Fixer.newline l Hl).
  simpl. rewrite app_nil_r. unfold text_issue.
  assert (split ":"%char l = path :: row_text :: column_text :: split ":"%char text)
    as ->.
  { apply split_three_colons;
      (eapply Forall_impl; [eassumption|]; by intros a [? _]). }
  assert (contains (lit ":") l = true) as ->.
  { unfold l. apply (PyStrFacts.contains_middle (lit ":") path). }
  assert ((4 <=? Z.of_nat (length (path :: row_text :: column_text
                                    :: split ":"%char text)))%Z = true) as ->.
  { apply Z.leb_le. pose proof (PyStrFacts.split_nonempty ":"%char text).
    simpl. destruct (split ":"%char text); [done|]. simpl. lia. }
  change ((path :: row_text :: column_text :: split ":"%char text) !! 1%nat)
    with (Some row_text).
  change ((path :: row_text :: column_text :: split ":"%char text) !! 2%nat)
    with (Some column_text).
  unfold default. cbn [andb from_option id drop]. rewrite Hr, Hc.
  change (lit ":") with [":"%char]. rewrite drop_0.
  by rewrite (PredictorShape.join_split ":"%char text).
Qed.

End ParseFacts.

Lemma text_line_becomes_an_issue_witness :
  parse_linter_output (fun _ => None)
    (fun s => if decide (s = lit "3") then Some 3
              else if decide (s = lit "7") then Some 7 else None)
    "pycodestyle"
    (lit "a.py" ++ ":"%char :: lit "3" ++ ":"%char :: lit "7" ++ ":"%char
     :: lit " E501 line too long: 90 > 79")
    []
  = [ {| line := JInt 3; column := JInt 7;
         severity := JStr (lit "error");
         message := JStr (strip (lit " E501 line too long: 90 > 79"));
         rule := JStr [] |} ].
Proof.
  apply (text_line_becomes_an_issue (fun _ => None) _ "pycodestyle"
           (lit "a.py") (lit "3") (lit "7")
           (lit " E501 line too long: 90 > 79") 3 7 []).
  - vm_compute. intros H. repeat (apply elem_of_cons in H as [H|H]; [done|]).
    by apply elem_of_nil in H.
  - vm_compute. repeat constructor; discriminate.
  - vm_compute. repeat constructor; discriminate.
  - vm_compute. repeat constructor; discriminate.
  - vm_compute. repeat constructor; discriminate.
  - reflexivity.
  - reflexivity.
Defined.

Lemma unreadable_output_blocks_witness :
  exists found failure,
    parse_linter_output (fun _ => None) (fun _ => None) "ruff"
      (lit "ruff: command failed") []
    = found ++ [failure]
    /\ line failure = JInt 0
    /\ message failure = JStr (strip (lit "ruff: command failed"))
    /\ is_blocking_issue failure = Ok true.
Proof.
  apply (unreadable_output_blocks (fun _ => None) (fun _ => None) "ruff"
           (lit "ruff: command failed") []).
  - vm_compute. repeat constructor.
  - discriminate.
  - exact I.
Defined.

Lemma ruff_findings_all_block_witness :
  let entry : gmap string json :=
    {[ "code"%string := JStr (lit "E501");
       "message"%string := JStr (lit "Line too long");
       "location"%string := JDict {[ "row"%string := JInt 3 ]} ]} in
  let found :=
    parse_linter_output (fun _ => Some (JList [JDict entry])) (fun _ => None)
      "ruff" (lit "[...]") [] in
  length found = 1%nat
  /\ Forall (fun i =>
               severity i = JStr (lit "error")
               /\ ((exists m, message i = JStr m) ->
                   (exists r, rule i = JStr r) ->
                   is_blocking_issue i = Ok true))
            found.
Proof.
  intros entry.
  apply (ruff_findings_all_block (fun _ => Some (JList [JDict entry]))
           (fun _ => None) "ruff" (lit "[...]") [] entry []).
  - vm_compute. repeat constructor.
  - discriminate.
  - reflexivity.
  - vm_compute. eauto.
  - repeat constructor. exists entry. split; [done|]. vm_compute. exact I.
Defined.

(** *** The linters that run on a file *)

Section LintFacts.
Context (json_loads : str -> option json) (py_int : str -> option Z).
Context (suffix : string -> string) (which : string -> WhichOutcome).
Context (process : list string -> ProcOutcome).

Local Abbreviation run_one := (run_one json_loads py_int which process).
Local Abbreviation run_fallbacks := (run_fallbacks json_loads py_int which process).
Local Abbreviation run_linters := (run_linters json_loads py_int which process).
Local Abbreviation lint_file := (lint_file json_loads py_int suffix which process).

Lemma run_one_runs linter_config name cmd_word c cmd file_path returncode
    stdout stderr :
  first_word name = Some cmd_word ->
  which cmd_word = WhichFound ->
  lookup_literal name (commands linter_config) = Some (c :: cmd) ->
  process ((c :: cmd) ++ [file_path]) = ProcExit returncode stdout stderr ->
  returncode <> -1 ->
  run_one linter_config name file_path
  = Ok (Some (parse_linter_output json_loads py_int name stdout stderr)).
Proof.
  intros Hword Hwhich Hcmd Hproc Hrc.
  unfold Hook.run_one, get_linter_availability, run_linter_with_timeout.
  rewrite Hword, Hwhich. cbn [and_then]. rewrite Hcmd. cbn [default id].
  rewrite Hproc. by rewrite bool_decide_true.
Qed.

Lemma run_fallbacks_one linter_config names file_path all_issues linters_used :
  run_fallbacks linter_config names file_path = Ok (all_issues, linters_used) ->
  linters_used = []
  \/ exists name, name ∈ names /\ linters_used = [name].
Proof.
  induction names as [|name names IH]; simpl.
  - intros [= <- <-]. by left.
  - intros H. apply and_then_Ok in H as ([found|] & _ & H).
    + injection H as <- <-. right. exists name. split; [by left|done].
    + destruct (IH H) as [->|(n & Hn & ->)]; [by left|].
      right. exists n. split; [by right|done].
Qed.

(** [lint_file] runs at most two linters on a file, and two only for a
    Python file: the primary linter and then pyright.  A fallback runs
    only when neither of them ran to its end, and then it is the only
    linter of the result. *)
Theorem lint_file_linters_used
    (ext : string) (linter_config : LinterConfig) (config : gmap string json)
    (file_path : string) (all_issues : list HookIssue)
    (linters_used : list string) :
  run_linters ext linter_config config file_path = Ok (all_issues, linters_used) ->
  linters_used = []
  \/ linters_used = [primary linter_config]
  \/ (ext = ".py"%string
      /\ (linters_used = ["pyright"%string]
          \/ linters_used = [primary linter_config; "pyright"%string]))
  \/ exists name, name ∈ fallback linter_config /\ linters_used = [name].
Proof.
  unfold Hook.run_linters. intros H.
  apply and_then_Ok in H as (run_type_checking & _ & H).
  apply and_then_Ok in H as (ran & _ & H).
  destruct (bool_decide (ext = ".py"%string)) eqn:Hext; simpl in H.
  - apply bool_decide_eq_true in Hext.
    destruct (truthy run_type_checking); simpl in H.
    + destruct ran as [found|]; simpl in H.
      * destruct (bool_decide ("pyright"%string ∈ [primary linter_config])).
        -- injection H as <- <-. right. by left.
        -- apply and_then_Ok in H as ([a u] & H1 & H).
           apply and_then_Ok in H1 as ([more|] & _ & H1); injection H1 as <- <-.
           ++ injection H as <- <-. right. right. left. split; [done|by right].
           ++ injection H as <- <-. right. by left.
      * try rewrite bool_decide_false in H by apply not_elem_of_nil.
        apply and_then_Ok in H as ([a u] & H1 & H).
        apply and_then_Ok in H1 as ([more|] & _ & H1); injection H1 as <- <-.
        ++ injection H as <- <-. right. right. left. split; [done|by left].
        ++ apply run_fallbacks_one in H as [->|Hf]; [by left|].
           by right; right; right.
    + destruct ran as [found|]; simpl in H.
      * injection H as <- <-. right. by left.
      * apply run_fallbacks_one in H as [->|Hf]; [by left|].
        by right; right; right.
  - destruct ran as [found|]; simpl in H.
    + injection H as <- <-. right. by left.
    + apply run_fallbacks_one in H as [->|Hf]; [by left|].
      by right; right; right.
Qed.

(** A Python file on which ruff and pyright both run gets no automatic
    fix: with type checking on (the default), [lint_file] names the linter
    of the result "ruff, pyright", and [get_fix_command] finds no fix
    command under that name in the entry of [LINTERS] for Python, which
    has one for "ruff". *)
Theorem python_with_two_linters_has_no_fix_command
    (file_path : string) (config : gmap string json)
    (code1 code2 : Z) (out1 err1 out2 err2 : str) (python : LinterConfig) :
  suffix file_path = ".py"%string ->
  lookup_literal ".py"%string LINTERS = Some python ->
  config !! "type_checking"%string = None ->
  which "ruff"%string = WhichFound ->
  which "pyright"%string = WhichFound ->
  process ["ruff"; "check"; "--output-format=json"; file_path]%string
  = ProcExit code1 out1 err1 ->
  code1 <> -1 ->
  process ["pyright"; "--outputjson"; file_path]%string
  = ProcExit code2 out2 err2 ->
  code2 <> -1 ->
  exists r,
    lint_file file_path config = Ok r
    /\ linter r = Some "ruff, pyright"%string
    /\ issues r
       = parse_linter_output json_loads py_int "ruff" out1 err1
         ++ parse_linter_output json_loads py_int "pyright" out2 err2
    /\ get_fix_command "ruff, pyright" python = None
    /\ is_Some (get_fix_command "ruff" python).
Proof.
  intros Hext Hpython Hconfig Hruff Hpyright Hp1 Hc1 Hp2 Hc2.
  unfold Hook.lint_file. rewrite Hext, Hpython.
  unfold Hook.run_linters. rewrite Hconfig.
  cbn [default py_get and_then].
  vm_compute in Hpython. injection Hpython as <-.
  erewrite (run_one_runs _ "ruff" "ruff" "ruff"
              ["check"; "--output-format=json"]%string file_path code1 out1 err1);
    [|reflexivity|done|reflexivity|done|done].
  cbn [and_then]. rewrite bool_decide_true by done. rewrite lookup_empty.
  cbn [default and_then truthy andb fold_left primary].
  rewrite bool_decide_false by (by intros ?%list_elem_of_singleton).
  erewrite (run_one_runs _ "pyright" "pyright" "pyright"
              ["--outputjson"]%string file_path code2 out2 err2);
    [|reflexivity|done|reflexivity|done|done].
  cbn [and_then]. eexists. split; [reflexivity|].
  cbn [linter issues]. repeat split.
  vm_compute. eauto.
Qed.

(** A file whose linting raises an exception is not lost: among the
    results of [lint_files_parallel], one per file, it
    has a failed result under its path, with one issue on line 0, and
    that issue blocks. *)
Theorem failed_linting_blocks
    (error_text : py_error -> str) (file_paths : list string)
    (config : gmap string json) (file_path : string) (e : py_error) :
  file_path ∈ file_paths ->
  lint_file file_path config = Err e ->
  let results :=
    lint_files_parallel json_loads py_int suffix which process error_text
      file_paths config in
  length results = length file_paths
  /\ exists r i,
       r ∈ results
       /\ file r = Some file_path
       /\ success r = false
       /\ issues r = [i]
       /\ line i = JInt 0
       /\ is_blocking_issue i = Ok true.
Proof.
  intros Hin Herr. unfold lint_files_parallel. cbv zeta.
  split; [by rewrite length_map|].
  eexists _, _. split.
  - apply list_elem_of_fmap. exists file_path. split; [|done].
    rewrite Herr. reflexivity.
  - cbn [file success issues line]. repeat split.
    apply error_severity_blocks; simpl; eauto.
Qed.

End LintFacts.

Lemma failed_linting_blocks_witness :
  let config : gmap string json := {[ "type_checking"%string := JInt 1 ]} in
  let results :=
    lint_files_parallel (fun _ => None) (fun _ => None) (fun _ => ".py"%string)
      (fun _ => WhichFound) (fun _ => ProcExit 0 [] []) (fun _ => lit "error")
      ["a.py"%string] config in
  length results = length ["a.py"%string]
  /\ exists r i,
       r ∈ results
       /\ file r = Some "a.py"%string
       /\ success r = false
       /\ issues r = [i]
       /\ line i = JInt 0
       /\ is_blocking_issue i = Ok true.
Proof.
  intros config.
  apply (failed_linting_blocks (fun _ => None) (fun _ => None)
           (fun _ => ".py"%string) (fun _ => WhichFound)
           (fun _ => ProcExit 0 [] []) (fun _ => lit "error")
           ["a.py"%string] config "a.py" AttributeError).
  - by left.
  - vm_compute. exact eq_refl.
Defined.

Lemma lint_file_linters_used_witness :
  let python := default {| primary := ""; fallback := []; auto_fix := false;
                           commands := []; fix_commands := None |}
                        (lookup_literal ".py"%string LINTERS) in
  let which cmd := if decide (cmd = "flake8"%string) then WhichFound
                   else WhichMissing in
  let linters_used := ["flake8"%string] in
  linters_used = []
  \/ linters_used = [primary python]
  \/ (".py"%string = ".py"%string
      /\ (linters_used = ["pyright"%string]
          \/ linters_used = [primary python; "pyright"%string]))
  \/ exists name, name ∈ fallback python /\ linters_used = [name].
Proof.
  intros python which.
  apply (lint_file_linters_used (fun _ => None) (fun _ => None) which
           (fun _ => ProcExit 0 [] []) ".py" python ∅ "a.py" []).
  vm_compute. exact eq_refl.
Defined.

Lemma python_with_two_linters_has_no_fix_command_witness :
  let python := default {| primary := ""; fallback := []; auto_fix := false;
                           commands := []; fix_commands := None |}
                        (lookup_literal ".py"%string LINTERS) in
  exists r,
    lint_file (fun _ => None) (fun _ => None) (fun _ => ".py"%string)
      (fun _ => WhichFound) (fun _ => ProcExit 0 [] []) "a.py" ∅ = Ok r
    /\ linter r = Some "ruff, pyright"%string
    /\ issues r
       = parse_linter_output (fun _ => None) (fun _ => None) "ruff" [] []
         ++ parse_linter_output (fun _ => None) (fun _ => None) "pyright" [] []
    /\ get_fix_command "ruff, pyright" python = None
    /\ is_Some (get_fix_command "ruff" python).
Proof.
  intros python.
  apply (python_with_two_linters_has_no_fix_command (fun _ => None)
           (fun _ => None) (fun _ => ".py"%string) (fun _ => WhichFound)
           (fun _ => ProcExit 0 [] []) "a.py" ∅ 0 0 [] [] [] []);
    try reflexivity; discriminate.
Defined.

(** *** The verdict *)

Section VerdictFacts.
Context (check_mark warning_mark : str) (str_of_container : json -> str).

Lemma scan_issues_spec f found all_issues blocking_issues :
  scan_issues f found = Ok (all_issues, blocking_issues) ->
  all_issues = map (fun i => (f, i)) found
  /\ (forall fi, fi ∈ blocking_issues
        <-> exists i, fi = (f, i) /\ i ∈ found /\ is_blocking_issue i = Ok true).
Proof.
  revert all_issues blocking_issues.
  induction found as [|i found IH]; intros all_issues blocking_issues; simpl.
  - intros [= <- <-]. split; [done|]. intros fi. split.
    + intros H. by apply elem_of_nil in H.
    + intros (i & _ & H & _). by apply elem_of_nil in H.
  - intros H. apply and_then_Ok in H as (blocks & Hb & H).
    apply and_then_Ok in H as ([all' blocking'] & Hrest & [= <- <-]).
    destruct (IH _ _ Hrest) as (-> & Hblocking). split; [done|].
    intros fi. split.
    + intros Hfi.
      assert (fi = (f, i) /\ blocks = true \/ fi ∈ blocking') as [[-> ->]|Hin].
      { destruct blocks; [|by right].
        apply elem_of_cons in Hfi as [->|Hfi]; [by left|by right]. }
      * exists i. split; [done|]. split; [by left|done].
      * apply Hblocking in Hin as (j & -> & Hj & Hbj).
        exists j. split; [done|]. split; [by right|done].
    + intros (j & -> & Hj & Hbj).
      apply elem_of_cons in Hj as [->|Hj].
      * rewrite Hb in Hbj. injection Hbj as ->. by left.
      * assert ((f, j) ∈ blocking') as Hin by (apply Hblocking; eauto).
        destruct blocks; [by right|done].
Qed.

Lemma scan_results_spec results all_issues blocking_issues :
  scan_results results = Ok (all_issues, blocking_issues) ->
  (all_issues = [] <-> Forall (fun r => issues r = []) results)
  /\ (blocking_issues <> [] -> all_issues <> [])
  /\ (blocking_issues <> []
      <-> exists r i, r ∈ results /\ i ∈ issues r
                      /\ is_blocking_issue i = Ok true).
Proof.
  revert all_issues blocking_issues.
  induction results as [|r results IH]; intros all_issues blocking_issues; simpl.
  - intros [= <- <-]. split; [done|]. split; [done|]. split; [done|].
    intros (r & i & Hr & _). by apply elem_of_nil in Hr.
  - intros H. apply and_then_Ok in H as ([all1 blocking1] & H1 & H).
    apply and_then_Ok in H as ([all2 blocking2] & H2 & [= <- <-]).
    destruct (IH _ _ H2) as (Hall & Hsome & Hblock).
    assert (all1 = map (fun i => (default ""%string (file r), i)) (issues r)
            /\ (forall fi, fi ∈ blocking1
                  <-> exists i, fi = (default ""%string (file r), i)
                                /\ i ∈ issues r
                                /\ is_blocking_issue i = Ok true))
      as (-> & Hb1).
    { destruct (issues r) as [|i0 found] eqn:Hi.
      - injection H1 as <- <-. split; [done|]. intros fi. split.
        + intros Hin. by apply elem_of_nil in Hin.
        + intros (i & _ & Hin & _). by apply elem_of_nil in Hin.
      - destruct (file r) as [f|]; [|done].
        exact (scan_issues_spec f (i0 :: found) all1 blocking1 H1). }
    split; [|split].
    + split.
      * intros Hnil. apply app_eq_nil in Hnil as [Hn1 Hn2].
        constructor; [|by apply Hall].
        by destruct (issues r).
      * intros Hf. inversion Hf as [|? ? Hr Hrest]; subst.
        rewrite Hr. simpl. by apply Hall.
    + intros Hne Hnil. apply app_eq_nil in Hnil as [Hn1 Hn2].
      destruct blocking1 as [|fi blocking1].
      * simpl in Hne. by apply Hsome in Hne.
      * assert (fi ∈ fi :: blocking1) as Hin by by left.
        apply Hb1 in Hin as (i & _ & Hi & _).
        destruct (issues r); [by apply elem_of_nil in Hi|done].
    + split.
      * intros Hne. destruct blocking1 as [|fi blocking1].
        -- simpl in Hne. apply Hblock in Hne as (r' & i & Hr' & Hi).
           exists r', i. split; [by right|done].
        -- assert (fi ∈ fi :: blocking1) as Hin by by left.
           apply Hb1 in Hin as (i & _ & Hi & Hbi).
           exists r, i. split; [by left|done].
      * intros (r' & i & Hr' & Hi & Hbi).
        apply elem_of_cons in Hr' as [->|Hr'].
        -- assert ((default ""%string (file r), i) ∈ blocking1) as Hin
             by (apply Hb1; eauto).
           intros Hnil. apply app_eq_nil in Hnil as [-> _].
           by apply elem_of_nil in Hin.
        -- assert (blocking2 <> []) as Hne by (apply Hblock; eauto).
           intros Hnil. by apply app_eq_nil in Hnil as [_ ?].
Qed.

(** The verdict of [format_output]: it fails (and gives the reason of a
    blocking response) exactly when some issue of some result is a
    blocking issue; otherwise it passes, with no reason, and when no
    result has an issue its message is the line "All files passed
    linting". *)
Theorem format_output_blocks_iff
    (results : list LintResult) (ok : bool) (msg : str) (reason : option str) :
  format_output check_mark warning_mark str_of_container results
  = Ok (ok, msg, reason) ->
  (ok = false
   <-> exists r i, r ∈ results /\ i ∈ issues r
                   /\ is_blocking_issue i = Ok true)
  /\ (is_Some reason <-> ok = false)
  /\ (Forall (fun r => issues r = []) results ->
      msg = check_mark ++ lit " All files passed linting").
Proof.
  unfold format_output. intros H.
  apply and_then_Ok in H as ([all_issues blocking_issues] & Hscan & H).
  destruct (scan_results_spec _ _ _ Hscan) as (Hall & Hsome & Hblock).
  destruct all_issues as [|a all_issues].
  - injection H as <- <- <-. split; [|split].
    + split; [done|]. intros Hex. apply Hblock in Hex.
      by apply Hsome in Hex.
    + split; [by intros [? ?]|done].
    + done.
  - destruct blocking_issues as [|b blocking_issues].
    + injection H as <- <- <-. split; [|split].
      * split; [done|]. intros Hex. by apply Hblock in Hex.
      * split; [by intros [? ?]|done].
      * intros Hf. by apply Hall in Hf.
    + injection H as <- <- <-. split; [|split].
      * split; [|done]. intros _. by apply Hblock.
      * split; [done|]. by eexists.
      * intros Hf. by apply Hall in Hf.
Qed.

End VerdictFacts.

Lemma format_output_blocks_iff_witness :
  let results :=
    [ {| success := false;
         issues := [ {| line := JInt 3; column := JInt 1;
                        severity := JStr (lit "warning");
                        message := JStr (lit "undefined name");
                        rule := JStr (lit "F821") |} ];
         linter := Some "ruff"%string; file := Some "a.py"%string |} ] in
  (false = false
   <-> exists r i, r ∈ results /\ i ∈ issues r
                   /\ is_blocking_issue i = Ok true)
  /\ (is_Some (Some (lit "Linting failed:

a.py:3:1: F821 undefined name

Please fix these 1 error(s).")) <-> false = false)
  /\ (Forall (fun r => issues r = []) results ->
      [] = lit "ok" ++ lit " All files passed linting").
Proof.
  intros results.
  apply (format_output_blocks_iff (lit "ok") (lit "warn") (fun _ => [])
           results false []).
  vm_compute. exact eq_refl.
Defined.

End HookFacts.
